(** * predict.py of cog-flux-dev-lora-stream: a shallow embedding

    The file models [src/predict.py]: the weight download helper, the
    [Predictor.setup] provisioning steps, the aspect-ratio table, the adapter
    (LoRA) resolver and the generate / filter / save / yield loop of
    [Predictor.predict].

    Python values are modelled as follows.
    - [str] is a list of Unicode code points ([N]); literals are written
      [lit "..."].
    - [int] is [Z]; [bytes] is [list byte].
    - a [dict] with string keys is a [gmap str _].
    - exceptions are values of [exn]; a statement runs in the monad [M], which
      threads the mutable world (local files, the adapters attached to the
      pipeline object, the position in the process random source) and
      collects the externally visible effects as a trace of [event]s.  A
      raised exception keeps the world reached so far: nothing is rolled
      back.
    - the pretrained models, the hub, [pget], [tarfile] and the image encoder
      are black boxes gathered in the record [Externals].
    - [print] calls are not modelled. *)

From Stdlib Require Import ZArith NArith Lia String Ascii List.
From Stdlib.Strings Require Import Byte.
From Stdlib Require Import PrimFloat.
From stdpp Require Import base option list gmap.

Set Default Proof Using "Type".
Local Open Scope Z_scope.

(** ** Python strings *)

Module Py.

Definition char := N.
Bind Scope N_scope with char.
Definition str := list char.

(** A string literal: the code points of its (ASCII) characters. *)
Definition lit (s : string) : str :=
  List.map N_of_ascii (list_ascii_of_string s).
Arguments lit s%_string.

(** [s.endswith(t)] *)
Fixpoint startswith (t s : str) : bool :=
  match t, s with
  | [], _ => true
  | _ :: _, [] => false
  | a :: t', b :: s' => N.eqb a b && startswith t' s'
  end.

Definition endswith (s t : str) : bool := startswith (rev t) (rev s).

(** [t in s] *)
Fixpoint contains (s t : str) : bool :=
  startswith t s ||
  match s with
  | [] => false
  | _ :: s' => contains s' t
  end.

(** [s.split(sep)[-1]] for a one-character separator: the text after the last
    occurrence of [sep] (all of [s] when there is none). *)
Fixpoint split_last_from (sep : char) (cur : str) (s : str) : str :=
  match s with
  | [] => rev cur
  | c :: s' =>
      if N.eqb c sep then split_last_from sep [] s'
      else split_last_from sep (c :: cur) s'
  end.

Definition split_last (sep : char) (s : str) : str := split_last_from sep [] s.

(** [str(n)] for a natural number: its decimal digits. *)
Definition digit (d : nat) : char := (48 + N.of_nat d)%N.

Fixpoint digits_fuel (fuel n : nat) (acc : str) : str :=
  match fuel with
  | O => acc
  | S fuel' =>
      let acc' := digit (n mod 10) :: acc in
      if (n <? 10)%nat then acc' else digits_fuel fuel' (n / 10) acc'
  end.

Definition str_of_nat (n : nat) : str := digits_fuel (S n) n [].

(** [int.from_bytes(bs, "big")] *)
Definition int_from_bytes_big (bs : list byte) : Z :=
  fold_left (fun acc b => acc * 256 + Z.of_N (Byte.to_N b)) bs 0.

End Py.
Import Py.

Example lit_slash : lit "a/b" = [97; 47; 98]%N.
Proof. reflexivity. Qed.

Example endswith_tar : endswith (lit "https://x/y.tar") (lit ".tar") = true.
Proof. reflexivity. Qed.

Example contains_mid : contains (lit "a.replicate.delivery/x") (lit "replicate.delivery") = true.
Proof. reflexivity. Qed.

Example split_last_url : split_last 47%N (lit "https://h/o/n/w.safetensors") = lit "w.safetensors".
Proof. reflexivity. Qed.

Example str_of_nat_120 : str_of_nat 120 = lit "120".
Proof. reflexivity. Qed.

Example from_bytes_big : int_from_bytes_big [x01; xff]%byte = 511.
Proof. reflexivity. Qed.

(** ** Regular expressions, as used through [re.match] and [re.search] *)

Module Re.

(** The sets of characters one pattern position can accept. *)
Inductive charset :=
| One (c : char)                       (* a literal character *)
| NotNewline                           (* [.] without DOTALL *)
| AnyChar                              (* any character at all *)
| Ranges (rs : list (char * char)).    (* a class such as [a-z0-9_-] *)

Definition in_set (p : charset) (c : char) : bool :=
  match p with
  | One a => N.eqb c a
  | NotNewline => negb (N.eqb c 10)
  | AnyChar => true
  | Ranges rs => existsb (fun r => N.leb (fst r) c && N.leb c (snd r)) rs
  end.

Inductive regex :=
| Void
| Eps
| Sym (p : charset)
| Seq (r1 r2 : regex)
| Alt (r1 r2 : regex)
| Star (r : regex).

Definition Plus (r : regex) : regex := Seq r (Star r).
Definition Opt (r : regex) : regex := Alt r Eps.

(** The regex matching exactly the characters of a literal, one by one. *)
Fixpoint chars (s : str) : regex :=
  match s with
  | [] => Eps
  | c :: s' => Seq (Sym (One c)) (chars s')
  end.

Fixpoint nullable (r : regex) : bool :=
  match r with
  | Void => false
  | Eps => true
  | Sym _ => false
  | Seq r1 r2 => nullable r1 && nullable r2
  | Alt r1 r2 => nullable r1 || nullable r2
  | Star _ => true
  end.

(** Brzozowski derivative. *)
Fixpoint deriv (c : char) (r : regex) : regex :=
  match r with
  | Void => Void
  | Eps => Void
  | Sym p => if in_set p c then Eps else Void
  | Seq r1 r2 =>
      if nullable r1 then Alt (Seq (deriv c r1) r2) (deriv c r2)
      else Seq (deriv c r1) r2
  | Alt r1 r2 => Alt (deriv c r1) (deriv c r2)
  | Star r1 => Seq (deriv c r1) (Star r1)
  end.

(** Does the whole of [s] belong to [r]? *)
Fixpoint fullmatch (r : regex) (s : str) : bool :=
  match s with
  | [] => nullable r
  | c :: s' => fullmatch (deriv c r) s'
  end.

(** A pattern as written in the source: every pattern of [predict.py] starts
    with [^]; [dollar] records whether it ends with [$]. *)
Record pattern := Pattern { body : regex; dollar : bool }.

(** [re.match(p, s) is not None].  Matching is anchored at the start.
    Without [$] any prefix of [s] may match; with [$] (no MULTILINE) the
    match must stop at the end of [s] or just before a final newline. *)
Definition re_match (p : pattern) (s : str) : bool :=
  if dollar p
  then fullmatch (Seq (body p) (Opt (Sym (One 10)))) s
  else fullmatch (Seq (body p) (Star (Sym AnyChar))) s.

(** The language of a regex, declaratively. *)
Inductive lang : regex -> str -> Prop :=
| lang_eps : lang Eps []
| lang_sym p c : in_set p c = true -> lang (Sym p) [c]
| lang_seq r1 r2 s1 s2 : lang r1 s1 -> lang r2 s2 -> lang (Seq r1 r2) (s1 ++ s2)
| lang_alt_l r1 r2 s : lang r1 s -> lang (Alt r1 r2) s
| lang_alt_r r1 r2 s : lang r2 s -> lang (Alt r1 r2) s
| lang_star_nil r : lang (Star r) []
| lang_star_app r s1 s2 : lang r s1 -> lang (Star r) s2 -> lang (Star r) (s1 ++ s2).

(** A regex none of whose derivatives can ever accept. *)
Fixpoint dead (r : regex) : bool :=
  match r with
  | Void => true
  | Eps | Sym _ | Star _ => false
  | Seq r1 r2 => dead r1 || dead r2
  | Alt r1 r2 => dead r1 && dead r2
  end.

End Re.
Import Re.

(** ** The patterns of [predict.py] *)

(** [[a-zA-Z0-9_-]] *)
Definition slug_class : charset :=
  Ranges [(97, 122); (65, 90); (48, 57); (95, 95); (45, 45)]%N.

Definition is_slug_char (c : char) : bool := in_set slug_class c.

(** [[a-zA-Z0-9_-]+/[a-zA-Z0-9_-]+] *)
Definition re_slug : regex :=
  Seq (Plus (Sym slug_class)) (Seq (Sym (One 47)) (Plus (Sym slug_class))).

(** [https?://] *)
Definition re_scheme : regex :=
  Seq (chars (lit "http")) (Seq (Opt (Sym (One 115))) (chars (lit "://"))).

(** line 148: [r"^[a-zA-Z0-9_-]+/[a-zA-Z0-9_-]+$"] *)
Definition pat_hf_path : pattern := Pattern re_slug true.

(** line 151: [r"^https?://huggingface.co"] (the dot is not escaped) *)
Definition re_hf_host : regex :=
  Seq re_scheme (Seq (chars (lit "huggingface")) (Seq (Sym NotNewline) (chars (lit "co")))).

Definition pat_hf_url : pattern := Pattern re_hf_host false.

(** line 153: [r"^https?://huggingface.co/([a-zA-Z0-9_-]+/[a-zA-Z0-9_-]+)"] *)
Definition pat_hf_url_slug : pattern :=
  Pattern (Seq re_hf_host (Seq (Sym (One 47)) re_slug)) false.

(** line 158, first pattern: [r"^https?://.*\.(safetensors|tar)$"] *)
Definition pat_weight_url : pattern :=
  Pattern
    (Seq re_scheme
       (Seq (Star (Sym NotNewline))
          (Seq (Sym (One 46))
             (Alt (chars (lit "safetensors")) (chars (lit "tar"))))))
    true.

(** line 158, second pattern:
    [r"^https?://replicate.delivery/[a-zA-Z0-9_-]+/[a-zA-Z0-9_-]+/trained_model.tar"] *)
Definition pat_replicate_url : pattern :=
  Pattern
    (Seq re_scheme
       (Seq (chars (lit "replicate"))
          (Seq (Sym NotNewline)
             (Seq (chars (lit "delivery/"))
                (Seq re_slug
                   (Seq (chars (lit "/trained_model"))
                      (Seq (Sym NotNewline) (chars (lit "tar")))))))))
    false.

Example hf_path_ok : re_match pat_hf_path (lit "alvdansen/frosting_lane_flux") = true.
Proof. vm_compute. reflexivity. Qed.

Example hf_path_three_segments : re_match pat_hf_path (lit "a/b/c") = false.
Proof. vm_compute. reflexivity. Qed.

Example hf_path_trailing_newline : re_match pat_hf_path (lit "a/b" ++ [10%N]) = true.
Proof. vm_compute. reflexivity. Qed.

Example hf_url_ok : re_match pat_hf_url (lit "https://huggingface.co/o/n/blob/main/w.safetensors") = true.
Proof. vm_compute. reflexivity. Qed.

Example hf_url_http : re_match pat_hf_url (lit "http://huggingfaceXco") = true.
Proof. vm_compute. reflexivity. Qed.

Example weight_url_ok : re_match pat_weight_url (lit "https://example.com/a/w.safetensors") = true.
Proof. vm_compute. reflexivity. Qed.

Example weight_url_zip : re_match pat_weight_url (lit "https://example.com/a/w.zip") = false.
Proof. vm_compute. reflexivity. Qed.

Example replicate_url_ok :
  re_match pat_replicate_url (lit "https://replicate.delivery/yhqm/Ab_9-x/trained_model.tar?x=1") = true.
Proof. vm_compute. reflexivity. Qed.

(** ** Requests, exceptions and the external libraries *)

Definition bytes := list byte.

(** The parameters of [Predictor.predict] (lines 84-129). *)
Record Request := {
  prompt : str;
  aspect_ratio : str;
  num_outputs : Z;
  num_inference_steps : Z;
  guidance_scale : float;
  seed : option Z;
  output_format : str;
  output_quality : Z;
  hf_lora : option str;
  lora_scale : float;
  disable_safety_checker : bool
}.

(** The keyword arguments of one call of the diffusion pipeline (lines
    190-198); [joint_attention_kwargs] is [None] or [{"scale": lora_scale}]. *)
Record FluxArgs := {
  fa_prompt : str;
  fa_guidance_scale : float;
  fa_num_inference_steps : Z;
  fa_max_sequence_length : Z;
  fa_output_type : str;
  fa_width : Z;
  fa_height : Z;
  fa_joint_attention_scale : option float
}.

(** What [load_lora_weights] is asked to read: a hub repository (with an
    optional weight file name) or a local weight file with its content. *)
Inductive LoraSource :=
| HubRepo (slug : str) (weight_name : option str)
| LocalWeights (path : str) (content : bytes).

Inductive exn :=
| TypeError                        (* unpacking [None] at line 135 *)
| AttributeError                   (* [None.group(1)] at line 153 *)
| CalledProcessError (code : Z)    (* [subprocess.check_call], non-zero exit *)
| FileNotFoundError (path : str)
| TarError                         (* [tarfile.open] / [extractall] *)
| LoraLoadError                    (* raised inside [load_lora_weights] *)
| PipelineError                    (* raised inside the diffusion pipeline *)
| InputValidationError             (* an [Input(...)] constraint is violated *)
| PyException (msg : str).         (* [raise Exception(msg)] *)

(** The black boxes the file calls.  The safety checker, the image encoder
    and the seeding of the generator are taken to return; the pipeline, the
    adapter loader, the download tool and the archive reader may fail. *)
Record Externals := {
  image : Type;
  generator : Type;
  adapter : Type;
  (** [torch.Generator("cuda").manual_seed(seed)] *)
  manual_seed : Z -> generator;
  (** [pipe(...).images[0]] given the adapters attached to the pipeline and
      the shared generator; the call advances the generator; [None] when the
      call raises. *)
  flux : list adapter -> FluxArgs -> generator -> option (image * generator);
  (** [has_nsfw_content[0]] of [run_safety_checker([image])] *)
  has_nsfw : image -> bool;
  (** the weights [load_lora_weights] obtains; [None] when it raises *)
  fetch_lora : LoraSource -> option adapter;
  (** [pget [-x] url dest]: exit code and the files afterwards *)
  pget : bool -> str -> str -> gmap str bytes -> Z * gmap str bytes;
  (** [extract_tar] followed by [os.walk]: the regular files of the archive
      in traversal order; [None] when the archive cannot be read *)
  tar_walk : bytes -> option (list (str * bytes));
  (** the bytes [image.save(path, **opts)] writes *)
  encode : image -> str -> option (Z * bool) -> bytes
}.

Section Predictor.

Context (X : Externals).

Inductive event :=
| EvUrandom (n : nat)
| EvFromPretrained (name : str)
| EvPget (extract : bool) (url dest : str) (exit_code : Z)
| EvRemove (path : str)
| EvExtract (path : str)
| EvLoadLora (src : LoraSource)
| EvUnloadLora
| EvGenerate (i : nat) (args : FluxArgs) (g : generator X)
| EvSafetyCheck (i : nat) (flagged : bool)
| EvSave (path : str) (img : image X) (opts : option (Z * bool))
| EvYield (path : str).

(** The mutable state a request can see. *)
Record World := {
  files : gmap str bytes;          (* local files and directories *)
  attached : list (adapter X);     (* adapters attached to [self.txt2img_pipe],
                                      the object [pipe] also names (line 143) *)
  urandom_src : nat -> byte;       (* the bytes [os.urandom] will deliver *)
  urandom_pos : nat                (* how many of them were consumed *)
}.

Definition set_files (fs : gmap str bytes) (w : World) : World :=
  {| files := fs; attached := attached w;
     urandom_src := urandom_src w; urandom_pos := urandom_pos w |}.

Definition set_attached (l : list (adapter X)) (w : World) : World :=
  {| files := files w; attached := l;
     urandom_src := urandom_src w; urandom_pos := urandom_pos w |}.

Definition set_urandom_pos (n : nat) (w : World) : World :=
  {| files := files w; attached := attached w;
     urandom_src := urandom_src w; urandom_pos := n |}.

(** *** The monad of statements *)

Inductive Res (A : Type) :=
| Ok (a : A)
| Raise (e : exn).
Arguments Ok {A} a.
Arguments Raise {A} e.

Record Out (A : Type) := MkOut {
  res : Res A;
  world : World;
  trace : list event
}.
Arguments MkOut {A}.
Arguments res {A}.
Arguments world {A}.
Arguments trace {A}.

Definition M (A : Type) := World -> Out A.

Definition ret {A} (a : A) : M A := fun w => MkOut (Ok a) w [].

Definition raise {A} (e : exn) : M A := fun w => MkOut (Raise e) w [].

Definition bind {A B} (m : M A) (k : A -> M B) : M B :=
  fun w =>
    let o := m w in
    match res o with
    | Ok a =>
        let o' := k a (world o) in
        MkOut (res o') (world o') (trace o ++ trace o')
    | Raise e => MkOut (Raise e) (world o) (trace o)
    end.

Definition emit (ev : event) : M unit := fun w => MkOut (Ok tt) w [ev].

Definition get_world : M World := fun w => MkOut (Ok w) w [].

Notation "x <- m ;; k" := (bind m (fun x => k))
  (at level 100, m at next level, right associativity).
Notation "m ;;; k" := (bind m (fun _ => k))
  (at level 100, right associativity).

(** *** Operating-system and library calls *)

(** [os.urandom(n)] *)
Definition os_urandom (n : nat) : M (list byte) :=
  fun w =>
    MkOut (Ok (List.map (urandom_src w) (seq (urandom_pos w) n)))
          (set_urandom_pos (urandom_pos w + n)%nat w)
          [EvUrandom n].

(** [os.path.exists(path)] *)
Definition os_path_exists (path : str) : M bool :=
  fun w => MkOut (Ok (bool_decide (is_Some (files w !! path)))) w [].

(** [os.remove(path)] *)
Definition os_remove (path : str) : M unit :=
  fun w =>
    match files w !! path with
    | Some _ => MkOut (Ok tt) (set_files (delete path (files w)) w) [EvRemove path]
    | None => MkOut (Raise (FileNotFoundError path)) w [EvRemove path]
    end.

(** [subprocess.check_call(["pget", "-x", url, dest])] when [extract], and
    [subprocess.check_call(["pget", url, dest])] otherwise: one run of the
    tool, [CalledProcessError] when it exits non-zero. *)
Definition check_call_pget (extract : bool) (url dest : str) : M unit :=
  fun w =>
    let '(code, fs) := pget X extract url dest (files w) in
    MkOut (if code =? 0 then Ok tt else Raise (CalledProcessError code))
          (set_files fs w)
          [EvPget extract url dest code].

(** [self.txt2img_pipe.load_lora_weights(...)], called without
    [adapter_name]: the adapter is added to those the pipeline already holds
    (diffusers names it [default_N], [N] the number of adapters loaded so
    far, and keeps the earlier ones).  [attached] is thus the list of the
    adapters loaded since the last unload; what the pipeline makes of them
    is up to [flux].  The cache directory a load from the hub fills is not
    part of [files]. *)
Definition load_lora_weights (src : LoraSource) : M unit :=
  fun w =>
    match fetch_lora X src with
    | Some a => MkOut (Ok tt) (set_attached (attached w ++ [a]) w) [EvLoadLora src]
    | None => MkOut (Raise LoraLoadError) w [EvLoadLora src]
    end.

(** [load_lora_weights(path)] for a local path: the file is read first. *)
Definition load_lora_file (path : str) : M unit :=
  w <- get_world ;;
  match files w !! path with
  | Some content => load_lora_weights (LocalWeights path content)
  | None => raise (FileNotFoundError path)
  end.

(** [pipe.unload_lora_weights()]: every attached adapter is removed. *)
Definition unload_lora_weights : M unit :=
  fun w => MkOut (Ok tt) (set_attached [] w) [EvUnloadLora].

(** [image.save(path, **opts)] *)
Definition image_save (img : image X) (path : str) (opts : option (Z * bool)) : M unit :=
  fun w =>
    MkOut (Ok tt)
          (set_files (<[path := encode X img path opts]> (files w)) w)
          [EvSave path img opts].

(** *** Module constants (lines 20-24) *)

Definition MODEL_CACHE : str := lit "checkpoints".
Definition MODEL_URL : str :=
  lit "https://weights.replicate.delivery/default/black-forest-labs/FLUX.1-dev/model-cache.tar".
Definition SAFETY_CACHE : str := lit "safety-cache".
Definition FEATURE_EXTRACTOR : str := lit "feature-extractor".
Definition SAFETY_URL : str :=
  lit "https://weights.replicate.delivery/default/sdxl/safety-1.0.tar".

(** *** [download_weights] (lines 26-34) *)

Definition download_weights (url dest : str) (file : bool) : M unit :=
  if negb file then check_call_pget true url dest
  else check_call_pget false url dest.

(** *** [Predictor.setup] (lines 42-63) *)

(** The guarded download written twice in [setup] (lines 48-49 and 56-57):
    [if not os.path.exists(dest): download_weights(url, dest)]. *)
Definition ensure_weights (url dest : str) : M unit :=
  present <- os_path_exists dest ;;
  if negb present then download_weights url dest false else ret tt.

Definition setup : M unit :=
  ensure_weights SAFETY_URL SAFETY_CACHE ;;;
  emit (EvFromPretrained SAFETY_CACHE) ;;;
  emit (EvFromPretrained FEATURE_EXTRACTOR) ;;;
  ensure_weights MODEL_URL MODEL_CACHE ;;;
  emit (EvFromPretrained (lit "black-forest-labs/FLUX.1-dev")).

(** *** [Predictor.run_safety_checker] (lines 66-73), for a one-image batch *)

Definition run_safety_checker (i : nat) (img : image X) : M bool :=
  let flagged := has_nsfw X img in
  emit (EvSafetyCheck i flagged) ;;; ret flagged.

(** *** [Predictor.aspect_ratio_to_width_height] (lines 75-81) *)

Definition aspect_ratios : gmap str (Z * Z) :=
  list_to_map
    [ (lit "1:1", (1024, 1024)); (lit "16:9", (1344, 768)); (lit "21:9", (1536, 640));
      (lit "3:2", (1216, 832)); (lit "2:3", (832, 1216)); (lit "4:5", (896, 1088));
      (lit "5:4", (1088, 896)); (lit "9:16", (768, 1344)); (lit "9:21", (640, 1536)) ].

Definition aspect_ratio_to_width_height (aspect_ratio : str) : option (Z * Z) :=
  aspect_ratios !! aspect_ratio.

(** *** The [Input(...)] declarations of [predict] (lines 86-128) *)

Definition aspect_ratio_choices : list str :=
  [lit "1:1"; lit "16:9"; lit "21:9"; lit "2:3"; lit "3:2"; lit "4:5";
   lit "5:4"; lit "9:16"; lit "9:21"].

Definition output_format_choices : list str := [lit "webp"; lit "jpg"; lit "png"].

Definition in_range (lo hi x : Z) : bool := (lo <=? x) && (x <=? hi).

Definition in_frange (lo hi x : float) : bool :=
  (PrimFloat.leb lo x && PrimFloat.leb x hi)%bool.

(** The constraints Cog enforces on a request before it enters [predict]:
    [choices], [ge] and [le]. *)
Definition check_inputs (r : Request) : bool :=
  bool_decide (aspect_ratio r ∈ aspect_ratio_choices)
  && in_range 1 4 (num_outputs r)
  && in_range 1 50 (num_inference_steps r)
  && in_frange 0 10 (guidance_scale r)
  && bool_decide (output_format r ∈ output_format_choices)
  && in_range 0 100 (output_quality r)
  && in_frange 0 1 (lora_scale r).

(** *** [Predictor.predict] (lines 130-222) *)

(** [s] without its prefix [t], when it starts with [t]. *)
Fixpoint strip_prefix (t s : str) : option str :=
  match t, s with
  | [], _ => Some s
  | _ :: _, [] => None
  | a :: t', b :: s' => if N.eqb a b then strip_prefix t' s' else None
  end.

(** The longest prefix of [s] whose characters all satisfy [p], and the
    rest. *)
Fixpoint span (p : char -> bool) (s : str) : str * str :=
  match s with
  | [] => ([], [])
  | c :: s' =>
      if p c then let '(a, b) := span p s' in (c :: a, b) else ([], s)
  end.

(** [https?://] at the start of [s]. *)
Definition strip_scheme (s : str) : option str :=
  s1 ← strip_prefix (lit "http") s;
  match s1 with
  | c :: s2 =>
      if N.eqb c 115 then strip_prefix (lit "://") s2
      else strip_prefix (lit "://") s1
  | [] => None
  end.

Definition strip_not_newline (s : str) : option str :=
  match s with
  | c :: s' => if in_set NotNewline c then Some s' else None
  | [] => None
  end.

(** Line 153: group 1 of
    [re.search(r"^https?://huggingface.co/([a-zA-Z0-9_-]+/[a-zA-Z0-9_-]+)", s)],
    [None] when the search finds nothing.  Both [+] are greedy, and a slug
    character is never [/], so each segment is the longest run of slug
    characters. *)
Definition hf_url_slug (s : str) : option str :=
  s1 ← strip_scheme s;
  s2 ← strip_prefix (lit "huggingface") s1;
  s3 ← strip_not_newline s2;
  s4 ← strip_prefix (lit "co/") s3;
  let '(owner, s5) := span is_slug_char s4 in
  match owner with
  | [] => None
  | _ :: _ =>
      s6 ← strip_prefix (lit "/") s5;
      let '(name, _) := span is_slug_char s6 in
      match name with
      | [] => None
      | _ :: _ => Some (owner ++ lit "/" ++ name)
      end
  end.

Definition invalid_hf_lora_msg : str :=
  lit "Invalid parameter for hf_lora, must be a HuggingFace path/URL, or URL to a .safetensors/.tar file".

Definition no_safetensors_msg : str :=
  lit "No .safetensors file found in the tar archive.".

Definition all_nsfw_msg : str :=
  lit "NSFW content detected in all images. Try running it again, or try a different prompt.".

(** Lines 166-179: load the downloaded file, out of the archive when it is
    one. *)
Definition load_downloaded_lora (is_tar : bool) (lora_path : str) : M unit :=
  if is_tar then
    w <- get_world ;;
    match files w !! lora_path with
    | None => raise (FileNotFoundError lora_path)
    | Some archive =>
        emit (EvExtract lora_path) ;;;
        match tar_walk X archive with
        | None => raise TarError
        | Some members =>
            let safetensors_files :=
              List.filter (fun m => endswith (fst m) (lit ".safetensors")) members in
            match safetensors_files with
            | (name, content) :: _ => load_lora_weights (LocalWeights name content)
            | [] => raise (PyException no_safetensors_msg)
            end
        end
    end
  else load_lora_file lora_path.

(** Lines 159-160: [file_extension] is ['tar'] exactly when [is_tar_reference]. *)
Definition is_tar_reference (hf_lora : str) : bool :=
  endswith hf_lora (lit ".tar") || contains hf_lora (lit "replicate.delivery").

Definition lora_path_of (hf_lora : str) : str :=
  lit "/tmp/lora." ++
  (if is_tar_reference hf_lora then lit "tar" else lit "safetensors").

(** Lines 158-179: the reference is a URL to download. *)
Definition load_lora_from_url (hf_lora : str) : M unit :=
  let lora_path := lora_path_of hf_lora in
  present <- os_path_exists lora_path ;;
  (if present then os_remove lora_path else ret tt) ;;;
  download_weights hf_lora lora_path true ;;;
  load_downloaded_lora (is_tar_reference hf_lora) lora_path.

(** Lines 145-184: attach the adapter the request names, or unload.  The
    result is [flux_kwargs["joint_attention_kwargs"]]: [None] or the scale. *)
Definition resolve_adapter (r : Request) : M (option float) :=
  match hf_lora r with
  | Some ref =>
      (if re_match pat_hf_path ref then
         load_lora_weights (HubRepo ref None)
       else if re_match pat_hf_url ref then
         match hf_url_slug ref with
         | None => raise AttributeError
         | Some huggingface_slug =>
             let weight_name := split_last 47 ref in
             load_lora_weights (HubRepo huggingface_slug (Some weight_name))
         end
       else if re_match pat_weight_url ref || re_match pat_replicate_url ref then
         load_lora_from_url ref
       else raise (PyException invalid_hf_lora_msg)) ;;;
      ret (Some (lora_scale r))
  | None =>
      unload_lora_weights ;;; ret None
  end.

(** Line 208: [f"/tmp/out-{safe_images_count}.{output_format}"] *)
Definition output_path (safe_images_count : nat) (output_format : str) : str :=
  lit "/tmp/out-" ++ str_of_nat safe_images_count ++ lit "." ++ output_format.

(** Lines 209-212: the keyword arguments of [image.save]. *)
Definition save_options (r : Request) : option (Z * bool) :=
  if negb (bool_decide (output_format r = lit "png"))
  then Some (output_quality r, true)
  else None.

(** Lines 190-198: one step of [image_generator()]. *)
Definition pipe_call (i : nat) (args : FluxArgs) (g : generator X)
  : M (image X * generator X) :=
  w <- get_world ;;
  emit (EvGenerate i args g) ;;;
  match flux X (attached w) args g with
  | Some out => ret out
  | None => raise PipelineError
  end.

(** Lines 200-215: the loop over [enumerate(image_generator())] with [n]
    iterations left, at generation index [i], with the shared generator in
    state [g].  The result is [safe_images_count] at the end of the loop. *)
Fixpoint generation_loop (r : Request) (args : FluxArgs)
    (n i : nat) (g : generator X) (safe_images_count : nat) : M nat :=
  match n with
  | O => ret safe_images_count
  | S n' =>
      out <- pipe_call i args g ;;
      let '(img, g') := out in
      flagged <- (if negb (disable_safety_checker r)
                  then run_safety_checker i img else ret false) ;;
      if flagged then generation_loop r args n' (S i) g' safe_images_count
      else
        let path := output_path safe_images_count (output_format r) in
        image_save img path (save_options r) ;;;
        emit (EvYield path) ;;;
        generation_loop r args n' (S i) g' (S safe_images_count)
  end.

(** Lines 131-132. *)
Definition choose_seed (r : Request) : M Z :=
  match seed r with
  | None => bs <- os_urandom 2 ;; ret (int_from_bytes_big bs)
  | Some s => ret s
  end.

(** Line 135: [width, height = self.aspect_ratio_to_width_height(aspect_ratio)]. *)
Definition unpack_size (aspect_ratio : str) : M (Z * Z) :=
  match aspect_ratio_to_width_height aspect_ratio with
  | Some wh => ret wh
  | None => raise TypeError
  end.

Definition flux_args (r : Request) (wh : Z * Z) (jak : option float) : FluxArgs :=
  {| fa_prompt := prompt r;
     fa_guidance_scale := guidance_scale r;
     fa_num_inference_steps := num_inference_steps r;
     fa_max_sequence_length := 512;
     fa_output_type := lit "pil";
     fa_width := fst wh;
     fa_height := snd wh;
     fa_joint_attention_scale := jak |}.

(** Lines 135-186: everything between the choice of the seed and the loop.
    The result is the pipeline arguments and the freshly seeded generator. *)
Definition prepare_with (r : Request) (seed : Z) : M (FluxArgs * generator X) :=
  wh <- unpack_size (aspect_ratio r) ;;
  jak <- resolve_adapter r ;;
  ret (flux_args r wh jak, manual_seed X seed).

(** Lines 131-186: everything before the loop. *)
Definition prepare (r : Request) : M (FluxArgs * generator X) :=
  seed <- choose_seed r ;;
  prepare_with r seed.

(** Lines 200-222: the loop, the unload and the final check. *)
Definition generate (r : Request) (p : FluxArgs * generator X) : M unit :=
  safe_images_count <-
    generation_loop r (fst p) (Z.to_nat (num_outputs r)) 0 (snd p) 0 ;;
  (if bool_decide (is_Some (hf_lora r)) then unload_lora_weights else ret tt) ;;;
  if (safe_images_count =? 0)%nat then raise (PyException all_nsfw_msg)
  else ret tt.

(** The whole of [predict], iterated to exhaustion by its caller. *)
Definition predict (r : Request) : M unit :=
  p <- prepare r ;; generate r p.

(** A request as served: Cog checks the [Input] constraints, then runs
    [predict]. *)
Definition serve (r : Request) : M unit :=
  if check_inputs r then predict r else raise InputValidationError.

(** *** Reading a trace *)

Definition yielded (tr : list event) : list str :=
  omap (fun ev => match ev with EvYield p => Some p | _ => None end) tr.

Definition saved (tr : list event) : list (str * image X * option (Z * bool)) :=
  omap (fun ev => match ev with EvSave p img o => Some (p, img, o) | _ => None end) tr.

Definition generated (tr : list event) : list nat :=
  omap (fun ev => match ev with EvGenerate i _ _ => Some i | _ => None end) tr.

Definition flags (tr : list event) : list bool :=
  omap (fun ev => match ev with EvSafetyCheck _ b => Some b | _ => None end) tr.

Definition pget_runs (tr : list event) : list (bool * str * str * Z) :=
  omap (fun ev => match ev with EvPget x u d c => Some (x, u, d, c) | _ => None end) tr.

(** Events that reach the network: a download, or a read from the hub. *)
Definition is_network (ev : event) : bool :=
  match ev with
  | EvPget _ _ _ _ => true
  | EvLoadLora (HubRepo _ _) => true
  | _ => false
  end.

End Predictor.

Arguments Ok {A} a.
Arguments Raise {A} e.
Arguments MkOut {X A} res world trace.
Arguments res {X A} o.
Arguments world {X A} o.
Arguments trace {X A} o.
Arguments EvUrandom {X} n.
Arguments EvFromPretrained {X} name.
Arguments EvPget {X} extract url dest exit_code.
Arguments EvRemove {X} path.
Arguments EvExtract {X} path.
Arguments EvLoadLora {X} src.
Arguments EvUnloadLora {X}.
Arguments EvGenerate {X} i args g.
Arguments EvSafetyCheck {X} i flagged.
Arguments EvSave {X} path img opts.
Arguments EvYield {X} path.
Arguments set_files {X} fs w.
Arguments set_attached {X} l w.
Arguments set_urandom_pos {X} n w.
Arguments files {X} w.
Arguments attached {X} w.
Arguments urandom_src {X} w.
Arguments urandom_pos {X} w.
Arguments yielded {X} tr.
Arguments saved {X} tr.
Arguments generated {X} tr.
Arguments flags {X} tr.
Arguments pget_runs {X} tr.
Arguments is_network {X} ev.

(** ** Concrete black boxes, for running the model on examples

    Images and generator states are numbers: the generator counts the calls
    made since it was seeded, and an image records the generator state and
    the number of attached adapters it was drawn with.  [fails] tells at
    which generator states the pipeline raises, [nsfw] which images the
    safety checker flags.  Downloads succeed and write an empty file. *)
Definition toy (fails : Z -> bool) (nsfw : Z -> bool) : Externals :=
  {| image := Z;
     generator := Z;
     adapter := LoraSource;
     manual_seed := fun s => s;
     flux := fun l _ g =>
       if fails g then None else Some (10 * g + Z.of_nat (length l), g + 1);
     has_nsfw := nsfw;
     fetch_lora := fun src => Some src;
     pget := fun _ _ dest fs => (0, <[dest := []]> fs);
     tar_walk := fun _ => Some [(lit "lora/weights.safetensors", [])];
     encode := fun img _ opts =>
       match opts with
       | Some (q, _) => [x01; x00]%byte
       | None => [x00]%byte
       end |}.

Definition toy_ok : Externals := toy (fun _ => false) (fun _ => false).

(** A world just after [setup]: no scratch files, no adapter attached. *)
Definition fresh_world (X : Externals) : World X :=
  {| files := ∅; attached := []; urandom_src := fun _ => x2a%byte; urandom_pos := 0 |}.

(** The request with every default of the [Input] declarations. *)
Definition default_request (p : str) : Request :=
  {| prompt := p;
     aspect_ratio := lit "1:1";
     num_outputs := 1;
     num_inference_steps := 28;
     guidance_scale := 3.5%float;
     seed := None;
     output_format := lit "webp";
     output_quality := 80;
     hf_lora := None;
     lora_scale := 0x1.999999999999ap-1%float;   (* 0.8 *)
     disable_safety_checker := false |}.

Definition with_aspect_ratio (s : str) (r : Request) : Request :=
  {| prompt := prompt r; aspect_ratio := s; num_outputs := num_outputs r;
     num_inference_steps := num_inference_steps r;
     guidance_scale := guidance_scale r; seed := seed r;
     output_format := output_format r; output_quality := output_quality r;
     hf_lora := hf_lora r; lora_scale := lora_scale r;
     disable_safety_checker := disable_safety_checker r |}.

Definition with_num_outputs (n : Z) (r : Request) : Request :=
  {| prompt := prompt r; aspect_ratio := aspect_ratio r; num_outputs := n;
     num_inference_steps := num_inference_steps r;
     guidance_scale := guidance_scale r; seed := seed r;
     output_format := output_format r; output_quality := output_quality r;
     hf_lora := hf_lora r; lora_scale := lora_scale r;
     disable_safety_checker := disable_safety_checker r |}.

Definition with_seed (s : option Z) (r : Request) : Request :=
  {| prompt := prompt r; aspect_ratio := aspect_ratio r; num_outputs := num_outputs r;
     num_inference_steps := num_inference_steps r;
     guidance_scale := guidance_scale r; seed := s;
     output_format := output_format r; output_quality := output_quality r;
     hf_lora := hf_lora r; lora_scale := lora_scale r;
     disable_safety_checker := disable_safety_checker r |}.

Definition with_output_format (f : str) (r : Request) : Request :=
  {| prompt := prompt r; aspect_ratio := aspect_ratio r; num_outputs := num_outputs r;
     num_inference_steps := num_inference_steps r;
     guidance_scale := guidance_scale r; seed := seed r;
     output_format := f; output_quality := output_quality r;
     hf_lora := hf_lora r; lora_scale := lora_scale r;
     disable_safety_checker := disable_safety_checker r |}.

Definition with_output_quality (q : Z) (r : Request) : Request :=
  {| prompt := prompt r; aspect_ratio := aspect_ratio r; num_outputs := num_outputs r;
     num_inference_steps := num_inference_steps r;
     guidance_scale := guidance_scale r; seed := seed r;
     output_format := output_format r; output_quality := q;
     hf_lora := hf_lora r; lora_scale := lora_scale r;
     disable_safety_checker := disable_safety_checker r |}.

Definition with_hf_lora (l : option str) (r : Request) : Request :=
  {| prompt := prompt r; aspect_ratio := aspect_ratio r; num_outputs := num_outputs r;
     num_inference_steps := num_inference_steps r;
     guidance_scale := guidance_scale r; seed := seed r;
     output_format := output_format r; output_quality := output_quality r;
     hf_lora := l; lora_scale := lora_scale r;
     disable_safety_checker := disable_safety_checker r |}.

Definition with_disable_safety_checker (b : bool) (r : Request) : Request :=
  {| prompt := prompt r; aspect_ratio := aspect_ratio r; num_outputs := num_outputs r;
     num_inference_steps := num_inference_steps r;
     guidance_scale := guidance_scale r; seed := seed r;
     output_format := output_format r; output_quality := output_quality r;
     hf_lora := hf_lora r; lora_scale := lora_scale r;
     disable_safety_checker := b |}.

Example default_request_valid : check_inputs (default_request (lit "a cat")) = true.
Proof. vm_compute. reflexivity. Qed.

Example default_request_run :
  let o := serve toy_ok (default_request (lit "a cat")) (fresh_world toy_ok) in
  res o = Ok tt /\ yielded (trace o) = [lit "/tmp/out-0.webp"].
Proof. vm_compute. split; reflexivity. Qed.

(** * Properties *)

(** ** The matcher computes the language of a regex *)

Section RegexTheory.

Lemma nullable_lang (r : regex) : nullable r = true <-> lang r [].
Proof.
  split.
  - induction r; simpl; intros H; try discriminate.
    + constructor.
    + apply andb_true_iff in H as [H1 H2].
      change (@nil char) with (@nil char ++ []). constructor; auto.
    + apply orb_true_iff in H as [H | H]; [apply lang_alt_l | apply lang_alt_r]; auto.
    + constructor.
  - intros H. remember [] as s eqn:Hs. induction H; simpl; auto; try discriminate.
    + apply app_eq_nil in Hs as [-> ->]. rewrite IHlang1, IHlang2; auto.
    + rewrite IHlang; auto.
    + rewrite IHlang; auto using orb_true_r.
Qed.

Lemma deriv_sound (c : char) (r : regex) (s : str) :
  lang (deriv c r) s -> lang r (c :: s).
Proof.
  revert s. induction r; simpl; intros s H.
  - inversion H.
  - inversion H.
  - destruct (in_set p c) eqn:Hp; inversion H; subst. now constructor.
  - destruct (nullable r1) eqn:Hn.
    + inversion H as [ | | | ? ? ? H' | ? ? ? H' | | ]; subst.
      * inversion H' as [ | | ? ? s1 s2 H1 H2 | | | | ]; subst.
        change (c :: s1 ++ s2) with ((c :: s1) ++ s2). constructor; auto.
      * change (c :: s) with ([] ++ c :: s). constructor; auto.
        now apply nullable_lang.
    + inversion H as [ | | ? ? s1 s2 H1 H2 | | | | ]; subst.
      change (c :: s1 ++ s2) with ((c :: s1) ++ s2). constructor; auto.
  - inversion H; subst; [apply lang_alt_l | apply lang_alt_r]; auto.
  - inversion H as [ | | ? ? s1 s2 H1 H2 | | | | ]; subst.
    change (c :: s1 ++ s2) with ((c :: s1) ++ s2). constructor; auto.
Qed.

Lemma deriv_complete (c : char) (r : regex) (s : str) :
  lang r (c :: s) -> lang (deriv c r) s.
Proof.
  intros H. remember (c :: s) as t eqn:Ht. revert s Ht.
  induction H; intros s' Ht; simpl; try discriminate.
  - injection Ht as -> <-. rewrite H. constructor.
  - destruct s1 as [ | c1 s1].
    + simpl in Ht. subst s2.
      apply nullable_lang in H. rewrite H. apply lang_alt_r. auto.
    + injection Ht as -> <-.
      destruct (nullable r1); [apply lang_alt_l | ]; constructor; auto.
  - apply lang_alt_l; auto.
  - apply lang_alt_r; auto.
  - destruct s1 as [ | c1 s1].
    + simpl in Ht. apply (IHlang2 _ Ht).
    + injection Ht as -> <-. constructor; auto.
Qed.

Lemma fullmatch_lang (r : regex) (s : str) : fullmatch r s = true <-> lang r s.
Proof.
  revert r. induction s as [ | c s IH]; intros r; simpl.
  - apply nullable_lang.
  - rewrite IH. split; [apply deriv_sound | apply deriv_complete].
Qed.

Lemma dead_lang (r : regex) (s : str) : dead r = true -> lang r s -> False.
Proof.
  intros Hd H. induction H; simpl in Hd; try discriminate.
  - apply orb_true_iff in Hd as [Hd | Hd]; auto.
  - apply andb_true_iff in Hd as [Hd _]; auto.
  - apply andb_true_iff in Hd as [_ Hd]; auto.
Qed.

Lemma dead_fullmatch (r : regex) (s : str) : dead r = true -> fullmatch r s = false.
Proof.
  intros Hd. destruct (fullmatch r s) eqn:E; [ | reflexivity].
  apply fullmatch_lang in E. destruct (dead_lang _ _ Hd E).
Qed.

Lemma lang_chars (t s : str) : lang (chars t) s -> s = t.
Proof.
  revert s. induction t as [ | a t IH]; simpl; intros s H.
  - now inversion H.
  - inversion H as [ | | ? ? s1 s2 H1 H2 | | | | ]; subst.
    inversion H1; subst. simpl in *. apply N.eqb_eq in H3 as ->.
    f_equal. auto.
Qed.

End RegexTheory.

(** ** The three reference patterns *)

Section Patterns.

Lemma fullmatch_app (r : regex) (p s : str) :
  fullmatch r (p ++ s) = fullmatch (fold_left (fun q c => deriv c q) p r) s.
Proof.
  revert r. induction p as [ | c p IH]; intros r; simpl; auto.
Qed.

Lemma lang_seq_inv (r1 r2 : regex) (s : str) :
  lang (Seq r1 r2) s -> exists s1 s2, s = s1 ++ s2 /\ lang r1 s1 /\ lang r2 s2.
Proof. intros H. inversion H; subst. eauto. Qed.

Lemma lang_alt_inv (r1 r2 : regex) (s : str) :
  lang (Alt r1 r2) s -> lang r1 s \/ lang r2 s.
Proof. intros H. inversion H; subst; auto. Qed.

Lemma lang_eps_inv (s : str) : lang Eps s -> s = [].
Proof. intros H. now inversion H. Qed.

Lemma lang_one_inv (c : char) (s : str) : lang (Sym (One c)) s -> s = [c].
Proof.
  intros H. inversion H as [ | ? a Hin | | | | | ]; subst.
  simpl in Hin. apply N.eqb_eq in Hin. now subst.
Qed.

(** Every string of a regex that starts with [https?://] starts with
    [http:] or with [https:]. *)
Lemma lang_scheme (r : regex) (s : str) :
  lang (Seq re_scheme r) s ->
  exists t, s = lit "http:" ++ t \/ s = lit "https:" ++ t.
Proof.
  intros H.
  apply lang_seq_inv in H as (s1 & s2 & -> & H1 & _).
  unfold re_scheme in H1.
  apply lang_seq_inv in H1 as (a & b & -> & Ha & Hb).
  apply lang_chars in Ha as ->.
  apply lang_seq_inv in Hb as (c & d & -> & Hc & Hd).
  apply lang_chars in Hd as ->.
  apply lang_alt_inv in Hc as [Hc | Hc].
  - apply lang_one_inv in Hc as ->.
    exists (lit "//" ++ s2). right. reflexivity.
  - apply lang_eps_inv in Hc as ->.
    exists (lit "//" ++ s2). left. reflexivity.
Qed.

Lemma re_match_scheme (r : regex) (d : bool) (s : str) :
  re_match (Pattern (Seq re_scheme r) d) s = true ->
  exists t, s = lit "http:" ++ t \/ s = lit "https:" ++ t.
Proof.
  unfold re_match. simpl. intros H.
  assert (exists q, lang (Seq (Seq re_scheme r) q) s) as [q Hq].
  { destruct d; eexists; apply fullmatch_lang; exact H. }
  apply lang_seq_inv in Hq as (s1 & s2 & -> & H1 & _).
  destruct (lang_scheme _ _ H1) as [t [-> | ->]];
    exists (t ++ s2); [left | right]; now rewrite <- app_assoc.
Qed.

(** A string that starts with [http:] or [https:] is no [owner/name] slug:
    the colon is reached before any slash. *)
Lemma hf_path_not_url (t : str) :
  re_match pat_hf_path (lit "http:" ++ t) = false /\
  re_match pat_hf_path (lit "https:" ++ t) = false.
Proof.
  unfold re_match. simpl dollar. cbv iota.
  split; rewrite fullmatch_app; apply dead_fullmatch; vm_compute; reflexivity.
Qed.

(** The slug pattern shares no string with any of the URL patterns. *)
Lemma hf_path_excludes_urls (s : str) :
  re_match pat_hf_path s = true ->
  re_match pat_hf_url s = false /\
  re_match pat_weight_url s = false /\
  re_match pat_replicate_url s = false.
Proof.
  intros H1.
  assert (forall r d, re_match (Pattern (Seq re_scheme r) d) s = true -> False) as Hno.
  { intros r d H2. destruct (re_match_scheme _ _ _ H2) as [t [-> | ->]];
      destruct (hf_path_not_url t) as [Ha Hb]; congruence. }
  repeat split.
  - destruct (re_match pat_hf_url s) eqn:E; [ | reflexivity]. destruct (Hno _ _ E).
  - destruct (re_match pat_weight_url s) eqn:E; [ | reflexivity]. destruct (Hno _ _ E).
  - destruct (re_match pat_replicate_url s) eqn:E; [ | reflexivity]. destruct (Hno _ _ E).
Qed.

(** The two URL patterns overlap: the order of the tests decides. *)
Example hf_url_also_weight_url :
  let s := lit "https://huggingface.co/owner/name/lora.safetensors" in
  re_match pat_hf_url s = true /\ re_match pat_weight_url s = true.
Proof. vm_compute. split; reflexivity. Qed.

End Patterns.

(** ** Properties of the predictor *)

Section AspectRatio.

Context (X : Externals).

Lemma aspect_ratio_unsupported (s : str) :
  s ∉ aspect_ratio_choices -> aspect_ratio_to_width_height s = None.
Proof.
  intros H. unfold aspect_ratio_to_width_height, aspect_ratios.
  apply not_elem_of_list_to_map_1. simpl.
  intros Hin. apply H. unfold aspect_ratio_choices.
  repeat (apply elem_of_cons in Hin as [-> | Hin]; [set_solver | ]).
  inversion Hin.
Qed.

Lemma aspect_ratio_supported (s : str) :
  s ∈ aspect_ratio_choices -> is_Some (aspect_ratio_to_width_height s).
Proof.
  unfold aspect_ratio_choices. intros Hin.
  repeat (apply elem_of_cons in Hin as [-> | Hin]; [vm_compute; eauto | ]).
  inversion Hin.
Qed.

Lemma choose_seed_spec (r : Request) (w : World X) :
  exists s w' tr,
    choose_seed X r w = MkOut (Ok s) w' tr /\
    attached w' = attached w /\ files w' = files w /\
    (tr = [] \/ tr = [EvUrandom 2]).
Proof.
  unfold choose_seed. destruct (seed r); simpl.
  - eexists _, _, _. repeat split; auto.
  - eexists _, _, _. unfold bind. simpl. repeat split; auto.
Qed.

(** C1. Each of the nine supported aspect ratios resolves to the pair of the
    fixed table.  A string outside the nine choices is not in the table; the
    request that carries it is refused at the boundary with nothing done,
    and [predict] itself stops at the unpacking of line 135, before the
    adapter is touched or any image is generated. *)
Theorem aspect_ratio_resolution (r : Request) (w : World X) :
  aspect_ratio_to_width_height (lit "1:1") = Some (1024, 1024) /\
  aspect_ratio_to_width_height (lit "16:9") = Some (1344, 768) /\
  aspect_ratio_to_width_height (lit "21:9") = Some (1536, 640) /\
  aspect_ratio_to_width_height (lit "3:2") = Some (1216, 832) /\
  aspect_ratio_to_width_height (lit "2:3") = Some (832, 1216) /\
  aspect_ratio_to_width_height (lit "4:5") = Some (896, 1088) /\
  aspect_ratio_to_width_height (lit "5:4") = Some (1088, 896) /\
  aspect_ratio_to_width_height (lit "9:16") = Some (768, 1344) /\
  aspect_ratio_to_width_height (lit "9:21") = Some (640, 1536) /\
  (aspect_ratio r ∉ aspect_ratio_choices ->
     aspect_ratio_to_width_height (aspect_ratio r) = None /\
     serve X r w = MkOut (Raise InputValidationError) w [] /\
     res (predict X r w) = Raise TypeError /\
     generated (trace (predict X r w)) = [] /\
     Forall (fun ev => is_network ev = false) (trace (predict X r w)) /\
     attached (world (predict X r w)) = attached w).
Proof.
  do 9 (split; [now vm_compute | ]).
  intros Hbad. pose proof (aspect_ratio_unsupported _ Hbad) as Hnone.
  split; [exact Hnone | ]. split.
  - unfold serve, check_inputs.
    rewrite (bool_decide_eq_false_2 _ Hbad). reflexivity.
  - destruct (choose_seed_spec r w) as (s & w' & tr & Hs & Ha & _ & Htr).
    unfold predict, prepare, prepare_with, bind, unpack_size. rewrite Hs, Hnone. simpl.
    rewrite app_nil_r.
    repeat split; auto; destruct Htr as [-> | ->]; repeat constructor.
Qed.

End AspectRatio.

Lemma aspect_ratio_resolution_witness :
  let r := with_aspect_ratio (lit "4:3") (default_request (lit "a cat")) in
  (aspect_ratio r ∉ aspect_ratio_choices) /\
  aspect_ratio_to_width_height (aspect_ratio r) = None /\
  serve toy_ok r (fresh_world toy_ok)
    = MkOut (Raise InputValidationError) (fresh_world toy_ok) [].
Proof.
  intros r.
  assert (aspect_ratio r ∉ aspect_ratio_choices) as Hbad.
  { apply (bool_decide_eq_false_1 (aspect_ratio r ∈ aspect_ratio_choices)).
    vm_compute. reflexivity. }
  split; [exact Hbad | ].
  pose proof (aspect_ratio_resolution toy_ok r (fresh_world toy_ok)) as H.
  do 9 apply proj2 in H. specialize (H Hbad).
  split; [apply H | apply H].
Defined.

(** *** The generation loop *)

Section Loop.

Context (X : Externals).

Implicit Types (r : Request) (args : FluxArgs) (w : World X) (tr : list (event X)).

Lemma yielded_app tr1 tr2 : yielded (tr1 ++ tr2) = yielded tr1 ++ yielded tr2.
Proof. apply omap_app. Qed.

Lemma saved_app tr1 tr2 : saved (tr1 ++ tr2) = saved tr1 ++ saved tr2.
Proof. apply omap_app. Qed.

Lemma generated_app tr1 tr2 : generated (tr1 ++ tr2) = generated tr1 ++ generated tr2.
Proof. apply omap_app. Qed.

Lemma flags_app tr1 tr2 : flags (tr1 ++ tr2) = flags tr1 ++ flags tr2.
Proof. apply omap_app. Qed.

Lemma pget_runs_app tr1 tr2 : pget_runs (tr1 ++ tr2) = pget_runs tr1 ++ pget_runs tr2.
Proof. apply omap_app. Qed.

(** One iteration, when the pipeline raises. *)
Lemma generation_loop_raise r args n i g c w :
  flux X (attached w) args g = None ->
  generation_loop X r args (S n) i g c w
  = MkOut (Raise PipelineError) w [EvGenerate i args g].
Proof.
  intros H. simpl. unfold bind, pipe_call, bind. simpl. rewrite H. reflexivity.
Qed.

(** One iteration, when the image is flagged: nothing is written and the
    accepted-count is unchanged. *)
Lemma generation_loop_flagged r args n i g c w img g' :
  flux X (attached w) args g = Some (img, g') ->
  disable_safety_checker r = false ->
  has_nsfw X img = true ->
  generation_loop X r args (S n) i g c w
  = let o := generation_loop X r args n (S i) g' c w in
    MkOut (res o) (world o)
          (EvGenerate i args g :: EvSafetyCheck i true :: trace o).
Proof.
  intros H Hd Hf. simpl. unfold bind, pipe_call, bind, run_safety_checker, bind.
  simpl. rewrite H. simpl. rewrite Hd. simpl. rewrite Hf. simpl.
  destruct (res _); reflexivity.
Qed.

(** One iteration, when the image is accepted: it is saved under the
    accepted-count, yielded, and the count moves on. *)
Lemma generation_loop_accepted r args n i g c w img g' :
  flux X (attached w) args g = Some (img, g') ->
  disable_safety_checker r || negb (has_nsfw X img) = true ->
  generation_loop X r args (S n) i g c w
  = let path := output_path c (output_format r) in
    let w' := set_files (<[path := encode X img path (save_options r)]> (files w)) w in
    let o := generation_loop X r args n (S i) g' (S c) w' in
    MkOut (res o) (world o)
          (EvGenerate i args g ::
           (if disable_safety_checker r then [] else [EvSafetyCheck i false]) ++
           EvSave path img (save_options r) :: EvYield path :: trace o).
Proof.
  intros H Hacc. simpl. unfold bind, pipe_call, bind, run_safety_checker, bind.
  simpl. rewrite H. simpl.
  destruct (disable_safety_checker r); simpl.
  - destruct (res _); reflexivity.
  - simpl in Hacc. apply negb_true_iff in Hacc. rewrite Hacc. simpl.
    destruct (res _); reflexivity.
Qed.

(** The three cases are exhaustive. *)
Lemma generation_loop_cases r args (g : generator X) w :
  flux X (attached w) args g = None \/
  (exists img g', flux X (attached w) args g = Some (img, g') /\
     disable_safety_checker r = false /\ has_nsfw X img = true) \/
  (exists img g', flux X (attached w) args g = Some (img, g') /\
     disable_safety_checker r || negb (has_nsfw X img) = true).
Proof.
  destruct (flux X (attached w) args g) as [[img g'] | ]; [ | now left].
  right. destruct (disable_safety_checker r) eqn:Hd.
  - right. exists img, g'. auto.
  - destruct (has_nsfw X img) eqn:Hf; [left | right]; exists img, g'.
    + auto.
    + rewrite Hf. auto.
Qed.

(** Induction on the number of iterations left, split by the three cases. *)
Ltac loop_induction r args n :=
  let IH := fresh "IH" in
  induction n as [ | n IH]; intros i g c w;
  [ simpl
  | destruct (generation_loop_cases r args g w)
      as [Hnone | [(img & g' & Hflux & Hdis & Hbad) | (img & g' & Hflux & Hacc)]];
    [ rewrite (generation_loop_raise r args n i g c w Hnone)
    | rewrite (generation_loop_flagged r args n i g c w img g' Hflux Hdis Hbad)
    | rewrite (generation_loop_accepted r args n i g c w img g' Hflux Hacc) ];
    cbv zeta; simpl ].

(** The loop only writes files: the adapters and the random source are as
    before. *)
Lemma generation_loop_attached r args n : forall i g c w,
  attached (world (generation_loop X r args n i g c w)) = attached w.
Proof.
  loop_induction r args n; auto.
  rewrite IH. reflexivity.
Qed.

(** The loop raises nothing but the pipeline's own error. *)
Lemma generation_loop_res r args n : forall i g c w e,
  res (generation_loop X r args n i g c w) = Raise e -> e = PipelineError.
Proof.
  loop_induction r args n; intros e He; try discriminate; eauto.
  congruence.
Qed.

(** The files are named by consecutive counts starting at the count the loop
    was entered with. *)
Lemma generation_loop_yielded r args n : forall i g c w,
  let o := generation_loop X r args n i g c w in
  yielded (trace o)
  = List.map (fun k => output_path k (output_format r))
             (seq c (length (yielded (trace o)))).
Proof.
  loop_induction r args n; auto.
  - rewrite yielded_app. simpl.
    replace (yielded (if disable_safety_checker r then [] else [EvSafetyCheck i false]))
      with (@nil str) by (destruct (disable_safety_checker r); reflexivity).
    simpl. f_equal. apply IH.
Qed.

(** Every file written is yielded, in the same order, and is written with the
    options of the request. *)
Lemma generation_loop_saved r args n : forall i g c w,
  let o := generation_loop X r args n i g c w in
  List.map (fun x => fst (fst x)) (saved (trace o)) = yielded (trace o) /\
  Forall (fun x => snd x = save_options r) (saved (trace o)).
Proof.
  loop_induction r args n; auto.
  - rewrite yielded_app, saved_app. simpl.
    replace (yielded (if disable_safety_checker r then [] else [EvSafetyCheck i false]))
      with (@nil str) by (destruct (disable_safety_checker r); reflexivity).
    replace (saved (if disable_safety_checker r then [] else [EvSafetyCheck i false]))
      with (@nil (str * image X * option (Z * bool)))
      by (destruct (disable_safety_checker r); reflexivity).
    simpl. destruct (IH (S i) g' (S c)
      (set_files (<[output_path c (output_format r) :=
          encode X img (output_path c (output_format r)) (save_options r)]> (files w)) w))
      as [H1 H2].
    split; [f_equal; exact H1 | constructor; [reflexivity | exact H2]].
Qed.

(** The count returned is the count at entry plus the number of files
    yielded, and a loop that returns has called the pipeline [n] times. *)
Lemma generation_loop_count r args n : forall i g c w c',
  let o := generation_loop X r args n i g c w in
  res o = Ok c' ->
  c' = (c + length (yielded (trace o)))%nat /\ length (generated (trace o)) = n.
Proof.
  loop_induction r args n; intros c' Hres.
  - injection Hres as <-. split; [lia | reflexivity].
  - discriminate.
  - destruct (IH _ _ _ _ _ Hres) as [-> Hn]. split; [reflexivity | now rewrite Hn].
  - destruct (IH _ _ _ _ _ Hres) as [-> Hn].
    rewrite yielded_app, generated_app.
    destruct (disable_safety_checker r); simpl; rewrite Hn; split; lia.
Qed.

(** At most one pipeline call, one check and one file per iteration; the
    checks sit between the calls and the files. *)
Lemma generation_loop_bounds r args n : forall i g c w,
  let o := generation_loop X r args n i g c w in
  (length (yielded (trace o)) <= length (generated (trace o)) <= n)%nat /\
  (length (flags (trace o)) <= n)%nat.
Proof.
  loop_induction r args n.
  - lia.
  - lia.
  - specialize (IH (S i) g' c w). simpl in IH. lia.
  - rewrite yielded_app, generated_app, flags_app.
    match goal with |- context [generation_loop X r args n ?a ?b ?d ?e] =>
      specialize (IH a b d e) end.
    destruct (disable_safety_checker r); simpl in *; lia.
Qed.

(** With the checker on, the files are the images that were not flagged. *)
Lemma generation_loop_accepted_count r args n : forall i g c w,
  let o := generation_loop X r args n i g c w in
  disable_safety_checker r = false ->
  length (yielded (trace o)) = length (List.filter negb (flags (trace o))).
Proof.
  loop_induction r args n; intros Hd; auto.
  - rewrite Hd. simpl. f_equal. now apply IH.
Qed.

(** With the checker off, no check is made and a loop that returns has
    yielded [n] files. *)
Lemma generation_loop_unchecked r args n : forall i g c w,
  let o := generation_loop X r args n i g c w in
  disable_safety_checker r = true ->
  flags (trace o) = [] /\
  (forall c', res o = Ok c' -> length (yielded (trace o)) = n).
Proof.
  loop_induction r args n; intros Hd.
  - auto.
  - split; [reflexivity | discriminate].
  - congruence.
  - rewrite Hd. simpl.
    match goal with |- context [generation_loop X r args n ?a ?b ?d ?e] =>
      destruct (IH a b d e Hd) as [H1 H2] end.
    split; [exact H1 | intros c' Hc; f_equal; eauto].
Qed.

(** When the pipeline never raises, the loop returns. *)
Lemma generation_loop_total r args n : forall i g c w,
  (forall l a g0, is_Some (flux X l a g0)) ->
  exists c', res (generation_loop X r args n i g c w) = Ok c'.
Proof.
  loop_induction r args n; intros Htot; eauto.
  destruct (Htot (attached w) args g) as [x Hx]. congruence.
Qed.

(** When every check of the loop says "flagged" and there are [n] of them,
    the loop returns the count it was entered with, and writes and yields
    nothing. *)
Lemma generation_loop_all_flagged r args n : forall i g c w,
  let o := generation_loop X r args n i g c w in
  flags (trace o) = replicate n true ->
  res o = Ok c /\ yielded (trace o) = [] /\ saved (trace o) = [] /\
  files (world o) = files w.
Proof.
  loop_induction r args n; intros Hall; auto.
  - discriminate.
  - injection Hall as Hall. destruct (IH _ _ _ _ Hall) as (? & ? & ? & ?). auto.
  - exfalso. rewrite flags_app in Hall.
    match type of Hall with context [generation_loop X r args n ?a ?b ?d ?e] =>
      pose proof (proj2 (generation_loop_bounds r args n a b d e)) as Hb end.
    simpl in Hb.
    destruct (disable_safety_checker r); simpl in Hall.
    + apply (f_equal length) in Hall. simpl in Hall.
      rewrite length_replicate in Hall. lia.
    + discriminate.
Qed.

End Loop.

(** *** The steps before and after the loop *)

Section Phases.

Context (X : Externals).

Implicit Types (r : Request) (w : World X) (tr : list (event X)).

(** Every event of the statement satisfies [P]. *)
Definition emits_only {A} (P : event X -> bool) (m : M X A) : Prop :=
  forall w, Forall (fun ev => P ev = true) (trace (m w)).

Lemma emits_only_ret {A} P (a : A) : emits_only P (ret X a).
Proof. intros w. constructor. Qed.

Lemma emits_only_raise {A} P e : emits_only P (@raise X A e).
Proof. intros w. constructor. Qed.

Lemma emits_only_bind {A B} P (m : M X A) (k : A -> M X B) :
  emits_only P m -> (forall a, emits_only P (k a)) -> emits_only P (bind X m k).
Proof.
  intros Hm Hk w. unfold bind. specialize (Hm w).
  destruct (res (m w)); simpl; auto.
  apply Forall_app. split; auto. apply Hk.
Qed.

Lemma emits_only_emit P ev : P ev = true -> emits_only P (emit X ev).
Proof. intros H w. simpl. auto. Qed.

Lemma emits_only_get_world P : emits_only P (get_world X).
Proof. intros w. constructor. Qed.

(** The events of the loop, as opposed to those of the steps around it. *)
Definition is_loop_event (ev : event X) : bool :=
  match ev with
  | EvGenerate _ _ _ | EvSafetyCheck _ _ | EvSave _ _ _ | EvYield _ => true
  | _ => false
  end.

Definition not_loop_event (ev : event X) : bool := negb (is_loop_event ev).

Lemma no_loop_events tr :
  Forall (fun ev => not_loop_event ev = true) tr ->
  yielded tr = [] /\ saved tr = [] /\ generated tr = [] /\ flags tr = [].
Proof.
  induction 1 as [ | ev tr Hev _ IH]; [auto | ].
  destruct IH as (? & ? & ? & ?).
  destruct ev; try discriminate; simpl; auto.
Qed.

Lemma download_weights_only (P : event X -> bool) url dest file :
  (forall x u d c, P (EvPget x u d c) = true) ->
  emits_only P (download_weights X url dest file).
Proof.
  intros HP w. unfold download_weights, check_call_pget.
  destruct file; simpl; destruct (pget X _ url dest (files w)); simpl; auto.
Qed.

Lemma load_lora_weights_only (P : event X -> bool) src :
  P (EvLoadLora src) = true -> emits_only P (load_lora_weights X src).
Proof.
  intros HP w. unfold load_lora_weights. destruct (fetch_lora X src); simpl; auto.
Qed.

Lemma os_remove_only (P : event X -> bool) path :
  P (EvRemove path) = true -> emits_only P (os_remove X path).
Proof.
  intros HP w. unfold os_remove. destruct (files w !! path); simpl; auto.
Qed.

Lemma load_downloaded_lora_only (P : event X -> bool) is_tar path :
  (forall p, P (EvExtract p) = true) ->
  (forall n c, P (EvLoadLora (LocalWeights n c)) = true) ->
  emits_only P (load_downloaded_lora X is_tar path).
Proof.
  intros HE HL. unfold load_downloaded_lora. destruct is_tar.
  - apply emits_only_bind; [apply emits_only_get_world | intros w0].
    destruct (files w0 !! _); [ | apply emits_only_raise].
    apply emits_only_bind; [now apply emits_only_emit | intros _].
    destruct (tar_walk X b); [ | apply emits_only_raise].
    destruct (List.filter _ l) as [ | [name content] ?];
      [apply emits_only_raise | now apply load_lora_weights_only].
  - unfold load_lora_file.
    apply emits_only_bind; [apply emits_only_get_world | intros w0].
    destruct (files w0 !! _);
      [now apply load_lora_weights_only | apply emits_only_raise].
Qed.

Lemma load_lora_from_url_only (P : event X -> bool) ref :
  (forall p, P (EvRemove p) = true) ->
  (forall x u d c, P (EvPget x u d c) = true) ->
  (forall p, P (EvExtract p) = true) ->
  (forall n c, P (EvLoadLora (LocalWeights n c)) = true) ->
  emits_only P (load_lora_from_url X ref).
Proof.
  intros HR HP HE HL. unfold load_lora_from_url.
  apply emits_only_bind; [intros w; constructor | intros present].
  apply emits_only_bind.
  { destruct present; [now apply os_remove_only | apply emits_only_ret]. }
  intros _. apply emits_only_bind; [now apply download_weights_only | intros _].
  now apply load_downloaded_lora_only.
Qed.

Lemma load_lora_from_url_quiet ref : emits_only not_loop_event (load_lora_from_url X ref).
Proof. now apply load_lora_from_url_only. Qed.

Lemma resolve_adapter_quiet r : emits_only not_loop_event (resolve_adapter X r).
Proof.
  unfold resolve_adapter. destruct (hf_lora r) as [ref | ].
  - apply emits_only_bind; [ | intros; apply emits_only_ret].
    destruct (re_match pat_hf_path ref); [now apply load_lora_weights_only | ].
    destruct (re_match pat_hf_url ref).
    { destruct (hf_url_slug ref);
        [now apply load_lora_weights_only | apply emits_only_raise]. }
    destruct (_ || _); [apply load_lora_from_url_quiet | apply emits_only_raise].
  - apply emits_only_bind; [ | intros; apply emits_only_ret].
    intros w. simpl. auto.
Qed.

Lemma prepare_quiet r : emits_only not_loop_event (prepare X r).
Proof.
  unfold prepare.
  apply emits_only_bind.
  { unfold choose_seed. destruct (seed r); [apply emits_only_ret | ].
    apply emits_only_bind; [ | intros; apply emits_only_ret].
    intros w. simpl. auto. }
  intros s. unfold prepare_with. apply emits_only_bind.
  { unfold unpack_size. destruct (aspect_ratio_to_width_height _);
      [apply emits_only_ret | apply emits_only_raise]. }
  intros wh. apply emits_only_bind; [apply resolve_adapter_quiet | ].
  intros jak. apply emits_only_ret.
Qed.

(** [predict] is [prepare] followed by [generate]. *)
Lemma predict_raise r w e :
  res (prepare X r w) = Raise e ->
  predict X r w = MkOut (Raise e) (world (prepare X r w)) (trace (prepare X r w)).
Proof. intros H. unfold predict, bind. now rewrite H. Qed.

Lemma predict_ok r w p :
  res (prepare X r w) = Ok p ->
  predict X r w
  = let o := generate X r p (world (prepare X r w)) in
    MkOut (res o) (world o) (trace (prepare X r w) ++ trace o).
Proof. intros H. unfold predict, bind. now rewrite H. Qed.

(** [generate] when the loop raises: nothing after the loop runs. *)
Lemma generate_raise r p w e :
  res (generation_loop X r (fst p) (Z.to_nat (num_outputs r)) 0 (snd p) 0 w) = Raise e ->
  generate X r p w
  = let l := generation_loop X r (fst p) (Z.to_nat (num_outputs r)) 0 (snd p) 0 w in
    MkOut (Raise e) (world l) (trace l).
Proof. intros H. unfold generate, bind. now rewrite H. Qed.

(** [generate] when the loop returns: the adapter of the request is
    unloaded, then the count is checked. *)
Lemma generate_ok r p w c :
  res (generation_loop X r (fst p) (Z.to_nat (num_outputs r)) 0 (snd p) 0 w) = Ok c ->
  generate X r p w
  = let l := generation_loop X r (fst p) (Z.to_nat (num_outputs r)) 0 (snd p) 0 w in
    MkOut (if (c =? 0)%nat then Raise (PyException all_nsfw_msg) else Ok tt)
          (if bool_decide (is_Some (hf_lora r)) then set_attached [] (world l) else world l)
          (trace l ++ if bool_decide (is_Some (hf_lora r)) then [EvUnloadLora] else []).
Proof.
  intros H. unfold generate, bind. rewrite H. cbv zeta.
  destruct (bool_decide (is_Some (hf_lora r))); simpl;
    destruct (c =? 0)%nat; simpl; rewrite ?app_nil_r; reflexivity.
Qed.

End Phases.

(** *** Requests in which every image is flagged; file naming *)

Section Outputs.

Context (X : Externals).

Implicit Types (r : Request) (w : World X).

(** The run of a request whose checks all say "flagged", one per requested
    output. *)
Lemma all_flagged_run r w :
  1 <= num_outputs r ->
  flags (trace (predict X r w)) = replicate (Z.to_nat (num_outputs r)) true ->
  exists p,
    res (prepare X r w) = Ok p /\
    res (predict X r w) = Raise (PyException all_nsfw_msg) /\
    yielded (trace (predict X r w)) = [] /\
    saved (trace (predict X r w)) = [] /\
    files (world (predict X r w)) = files (world (prepare X r w)) /\
    (is_Some (hf_lora r) ->
       attached (world (predict X r w)) = [] /\
       last (trace (predict X r w)) = Some EvUnloadLora).
Proof.
  intros HN Hall.
  destruct (no_loop_events X _ (prepare_quiet X r w)) as (Hy & Hs & _ & Hf).
  destruct (res (prepare X r w)) as [p | e] eqn:Hp.
  2:{ rewrite (predict_raise X r w e Hp) in Hall. simpl in Hall.
      rewrite Hf in Hall. destruct (Z.to_nat (num_outputs r)) eqn:E; [lia | discriminate]. }
  exists p. split; [reflexivity | ].
  rewrite (predict_ok X r w p Hp) in *. cbv zeta in *. simpl in *.
  rewrite flags_app, Hf in Hall. simpl in Hall.
  rewrite yielded_app, saved_app, Hy, Hs. simpl.
  set (w1 := world (prepare X r w)) in *.
  set (n := Z.to_nat (num_outputs r)) in *.
  assert (flags (trace (generation_loop X r (fst p) n 0 (snd p) 0 w1)) = replicate n true) as Hloop.
  { destruct (res (generation_loop X r (fst p) n 0 (snd p) 0 w1)) as [c | e] eqn:Hl.
    - rewrite (generate_ok X r p w1 c Hl) in Hall. simpl in Hall.
      rewrite flags_app in Hall.
      destruct (bool_decide (is_Some (hf_lora r))); simpl in Hall;
        rewrite app_nil_r in Hall; exact Hall.
    - rewrite (generate_raise X r p w1 e Hl) in Hall. exact Hall. }
  destruct (generation_loop_all_flagged X r (fst p) n 0 (snd p) 0 w1 Hloop)
    as (Hres & Hyl & Hsl & Hfl).
  rewrite (generate_ok X r p w1 0%nat Hres). simpl. fold n.
  rewrite yielded_app, saved_app, Hyl, Hsl.
  repeat split.
  - destruct (bool_decide (is_Some (hf_lora r))); reflexivity.
  - destruct (bool_decide (is_Some (hf_lora r))); reflexivity.
  - destruct (bool_decide (is_Some (hf_lora r))); simpl; exact Hfl.
  - rewrite (bool_decide_eq_true_2 _ H). reflexivity.
  - rewrite (bool_decide_eq_true_2 _ H). rewrite app_assoc. apply last_snoc.
Qed.

(** C3. When each of the N requested images is checked and flagged, the
    request ends with the all-images-flagged exception, not with an empty
    result, and no output file is written or yielded. *)
Theorem all_flagged_fails r w :
  1 <= num_outputs r ->
  flags (trace (predict X r w)) = replicate (Z.to_nat (num_outputs r)) true ->
  res (predict X r w) = Raise (PyException all_nsfw_msg) /\
  saved (trace (predict X r w)) = [] /\
  yielded (trace (predict X r w)) = [] /\
  files (world (predict X r w)) = files (world (prepare X r w)).
Proof.
  intros HN Hall. destruct (all_flagged_run r w HN Hall) as (p & _ & ? & ? & ? & ? & _).
  auto.
Qed.

(** C10. In such a request, when it names an adapter, the last thing done
    before the exception is the unloading of the adapter weights: the
    pipeline is left with no adapter attached. *)
Theorem all_flagged_unloads r w :
  1 <= num_outputs r ->
  is_Some (hf_lora r) ->
  flags (trace (predict X r w)) = replicate (Z.to_nat (num_outputs r)) true ->
  res (predict X r w) = Raise (PyException all_nsfw_msg) /\
  last (trace (predict X r w)) = Some EvUnloadLora /\
  attached (world (predict X r w)) = [].
Proof.
  intros HN Hl Hall. destruct (all_flagged_run r w HN Hall) as (p & _ & ? & _ & _ & _ & Hu).
  destruct (Hu Hl). auto.
Qed.

End Outputs.

Definition toy_all_flagged : Externals := toy (fun _ => false) (fun _ => true).

Lemma all_flagged_fails_witness :
  let r := with_num_outputs 2 (default_request (lit "a cat")) in
  let o := predict toy_all_flagged r (fresh_world toy_all_flagged) in
  1 <= num_outputs r /\
  flags (trace o) = replicate (Z.to_nat (num_outputs r)) true /\
  generated (trace o) = [0; 1]%nat /\
  res o = Raise (PyException all_nsfw_msg) /\
  saved (trace o) = [] /\
  yielded (trace o) = [].
Proof.
  intros r o.
  assert (1 <= num_outputs r) as HN by (vm_compute; discriminate).
  assert (flags (trace o) = replicate (Z.to_nat (num_outputs r)) true) as Hall
    by (vm_compute; reflexivity).
  pose proof (all_flagged_fails toy_all_flagged r (fresh_world toy_all_flagged) HN Hall)
    as (H1 & H2 & H3 & _).
  repeat split; assumption.
Defined.

Lemma all_flagged_unloads_witness :
  let r := with_hf_lora (Some (lit "owner/name")) (default_request (lit "a cat")) in
  let o := predict toy_all_flagged r (fresh_world toy_all_flagged) in
  1 <= num_outputs r /\
  is_Some (hf_lora r) /\
  flags (trace o) = replicate (Z.to_nat (num_outputs r)) true /\
  res o = Raise (PyException all_nsfw_msg) /\
  last (trace o) = Some EvUnloadLora /\
  attached (world o) = [].
Proof.
  intros r o.
  assert (1 <= num_outputs r) as HN by (vm_compute; discriminate).
  assert (is_Some (hf_lora r)) as Hl by (simpl; eauto).
  assert (flags (trace o) = replicate (Z.to_nat (num_outputs r)) true) as Hall
    by (vm_compute; reflexivity).
  pose proof (all_flagged_unloads toy_all_flagged r (fresh_world toy_all_flagged) HN Hl Hall)
    as (H1 & H2 & H3).
  repeat split; assumption.
Defined.

Section Naming.

Context (X : Externals).

Implicit Types (r : Request) (w : World X).

(** What [predict] yields and saves is what its loop yields and saves. *)
Lemma predict_loop_trace r w :
  (exists e, res (prepare X r w) = Raise e /\
     yielded (trace (predict X r w)) = [] /\ saved (trace (predict X r w)) = [] /\
     flags (trace (predict X r w)) = []) \/
  (exists p, res (prepare X r w) = Ok p /\
     let l := generation_loop X r (fst p) (Z.to_nat (num_outputs r)) 0 (snd p) 0
                (world (prepare X r w)) in
     yielded (trace (predict X r w)) = yielded (trace l) /\
     saved (trace (predict X r w)) = saved (trace l) /\
     flags (trace (predict X r w)) = flags (trace l) /\
     (forall c, res l = Ok c ->
        res (predict X r w)
        = if (c =? 0)%nat then Raise (PyException all_nsfw_msg) else Ok tt) /\
     (forall e, res l = Raise e -> res (predict X r w) = Raise e)).
Proof.
  destruct (no_loop_events X _ (prepare_quiet X r w)) as (Hy & Hs & _ & Hf).
  destruct (res (prepare X r w)) as [p | e] eqn:Hp.
  - right. exists p. split; [reflexivity | ]. cbv zeta.
    rewrite (predict_ok X r w p Hp). cbv zeta. simpl.
    rewrite yielded_app, saved_app, flags_app, Hy, Hs, Hf. simpl.
    destruct (res (generation_loop X r (fst p) (Z.to_nat (num_outputs r)) 0 (snd p) 0
                     (world (prepare X r w)))) as [c | e] eqn:Hl.
    + rewrite (generate_ok X r p _ c Hl). simpl.
      rewrite yielded_app, saved_app, flags_app.
      destruct (bool_decide (is_Some (hf_lora r))); simpl; rewrite !app_nil_r;
        repeat split; auto; try congruence; intros c0 [= <-]; reflexivity.
    + rewrite (generate_raise X r p _ e Hl). simpl.
      repeat split; auto; congruence.
  - left. exists e. rewrite (predict_raise X r w e Hp). simpl. auto.
Qed.

(** C4. The files a request yields are named [/tmp/out-0], [/tmp/out-1], ...
    in order, without a gap, whatever was flagged before them; they are the
    files written; there are at most N of them.  With the checker on their
    number is the number of checks that did not flag.  With the checker off,
    once the steps before the loop have succeeded and provided the pipeline
    does not raise, the request yields exactly the N names of index 0 to
    N-1 and (for N >= 1) returns normally; and whatever the pipeline, a
    request that returns normally has yielded exactly these N names. *)
Theorem output_files_sequential r w :
  let o := predict X r w in
  let name k := output_path k (output_format r) in
  yielded (trace o) = List.map name (seq 0 (length (yielded (trace o)))) /\
  List.map (fun x => fst (fst x)) (saved (trace o)) = yielded (trace o) /\
  (length (yielded (trace o)) <= Z.to_nat (num_outputs r))%nat /\
  (disable_safety_checker r = false ->
     length (yielded (trace o)) = length (List.filter negb (flags (trace o)))) /\
  (disable_safety_checker r = true ->
     res o = Ok tt ->
     yielded (trace o) = List.map name (seq 0 (Z.to_nat (num_outputs r)))) /\
  (disable_safety_checker r = true ->
     (forall l a g, is_Some (flux X l a g)) ->
     forall p, res (prepare X r w) = Ok p ->
     yielded (trace o) = List.map name (seq 0 (Z.to_nat (num_outputs r))) /\
     (1 <= num_outputs r -> res o = Ok tt)).
Proof.
  cbv zeta.
  destruct (predict_loop_trace r w)
    as [(e & He & Hy & Hs & Hf) | (p & Hp & Hy & Hs & Hf & Hok & Herr)].
  - rewrite Hy, Hs, Hf. simpl.
    split; [reflexivity | ]. split; [reflexivity | ]. split; [lia | ].
    split; [reflexivity | ].
    split; [intros _ Hok; rewrite (predict_raise X r w e He) in Hok; discriminate | ].
    intros _ _ p Hp. congruence.
  - cbv zeta in *. rewrite Hy, Hs, Hf.
    set (l := generation_loop X r (fst p) (Z.to_nat (num_outputs r)) 0 (snd p) 0
                (world (prepare X r w))) in *.
    split; [apply generation_loop_yielded | ].
    split; [apply generation_loop_saved | ].
    split.
    { pose proof (generation_loop_bounds X r (fst p) (Z.to_nat (num_outputs r))
                    0%nat (snd p) 0%nat (world (prepare X r w))) as Hb.
      fold l in Hb. simpl in Hb. lia. }
    split; [apply generation_loop_accepted_count | ].
    split.
    { intros Hd Hres.
      destruct (res l) as [c | e] eqn:Hl.
      - pose proof (proj2 (generation_loop_unchecked X r (fst p) _ 0%nat (snd p) 0%nat
                             (world (prepare X r w)) Hd) c Hl) as Hlen.
        fold l in Hlen. rewrite <- Hlen. apply generation_loop_yielded.
      - rewrite (Herr e eq_refl) in Hres. discriminate. }
    intros Hd Htot _ _.
    destruct (generation_loop_total X r (fst p) (Z.to_nat (num_outputs r)) 0%nat (snd p)
                0%nat (world (prepare X r w)) Htot) as [c Hc].
    fold l in Hc.
    pose proof (proj2 (generation_loop_unchecked X r (fst p) _ 0%nat (snd p) 0%nat
                         (world (prepare X r w)) Hd) c Hc) as Hlen.
    fold l in Hlen.
    pose proof (generation_loop_count X r (fst p) _ 0%nat (snd p) 0%nat
                  (world (prepare X r w)) c Hc) as [Hcount _].
    fold l in Hcount.
    split.
    + rewrite <- Hlen. apply generation_loop_yielded.
    + intros HN. rewrite (Hok c Hc).
      destruct (c =? 0)%nat eqn:E; [ | reflexivity].
      apply Nat.eqb_eq in E. lia.
Qed.

End Naming.

(** A flagged image takes no file name: when the first of two images is
    flagged, the second, of generation index 1, is written as [out-0]. *)
Example flagged_image_takes_no_name :
  let X := toy (fun _ => false) (fun img => img =? 70) in
  let r := with_seed (Some 7) (with_num_outputs 2 (default_request (lit "a cat"))) in
  let o := predict X r (fresh_world X) in
  flags (trace o) = [true; false] /\
  saved (trace o) = [(lit "/tmp/out-0.webp", 80, Some (80, true))] /\
  yielded (trace o) = [lit "/tmp/out-0.webp"] /\
  res o = Ok tt.
Proof. vm_compute. repeat split; reflexivity. Qed.

Lemma output_files_sequential_witness :
  let r := with_disable_safety_checker true
             (with_num_outputs 3 (default_request (lit "a cat"))) in
  let o := predict toy_all_flagged r (fresh_world toy_all_flagged) in
  disable_safety_checker r = true /\
  yielded (trace o)
  = [lit "/tmp/out-0.webp"; lit "/tmp/out-1.webp"; lit "/tmp/out-2.webp"] /\
  res o = Ok tt.
Proof.
  intros r o.
  pose proof (output_files_sequential toy_all_flagged r (fresh_world toy_all_flagged))
    as (_ & _ & _ & _ & _ & H).
  assert (disable_safety_checker r = true) as Hd by reflexivity.
  assert (forall l a g, is_Some (flux toy_all_flagged l a g)) as Htot
    by (intros; simpl; eauto).
  assert (exists p, res (prepare toy_all_flagged r (fresh_world toy_all_flagged)) = Ok p)
    as [p Hp] by (vm_compute; eauto).
  destruct (H Hd Htot p Hp) as [Hy Hres].
  split; [exact Hd | ]. split; [exact Hy | ].
  apply Hres. vm_compute. discriminate.
Defined.

(** *** The adapters attached to the pipeline *)

Section Adapters.

Context (X : Externals).

Implicit Types (r : Request) (w : World X).

(** The statement attaches at most [k] adapters more than it found. *)
Definition attaches_at_most {A} (k : nat) (m : M X A) : Prop :=
  forall w, (length (attached (world (m w))) <= length (attached w) + k)%nat.

Lemma attaches_bind {A B} k1 k2 (m : M X A) (f : A -> M X B) :
  attaches_at_most k1 m -> (forall a, attaches_at_most k2 (f a)) ->
  attaches_at_most (k1 + k2) (bind X m f).
Proof.
  intros Hm Hf w. unfold bind. specialize (Hm w).
  destruct (res (m w)) as [a | e]; simpl; [ | lia].
  specialize (Hf a (world (m w))). lia.
Qed.

Lemma attaches_pure {A} (m : M X A) :
  (forall w, attached (world (m w)) = attached w) -> attaches_at_most 0 m.
Proof. intros H w. rewrite H. lia. Qed.

Lemma attaches_load src : attaches_at_most 1 (load_lora_weights X src).
Proof.
  intros w. unfold load_lora_weights.
  destruct (fetch_lora X src); simpl; rewrite ?length_app; simpl; lia.
Qed.

Lemma download_weights_attached url dest file w :
  attached (world (download_weights X url dest file w)) = attached w.
Proof.
  unfold download_weights, check_call_pget.
  destruct file; simpl; destruct (pget X _ url dest (files w)); reflexivity.
Qed.

Lemma os_remove_attached path w : attached (world (os_remove X path w)) = attached w.
Proof. unfold os_remove. destruct (files w !! path); reflexivity. Qed.

Lemma attaches_load_from_url ref : attaches_at_most 1 (load_lora_from_url X ref).
Proof.
  unfold load_lora_from_url.
  apply (attaches_bind 0 1); [now apply attaches_pure | intros present].
  apply (attaches_bind 0 1).
  { apply attaches_pure. intros w.
    destruct present; [apply os_remove_attached | reflexivity]. }
  intros _. apply (attaches_bind 0 1).
  { apply attaches_pure. intros w. apply download_weights_attached. }
  intros _. unfold load_downloaded_lora. destruct (is_tar_reference ref).
  - apply (attaches_bind 0 1); [now apply attaches_pure | intros w0].
    destruct (files w0 !! _); [ | intros w; simpl; lia].
    apply (attaches_bind 0 1); [now apply attaches_pure | intros _].
    destruct (tar_walk X b); [ | intros w; simpl; lia].
    destruct (List.filter _ l) as [ | [name content] ?];
      [intros w; simpl; lia | apply attaches_load].
  - unfold load_lora_file.
    apply (attaches_bind 0 1); [now apply attaches_pure | intros w0].
    destruct (files w0 !! _); [apply attaches_load | intros w; simpl; lia].
Qed.

Lemma attaches_resolve r : attaches_at_most 1 (resolve_adapter X r).
Proof.
  unfold resolve_adapter. destruct (hf_lora r) as [ref | ].
  - apply (attaches_bind 1 0); [ | intros; now apply attaches_pure].
    destruct (re_match pat_hf_path ref); [apply attaches_load | ].
    destruct (re_match pat_hf_url ref).
    { destruct (hf_url_slug ref); [apply attaches_load | intros w; simpl; lia]. }
    destruct (_ || _); [apply attaches_load_from_url | intros w; simpl; lia].
  - intros w. simpl. lia.
Qed.

Lemma attaches_prepare r : attaches_at_most 1 (prepare X r).
Proof.
  unfold prepare.
  apply (attaches_bind 0 1).
  { apply attaches_pure. intros w.
    destruct (choose_seed_spec X r w) as (s & w' & tr & -> & Ha & _). exact Ha. }
  intros s. unfold prepare_with. apply (attaches_bind 0 1).
  { apply attaches_pure. intros w. unfold unpack_size.
    destruct (aspect_ratio_to_width_height _); reflexivity. }
  intros wh. apply (attaches_bind 1 0); [apply attaches_resolve | ].
  intros jak. now apply attaches_pure.
Qed.

(** The exceptions of the statement all satisfy [Q]. *)
Definition raises_only {A} (Q : exn -> Prop) (m : M X A) : Prop :=
  forall w e, res (m w) = Raise e -> Q e.

Lemma raises_bind {A B} Q (m : M X A) (f : A -> M X B) :
  raises_only Q m -> (forall a, raises_only Q (f a)) -> raises_only Q (bind X m f).
Proof.
  intros Hm Hf w e. unfold bind.
  destruct (res (m w)) as [a | e'] eqn:E; simpl.
  - apply Hf.
  - intros [= <-]. eauto.
Qed.

Lemma raises_never {A} Q (m : M X A) :
  (forall w, exists a, res (m w) = Ok a) -> raises_only Q m.
Proof. intros H w e He. destruct (H w) as [a Ha]. congruence. Qed.

Lemma raises_raise {A} (Q : exn -> Prop) e : Q e -> raises_only Q (@raise X A e).
Proof. intros H w e' [= <-]. exact H. Qed.

(** The exceptions raised before the loop: never the all-images one. *)
Definition prepare_exn (e : exn) : Prop :=
  match e with
  | PyException msg => msg = invalid_hf_lora_msg \/ msg = no_safetensors_msg
  | PipelineError | InputValidationError => False
  | _ => True
  end.

Lemma raises_load src : raises_only prepare_exn (load_lora_weights X src).
Proof.
  intros w e. unfold load_lora_weights.
  destruct (fetch_lora X src); simpl; intros [= <-]. exact I.
Qed.

Lemma raises_load_from_url ref : raises_only prepare_exn (load_lora_from_url X ref).
Proof.
  unfold load_lora_from_url.
  apply raises_bind; [apply raises_never; intros w; simpl; eauto | intros present].
  apply raises_bind.
  { destruct present; [ | apply raises_never; intros w; simpl; eauto].
    intros w e. unfold os_remove. destruct (files w !! _); simpl; intros [= <-]. exact I. }
  intros _. apply raises_bind.
  { intros w e. unfold download_weights, check_call_pget. simpl.
    destruct (pget X _ _ _ _) as [code fs]. simpl.
    destruct (code =? 0); intros [= <-]. exact I. }
  intros _. unfold load_downloaded_lora. destruct (is_tar_reference ref).
  - apply raises_bind; [apply raises_never; intros w; simpl; eauto | intros w0].
    destruct (files w0 !! _); [ | now apply raises_raise].
    apply raises_bind; [apply raises_never; intros w; simpl; eauto | intros _].
    destruct (tar_walk X b); [ | now apply raises_raise].
    destruct (List.filter _ l) as [ | [name content] ?];
      [apply raises_raise; simpl; auto | apply raises_load].
  - unfold load_lora_file.
    apply raises_bind; [apply raises_never; intros w; simpl; eauto | intros w0].
    destruct (files w0 !! _); [apply raises_load | now apply raises_raise].
Qed.

Lemma raises_prepare r : raises_only prepare_exn (prepare X r).
Proof.
  unfold prepare.
  apply raises_bind.
  { apply raises_never. intros w.
    destruct (choose_seed_spec X r w) as (s & w' & tr & -> & _). simpl. eauto. }
  intros s. unfold prepare_with. apply raises_bind.
  { unfold unpack_size. destruct (aspect_ratio_to_width_height _);
      [apply raises_never; intros w; simpl; eauto | now apply raises_raise]. }
  intros wh. apply raises_bind; [ | intros; apply raises_never; intros w; simpl; eauto].
  unfold resolve_adapter. destruct (hf_lora r) as [ref | ].
  - apply raises_bind; [ | intros; apply raises_never; intros w; simpl; eauto].
    destruct (re_match pat_hf_path ref); [apply raises_load | ].
    destruct (re_match pat_hf_url ref).
    { destruct (hf_url_slug ref); [apply raises_load | now apply raises_raise]. }
    destruct (_ || _); [apply raises_load_from_url | apply raises_raise; simpl; auto].
  - apply raises_never. intros w. simpl. eauto.
Qed.

(** Without a reference, and with a supported aspect ratio, the steps before
    the loop succeed and leave no adapter attached. *)
Lemma prepare_no_adapter r w :
  hf_lora r = None ->
  is_Some (aspect_ratio_to_width_height (aspect_ratio r)) ->
  exists p, res (prepare X r w) = Ok p /\ attached (world (prepare X r w)) = [].
Proof.
  intros Hn [wh Hwh].
  destruct (choose_seed_spec X r w) as (s & w' & tr & Hs & _).
  unfold prepare, prepare_with, bind, unpack_size, resolve_adapter, bind.
  rewrite Hs, Hwh, Hn. simpl. eauto.
Qed.

Lemma prepare_no_adapter_ok r w p :
  hf_lora r = None -> res (prepare X r w) = Ok p ->
  attached (world (prepare X r w)) = [].
Proof.
  intros Hn Hp.
  destruct (aspect_ratio_to_width_height (aspect_ratio r)) as [wh | ] eqn:Hwh.
  - destruct (prepare_no_adapter r w Hn) as (p' & _ & Ha); [rewrite Hwh; eauto | exact Ha].
  - exfalso. destruct (choose_seed_spec X r w) as (s & w' & tr & Hs & _).
    unfold prepare, prepare_with, bind, unpack_size in Hp. rewrite Hs, Hwh in Hp. discriminate.
Qed.

End Adapters.

Section Lifecycle.

Context (X : Externals).

Implicit Types (r : Request) (w : World X).

Lemma check_inputs_aspect_ratio r :
  check_inputs r = true -> is_Some (aspect_ratio_to_width_height (aspect_ratio r)).
Proof.
  unfold check_inputs. intros H.
  repeat (apply andb_true_iff in H as [H _]).
  apply bool_decide_eq_true_1 in H. now apply aspect_ratio_supported.
Qed.

Lemma all_nsfw_msg_fresh e :
  prepare_exn e -> e = PyException all_nsfw_msg -> False.
Proof.
  intros He ->. simpl in He. destruct He as [He | He]; vm_compute in He; discriminate.
Qed.

(** How a request ends, and with which adapters attached. *)
Lemma predict_final r w :
  let o := predict X r w in
  let w1 := world (prepare X r w) in
  (exists e, res (prepare X r w) = Raise e /\ res o = Raise e /\ prepare_exn e /\
     attached (world o) = attached w1) \/
  (exists p, res (prepare X r w) = Ok p /\
     ((res o = Raise PipelineError /\ attached (world o) = attached w1) \/
      ((res o = Ok tt \/ res o = Raise (PyException all_nsfw_msg)) /\
       attached (world o) = if bool_decide (is_Some (hf_lora r)) then [] else attached w1))).
Proof.
  cbv zeta. destruct (res (prepare X r w)) as [p | e] eqn:Hp.
  - right. exists p. split; [reflexivity | ].
    rewrite (predict_ok X r w p Hp). cbv zeta. simpl.
    pose proof (generation_loop_attached X r (fst p) (Z.to_nat (num_outputs r)) 0%nat
                  (snd p) 0%nat (world (prepare X r w))) as Hatt.
    destruct (res (generation_loop X r (fst p) (Z.to_nat (num_outputs r)) 0 (snd p) 0
                     (world (prepare X r w)))) as [c | e] eqn:Hl.
    + right. rewrite (generate_ok X r p _ c Hl). simpl. split.
      * destruct (c =? 0)%nat; auto.
      * destruct (bool_decide (is_Some (hf_lora r))); [reflexivity | exact Hatt].
    + left. rewrite (generate_raise X r p _ e Hl). simpl.
      rewrite (generation_loop_res X r _ _ _ _ _ _ e Hl). auto.
  - left. exists e. rewrite (predict_raise X r w e Hp). simpl.
    repeat split; auto. exact (raises_prepare X r w e Hp).
Qed.

(** C5, as the code has it.  A request attaches at most one adapter: from a
    pipeline with none attached there is at most one attached before the
    loop and at the end.  When the loop has run to its end, that is when the
    request returns normally or raises the all-images-flagged exception, no
    adapter is left attached.  A request without a reference (and with a
    supported aspect ratio, as every request let in by the input checks has)
    unloads whatever was attached before it generates, and ends with nothing
    attached. *)
Theorem adapter_lifecycle r w :
  let o := predict X r w in
  (attached w = [] ->
     (length (attached (world (prepare X r w))) <= 1)%nat /\
     (length (attached (world o)) <= 1)%nat) /\
  (res o = Ok tt \/ res o = Raise (PyException all_nsfw_msg) ->
     attached (world o) = []) /\
  (hf_lora r = None ->
     is_Some (aspect_ratio_to_width_height (aspect_ratio r)) ->
     attached (world (prepare X r w)) = [] /\ attached (world o) = []) /\
  (hf_lora r = None -> check_inputs r = true ->
     attached (world (serve X r w)) = []).
Proof.
  cbv zeta. pose proof (predict_final r w) as Hfin. cbv zeta in Hfin.
  pose proof (attaches_prepare X r w) as Hone.
  assert (hf_lora r = None ->
          is_Some (aspect_ratio_to_width_height (aspect_ratio r)) ->
          attached (world (prepare X r w)) = [] /\
          attached (world (predict X r w)) = []) as Hnoref.
  { intros Hn Hwh.
    destruct (prepare_no_adapter X r w Hn Hwh) as (p & Hp & Hw1).
    split; [exact Hw1 | ].
    destruct Hfin as [(e & He & _) | (p' & _ & [[_ ->] | [_ ->]])].
    - congruence.
    - exact Hw1.
    - destruct (bool_decide (is_Some (hf_lora r))); [reflexivity | exact Hw1]. }
  split; [ | split; [ | split; [exact Hnoref | ]]].
  - intros Hclean. rewrite Hclean in Hone. simpl in Hone. split; [lia | ].
    destruct Hfin as [(e & _ & _ & _ & ->) | (p & _ & [[_ ->] | [_ ->]])]; try lia.
    destruct (bool_decide (is_Some (hf_lora r))); simpl; lia.
  - intros Hres.
    destruct Hfin as [(e & _ & He & Hpe & _) | (p & Hp & [[He _] | [_ Ha]])].
    + exfalso. destruct Hres as [Hres | Hres]; rewrite Hres in He.
      * discriminate.
      * injection He as <-. exact (all_nsfw_msg_fresh _ Hpe eq_refl).
    + exfalso. rewrite He in Hres. destruct Hres; discriminate.
    + rewrite Ha. destruct (hf_lora r) as [ref | ] eqn:Hl.
      * rewrite bool_decide_eq_true_2; eauto.
      * rewrite bool_decide_eq_false_2; [ | intros [? ?]; discriminate].
        exact (prepare_no_adapter_ok X r w p Hl Hp).
  - intros Hn Hchk. unfold serve. rewrite Hchk.
    apply Hnoref; [exact Hn | now apply check_inputs_aspect_ratio].
Qed.

End Lifecycle.

(** A pipeline that raises at its second call leaves the adapter of the
    request attached; the next request then generates with two adapters. *)
Definition toy_second_call_fails : Externals := toy (fun g => g =? 1) (fun _ => false).

Lemma adapter_left_attached_after_error :
  let X := toy_second_call_fails in
  let r1 := with_hf_lora (Some (lit "owner/name"))
              (with_seed (Some 0) (with_num_outputs 2 (default_request (lit "a cat")))) in
  let o1 := serve X r1 (fresh_world X) in
  let r2 := with_hf_lora (Some (lit "other/style"))
              (with_seed (Some 5) (default_request (lit "a dog"))) in
  let o2 := prepare X r2 (world o1) in
  check_inputs r1 = true /\
  attached (fresh_world X) = [] /\
  generated (trace o1) = [0; 1]%nat /\
  res o1 = Raise PipelineError /\
  attached (world o1) = [HubRepo (lit "owner/name") None] /\
  attached (world o2)
  = [HubRepo (lit "owner/name") None; HubRepo (lit "other/style") None].
Proof. vm_compute. repeat split; reflexivity. Qed.

Lemma adapter_lifecycle_witness :
  let r := with_hf_lora (Some (lit "owner/name")) (default_request (lit "a cat")) in
  let o := predict toy_ok r (fresh_world toy_ok) in
  attached (fresh_world toy_ok) = [] /\
  res o = Ok tt /\
  (length (attached (world (prepare toy_ok r (fresh_world toy_ok)))) <= 1)%nat /\
  attached (world o) = [].
Proof.
  intros r o.
  pose proof (adapter_lifecycle toy_ok r (fresh_world toy_ok)) as (H1 & H2 & _).
  assert (res o = Ok tt) as Hres by (vm_compute; reflexivity).
  split; [reflexivity | ]. split; [exact Hres | ].
  split; [apply (H1 eq_refl) | apply H2; left; exact Hres].
Defined.

(** *** The adapter resolver *)

Section Resolver.

Context (X : Externals).

Implicit Types (r : Request) (w : World X) (ref : str).

(** A load from the hub, as opposed to a load of a local file. *)
Definition is_hub_load (ev : event X) : bool :=
  match ev with
  | EvLoadLora (HubRepo _ _) => true
  | _ => false
  end.

(** Lines 161-162 followed by any statement [k]: the scratch file is removed
    if it is there, and [k] runs. *)
Lemma clear_then {A} path (k : M X A) w :
  exists w' tr,
    bind X (os_path_exists X path)
      (fun present =>
         bind X (if present then os_remove X path else ret X tt) (fun _ => k)) w
    = MkOut (res (k w')) (world (k w')) (tr ++ trace (k w')) /\
    (tr = [] \/ tr = [EvRemove path]) /\
    attached w' = attached w /\
    files w' !! path = None.
Proof.
  unfold bind, os_path_exists, os_remove, ret. simpl.
  destruct (files w !! path) as [old | ] eqn:E.
  - rewrite bool_decide_eq_true_2 by eauto. rewrite E. simpl.
    exists (set_files (delete path (files w)) w), [EvRemove path].
    split; [destruct (res (k _)); reflexivity | ].
    split; [auto | split; [reflexivity | apply lookup_delete_eq]].
  - rewrite bool_decide_eq_false_2 by (intros [? ?]; discriminate). simpl.
    exists w, []. split; [destruct (res (k _)); reflexivity | auto].
Qed.

Definition not_pget (ev : event X) : bool :=
  match ev with
  | EvPget _ _ _ _ => false
  | _ => true
  end.

Lemma no_pget_runs (tr : list (event X)) :
  Forall (fun ev => not_pget ev = true) tr -> pget_runs tr = [].
Proof.
  induction 1 as [ | ev tr Hev _ IH]; [reflexivity | ].
  destruct ev; try discriminate; simpl; auto.
Qed.

(** Lines 163-179: one run of [pget], then no other. *)
Lemma download_then_load_runs ref is_tar path w :
  let o := bind X (download_weights X ref path true)
             (fun _ => load_downloaded_lora X is_tar path) w in
  exists code, pget_runs (trace o) = [(false, ref, path, code)].
Proof.
  cbv zeta. unfold bind, download_weights, check_call_pget. simpl.
  destruct (pget X false ref path (files w)) as [code fs]. simpl.
  exists code. destruct (code =? 0); simpl; [ | reflexivity].
  f_equal. apply no_pget_runs. now apply load_downloaded_lora_only.
Qed.

(** A downloaded reference is fetched by one run of [pget], of the reference
    itself, and is then loaded from local files only. *)
Lemma load_lora_from_url_trace ref w :
  let o := load_lora_from_url X ref w in
  (exists code, pget_runs (trace o) = [(false, ref, lora_path_of ref, code)]) /\
  Forall (fun ev => is_hub_load ev = false) (trace o).
Proof.
  cbv zeta. split.
  2:{ assert (emits_only X (fun ev => negb (is_hub_load ev)) (load_lora_from_url X ref))
        as H by now apply load_lora_from_url_only.
      eapply Forall_impl; [exact (H w) | ].
      intros ev Hev. now apply negb_true_iff in Hev. }
  destruct (clear_then (lora_path_of ref)
              (bind X (download_weights X ref (lora_path_of ref) true)
                 (fun _ => load_downloaded_lora X (is_tar_reference ref) (lora_path_of ref))) w)
    as (w' & tr & Heq & Htr & _).
  unfold load_lora_from_url. cbv zeta. rewrite Heq. simpl.
  rewrite pget_runs_app.
  destruct (download_then_load_runs ref (is_tar_reference ref) (lora_path_of ref) w')
    as [code Hc].
  cbv zeta in Hc. rewrite Hc. exists code. destruct Htr as [-> | ->]; reflexivity.
Qed.

End Resolver.

Arguments is_hub_load {X} ev.
Arguments not_pget {X} ev.

Section ResolverRules.

Context (X : Externals).

Implicit Types (r : Request) (w : World X) (ref : str).

Lemma trace_then_ret {A B} (m : M X A) (b : B) w :
  trace (bind X m (fun _ => ret X b) w) = trace (m w).
Proof.
  unfold bind. destruct (res (m w)); simpl; [apply app_nil_r | reflexivity].
Qed.

Lemma load_lora_weights_trace src w :
  trace (load_lora_weights X src w) = [EvLoadLora src].
Proof. unfold load_lora_weights. destruct (fetch_lora X src); reflexivity. Qed.

(** C2, as the code has it.  The resolver tests the patterns in order and
    takes the first that matches.  The slug pattern shares no string with the
    URL patterns: a reference [owner/name] is loaded from the hub under that
    very name, with no download and no URL handling.  A hub URL is loaded
    from the hub by its slug and last path segment, whether or not it also
    ends like a weight file.  A weight-file or archive URL is downloaded by
    one run of [pget] and loaded from local files.  A reference that matches
    no pattern raises an exception whose message is one fixed text, the same
    for every such reference: it names the parameter [hf_lora] and is not
    built from the reference.  Nothing has been done then: no event, no
    change of the world; the request ends there without any network
    access. *)
Theorem adapter_reference_rules r w ref :
  hf_lora r = Some ref ->
  let o := resolve_adapter X r w in
  let m1 := re_match pat_hf_path ref in
  let m2 := re_match pat_hf_url ref in
  let m3 := re_match pat_weight_url ref || re_match pat_replicate_url ref in
  (m1 = true ->
     m2 = false /\ m3 = false /\
     trace o = [EvLoadLora (HubRepo ref None)]) /\
  (m1 = false -> m2 = true ->
     pget_runs (trace o) = [] /\
     match hf_url_slug ref with
     | Some slug => trace o = [EvLoadLora (HubRepo slug (Some (split_last 47 ref)))]
     | None => o = MkOut (Raise AttributeError) w []
     end) /\
  (m1 = false -> m2 = false -> m3 = true ->
     (exists code, pget_runs (trace o) = [(false, ref, lora_path_of ref, code)]) /\
     Forall (fun ev => is_hub_load ev = false) (trace o)) /\
  (m1 = false -> m2 = false -> m3 = false ->
     o = MkOut (Raise (PyException invalid_hf_lora_msg)) w [] /\
     contains invalid_hf_lora_msg (lit "hf_lora") = true /\
     (is_Some (aspect_ratio_to_width_height (aspect_ratio r)) ->
        res (predict X r w) = Raise (PyException invalid_hf_lora_msg) /\
        Forall (fun ev => is_network ev = false) (trace (predict X r w)) /\
        files (world (predict X r w)) = files w /\
        attached (world (predict X r w)) = attached w)).
Proof.
  intros Href. cbv zeta. unfold resolve_adapter. rewrite Href.
  split; [ | split; [ | split]].
  - intros H1. destruct (hf_path_excludes_urls ref H1) as (H2 & H3 & H4).
    rewrite H1, H2, H3, H4. split; [reflexivity | split; [reflexivity | ]].
    rewrite trace_then_ret. apply load_lora_weights_trace.
  - intros H1 H2. rewrite H1, H2.
    destruct (hf_url_slug ref) as [slug | ].
    + rewrite trace_then_ret, load_lora_weights_trace. split; reflexivity.
    + split; reflexivity.
  - intros H1 H2 H3. rewrite H1, H2, H3. rewrite trace_then_ret.
    apply load_lora_from_url_trace.
  - intros H1 H2 H3. rewrite H1, H2, H3.
    split; [reflexivity | split; [vm_compute; reflexivity | ]].
    intros [wh Hwh].
    destruct (choose_seed_spec X r w) as (s & w' & tr & Hs & Ha & Hf & Htr).
    unfold predict, prepare, prepare_with, bind, unpack_size, resolve_adapter, bind.
    rewrite Hs, Hwh, Href, H1, H2, H3. simpl. rewrite !app_nil_r.
    repeat split; auto. destruct Htr as [-> | ->]; repeat constructor.
Qed.

End ResolverRules.

(** The message of the exception does not name the reference [my lora?]: it
    is the fixed text, in which that reference does not occur; and one
    string can match both URL patterns. *)
Lemma invalid_reference_not_named :
  let ref := lit "my lora?" in
  let r := with_hf_lora (Some ref) (default_request (lit "a cat")) in
  let o := serve toy_ok r (fresh_world toy_ok) in
  let url := lit "https://huggingface.co/owner/name/lora.safetensors" in
  re_match pat_hf_path ref = false /\
  re_match pat_hf_url ref = false /\
  re_match pat_weight_url ref = false /\
  re_match pat_replicate_url ref = false /\
  res o = Raise (PyException invalid_hf_lora_msg) /\
  contains invalid_hf_lora_msg ref = false /\
  re_match pat_hf_url url = true /\
  re_match pat_weight_url url = true.
Proof. vm_compute. repeat split; reflexivity. Qed.

Lemma adapter_reference_rules_witness :
  let ref := lit "alvdansen/frosting_lane_flux" in
  let r := with_hf_lora (Some ref) (default_request (lit "a cat")) in
  let o := resolve_adapter toy_ok r (fresh_world toy_ok) in
  hf_lora r = Some ref /\
  re_match pat_hf_path ref = true /\
  re_match pat_hf_url ref = false /\
  trace o = [EvLoadLora (HubRepo ref None)].
Proof.
  intros ref r o.
  assert (re_match pat_hf_path ref = true) as H1 by (vm_compute; reflexivity).
  pose proof (adapter_reference_rules toy_ok r (fresh_world toy_ok) ref eq_refl)
    as (H & _).
  destruct (H H1) as (H2 & _ & H4).
  repeat split; assumption.
Defined.

(** The other three outcomes of the resolver, run on examples. *)
Example resolve_hub_url :
  let ref := lit "https://huggingface.co/owner/name/blob/main/lora.safetensors" in
  let r := with_hf_lora (Some ref) (default_request (lit "a cat")) in
  trace (resolve_adapter toy_ok r (fresh_world toy_ok))
  = [EvLoadLora (HubRepo (lit "owner/name") (Some (lit "lora.safetensors")))].
Proof. vm_compute. reflexivity. Qed.

Example resolve_hub_url_without_slug :
  let ref := lit "https://huggingface.co" in
  let r := with_hf_lora (Some ref) (default_request (lit "a cat")) in
  res (resolve_adapter toy_ok r (fresh_world toy_ok)) = Raise AttributeError.
Proof. vm_compute. reflexivity. Qed.

Example resolve_archive_url :
  let ref := lit "https://replicate.delivery/yhqm/abc_DEF-1/trained_model.tar" in
  let r := with_hf_lora (Some ref) (default_request (lit "a cat")) in
  trace (resolve_adapter toy_ok r (fresh_world toy_ok))
  = [EvPget false ref (lit "/tmp/lora.tar") 0;
     EvExtract (lit "/tmp/lora.tar");
     EvLoadLora (LocalWeights (lit "lora/weights.safetensors") [])].
Proof. vm_compute. reflexivity. Qed.

(** *** The seed *)

Section Seed.

Context (X : Externals).

Implicit Types (r : Request) (w : World X).

Lemma int_from_two_bytes (b0 b1 : byte) :
  int_from_bytes_big [b0; b1] = 256 * Z.of_N (Byte.to_N b0) + Z.of_N (Byte.to_N b1) /\
  0 <= int_from_bytes_big [b0; b1] <= 65535.
Proof.
  unfold int_from_bytes_big. simpl.
  pose proof (Byte.to_N_bounded b0). pose proof (Byte.to_N_bounded b1). lia.
Qed.

(** The two bytes determine the seed and the seed determines them. *)
Lemma int_from_two_bytes_inj (a0 a1 b0 b1 : byte) :
  int_from_bytes_big [a0; a1] = int_from_bytes_big [b0; b1] -> a0 = b0 /\ a1 = b1.
Proof.
  intros H.
  destruct (int_from_two_bytes a0 a1) as [Ha _].
  destruct (int_from_two_bytes b0 b1) as [Hb _].
  rewrite Ha, Hb in H.
  pose proof (Byte.to_N_bounded a0) as Ba0. pose proof (Byte.to_N_bounded a1) as Ba1.
  pose proof (Byte.to_N_bounded b0) as Bb0. pose proof (Byte.to_N_bounded b1) as Bb1.
  assert (Byte.to_N a0 = Byte.to_N b0 /\ Byte.to_N a1 = Byte.to_N b1) as [E0 E1] by lia.
  apply (f_equal Byte.of_N) in E0, E1. rewrite !Byte.of_to_N in E0, E1.
  split; congruence.
Qed.

(** C9. The seed of a request is the explicit one, unchanged, when there is
    one; otherwise it is the big-endian value of the next two bytes of the
    random source, a number from 0 to 65535.  It is the value the generator
    of the request is seeded with. *)
Theorem seed_selection r w :
  exists s,
    res (choose_seed X r w) = Ok s /\
    match seed r with
    | Some s0 => s = s0 /\ trace (choose_seed X r w) = []
    | None =>
        let b0 := urandom_src w (urandom_pos w) in
        let b1 := urandom_src w (S (urandom_pos w)) in
        s = 256 * Z.of_N (Byte.to_N b0) + Z.of_N (Byte.to_N b1) /\
        0 <= s <= 65535 /\
        trace (choose_seed X r w) = [EvUrandom 2]
    end /\
    (forall p, res (prepare X r w) = Ok p -> snd p = manual_seed X s).
Proof.
  unfold choose_seed. destruct (seed r) as [s0 | ] eqn:Hseed.
  - exists s0. repeat split; auto.
    intros p Hp. unfold prepare, choose_seed, bind, prepare_with, bind in Hp.
    rewrite Hseed in Hp. simpl in Hp.
    destruct (res (unpack_size X (aspect_ratio r) w)); [ | discriminate].
    simpl in Hp. destruct (res (resolve_adapter X r _)); [ | discriminate].
    simpl in Hp. now injection Hp as <-.
  - exists (int_from_bytes_big
              [urandom_src w (urandom_pos w); urandom_src w (S (urandom_pos w))]).
    destruct (int_from_two_bytes (urandom_src w (urandom_pos w))
                (urandom_src w (S (urandom_pos w)))) as [Hv Hb].
    repeat split; auto; try apply Hb.
    intros p Hp. unfold prepare, choose_seed, bind, prepare_with, bind in Hp.
    rewrite Hseed in Hp. simpl in Hp.
    destruct (res (unpack_size X (aspect_ratio r) _)); [ | discriminate].
    simpl in Hp. destruct (res (resolve_adapter X r _)); [ | discriminate].
    simpl in Hp. now injection Hp as <-.
Qed.

End Seed.

Lemma seed_selection_witness :
  let r := default_request (lit "a cat") in
  let w := fresh_world toy_ok in
  exists p, res (prepare toy_ok r w) = Ok p /\ snd p = 10794.
Proof.
  intros r w.
  destruct (seed_selection toy_ok r w) as (s & Hs & Hm & Hp).
  assert (s = 10794) as -> by (vm_compute in Hs; congruence).
  exists (flux_args r (1024, 1024) None, 10794). split; [vm_compute; reflexivity | ].
  apply Hp. vm_compute. reflexivity.
Defined.

(** Both ends of the range are reached. *)
Example seed_extremes :
  int_from_bytes_big [x00; x00]%byte = 0 /\ int_from_bytes_big [xff; xff]%byte = 65535.
Proof. split; reflexivity. Qed.

(** *** Provisioning of the weights *)

Section Provisioning.

Context (X : Externals).

Implicit Types (w : World X) (url dest : str).

Lemma ensure_weights_present url dest w :
  is_Some (files w !! dest) -> ensure_weights X url dest w = MkOut (Ok tt) w [].
Proof.
  intros H. unfold ensure_weights, bind, os_path_exists. simpl.
  rewrite bool_decide_eq_true_2 by exact H. reflexivity.
Qed.

Lemma ensure_weights_absent url dest w :
  files w !! dest = None ->
  let o := ensure_weights X url dest w in
  let run := pget X true url dest (files w) in
  trace o = [EvPget true url dest (fst run)] /\
  res o = (if fst run =? 0 then Ok tt else Raise (CalledProcessError (fst run))) /\
  world o = set_files (snd run) w.
Proof.
  intros E. cbv zeta. unfold ensure_weights, bind, os_path_exists. simpl.
  rewrite bool_decide_eq_false_2 by (rewrite E; intros [? ?]; discriminate). simpl.
  unfold download_weights, check_call_pget. simpl.
  destruct (pget X true url dest (files w)) as [code fs]. simpl.
  destruct (code =? 0); simpl; repeat split; reflexivity.
Qed.

(** C8. The guarded download of [setup] is a no-op when the destination
    exists: nothing is run and the world is unchanged.  Otherwise it runs
    [pget -x url dest] exactly once; it succeeds when the tool exits with 0
    and raises [CalledProcessError] with the exit code otherwise, without
    running the tool again. *)
Theorem ensure_weights_spec url dest w :
  let o := ensure_weights X url dest w in
  let run := pget X true url dest (files w) in
  match files w !! dest with
  | Some _ =>
      o = MkOut (Ok tt) w [] /\
      pget_runs (trace o) = []
  | None =>
      trace o = [EvPget true url dest (fst run)] /\
      pget_runs (trace o) = [(true, url, dest, fst run)] /\
      res o = (if fst run =? 0 then Ok tt else Raise (CalledProcessError (fst run))) /\
      files (world o) = snd run /\
      attached (world o) = attached w
  end.
Proof.
  cbv zeta. destruct (files w !! dest) as [old | ] eqn:E.
  - rewrite ensure_weights_present by (rewrite E; eauto). split; reflexivity.
  - destruct (ensure_weights_absent url dest w E) as (Ht & Hr & Hw).
    cbv zeta in Ht, Hr, Hw. rewrite Ht, Hr, Hw. repeat split; reflexivity.
Qed.

(** [download_weights] itself never looks at the destination: it always runs
    the tool once. *)
Lemma download_weights_runs_once url dest file w :
  exists code,
    trace (download_weights X url dest file w) = [EvPget (negb file) url dest code].
Proof.
  unfold download_weights, check_call_pget.
  destruct file; simpl; destruct (pget X _ url dest (files w)) as [code fs];
    exists code; reflexivity.
Qed.

(** [setup] with both caches present downloads nothing. *)
Lemma setup_cached w :
  is_Some (files w !! SAFETY_CACHE) -> is_Some (files w !! MODEL_CACHE) ->
  res (setup X w) = Ok tt /\ pget_runs (trace (setup X w)) = [] /\
  world (setup X w) = w.
Proof.
  intros Ha Hb. unfold setup, bind.
  rewrite (ensure_weights_present SAFETY_URL SAFETY_CACHE w Ha).
  cbn [res world trace emit].
  rewrite (ensure_weights_present MODEL_URL MODEL_CACHE w Hb).
  cbn [res world trace emit app]. auto.
Qed.

(** [setup] stops at the first failed download. *)
Lemma setup_failed_download w :
  files w !! SAFETY_CACHE = None ->
  fst (pget X true SAFETY_URL SAFETY_CACHE (files w)) <> 0 ->
  res (setup X w)
  = Raise (CalledProcessError (fst (pget X true SAFETY_URL SAFETY_CACHE (files w)))) /\
  trace (setup X w)
  = [EvPget true SAFETY_URL SAFETY_CACHE
       (fst (pget X true SAFETY_URL SAFETY_CACHE (files w)))].
Proof.
  intros Hnone Hcode.
  destruct (ensure_weights_absent SAFETY_URL SAFETY_CACHE w Hnone) as (Htr & Hres & _).
  cbv zeta in Htr, Hres.
  apply Z.eqb_neq in Hcode. rewrite Hcode in Hres.
  unfold setup, bind. rewrite Hres, Htr. auto.
Qed.

End Provisioning.

Example setup_first_run :
  pget_runs (trace (setup toy_ok (fresh_world toy_ok)))
  = [(true, SAFETY_URL, SAFETY_CACHE, 0); (true, MODEL_URL, MODEL_CACHE, 0)] /\
  pget_runs (trace (setup toy_ok (world (setup toy_ok (fresh_world toy_ok))))) = [].
Proof. vm_compute. split; reflexivity. Qed.

(** *** Output format and quality *)

Section Quality.

Context (X : Externals).

Implicit Types (r : Request) (w : World X).

(** The loop reads three things of the request: the checker switch, the
    output format and the save options. *)
Lemma generation_loop_ext r1 r2 args n : forall i g c w,
  disable_safety_checker r1 = disable_safety_checker r2 ->
  output_format r1 = output_format r2 ->
  save_options r1 = save_options r2 ->
  generation_loop X r1 args n i g c w = generation_loop X r2 args n i g c w.
Proof.
  induction n as [ | n IH]; intros i g c w Hd Hf Hs; [reflexivity | ].
  destruct (generation_loop_cases X r1 args g w)
    as [Hnone | [(img & g' & Hflux & Hdis & Hbad) | (img & g' & Hflux & Hacc)]].
  - rewrite (generation_loop_raise X r1 args n i g c w Hnone).
    rewrite (generation_loop_raise X r2 args n i g c w Hnone). reflexivity.
  - rewrite (generation_loop_flagged X r1 args n i g c w img g' Hflux Hdis Hbad).
    rewrite Hd in Hdis.
    rewrite (generation_loop_flagged X r2 args n i g c w img g' Hflux Hdis Hbad).
    cbv zeta. rewrite (IH _ _ _ _ Hd Hf Hs). reflexivity.
  - rewrite (generation_loop_accepted X r1 args n i g c w img g' Hflux Hacc).
    pose proof Hacc as Hacc2. rewrite Hd in Hacc2.
    rewrite (generation_loop_accepted X r2 args n i g c w img g' Hflux Hacc2).
    cbv zeta. rewrite Hd, Hf, Hs. rewrite (IH _ _ _ _ Hd Hf Hs). reflexivity.
Qed.

Lemma save_options_png r :
  output_format r = lit "png" -> save_options r = None.
Proof. intros H. unfold save_options. now rewrite bool_decide_eq_true_2. Qed.

Lemma save_options_lossy r :
  output_format r <> lit "png" -> save_options r = Some (output_quality r, true).
Proof. intros H. unfold save_options. now rewrite bool_decide_eq_false_2. Qed.

(** Every save of a request carries the options of the request. *)
Lemma predict_saved_options r w :
  Forall (fun x => snd x = save_options r) (saved (trace (predict X r w))).
Proof.
  destruct (predict_loop_trace X r w)
    as [(e & _ & _ & -> & _) | (p & _ & _ & Hs & _)]; [constructor | ].
  cbv zeta in Hs. rewrite Hs. apply generation_loop_saved.
Qed.

(** C7. For [png] the quality is not passed to [image.save] and the whole
    run, files written included, is the same for every quality value.  For
    any other format, [webp] and [jpg] among them, every save is given the
    requested quality and [optimize=True]. *)
Theorem quality_by_format r w :
  (output_format r = lit "png" ->
     Forall (fun x => snd x = None) (saved (trace (predict X r w))) /\
     forall q, predict X (with_output_quality q r) w = predict X r w) /\
  (output_format r <> lit "png" ->
     Forall (fun x => snd x = Some (output_quality r, true))
            (saved (trace (predict X r w)))).
Proof.
  split.
  - intros Hpng. split.
    + rewrite <- (save_options_png r Hpng). apply predict_saved_options.
    + intros q. unfold predict, bind.
      change (prepare X (with_output_quality q r) w) with (prepare X r w).
      destruct (res (prepare X r w)) as [p | e]; [ | reflexivity].
      assert (generate X (with_output_quality q r) p (world (prepare X r w))
              = generate X r p (world (prepare X r w))) as ->; [ | reflexivity].
      unfold generate, bind.
      change (num_outputs (with_output_quality q r)) with (num_outputs r).
      change (hf_lora (with_output_quality q r)) with (hf_lora r).
      rewrite (generation_loop_ext (with_output_quality q r) r); auto.
      rewrite (save_options_png r Hpng). now apply save_options_png.
  - intros Hlossy. rewrite <- (save_options_lossy r Hlossy).
    apply predict_saved_options.
Qed.

End Quality.

Lemma quality_by_format_witness :
  let png := with_output_format (lit "png") (default_request (lit "a cat")) in
  let jpg := with_output_quality 35
               (with_output_format (lit "jpg") (default_request (lit "a cat"))) in
  let w := fresh_world toy_ok in
  output_format png = lit "png" /\
  predict toy_ok (with_output_quality 5 png) w = predict toy_ok png w /\
  (output_format jpg <> lit "png") /\
  saved (trace (predict toy_ok jpg w)) = [(lit "/tmp/out-0.jpg", 107940, Some (35, true))] /\
  Forall (fun x => snd x = Some (35, true)) (saved (trace (predict toy_ok jpg w))).
Proof.
  intros png jpg w.
  assert (output_format jpg <> lit "png") as Hjpg by (vm_compute; discriminate).
  destruct (quality_by_format toy_ok png w) as [Hpng _].
  destruct (quality_by_format toy_ok jpg w) as [_ Hlossy].
  split; [reflexivity | ].
  split; [apply (Hpng eq_refl) | ].
  split; [exact Hjpg | ].
  split; [vm_compute; reflexivity | exact (Hlossy Hjpg)].
Defined.

(** *** Two runs of one request *)

Section Determinism.

Context (X : Externals).

Implicit Types (r : Request) (w : World X) (tr : list (event X)).

(** The download tool is taken to be indifferent to the files around its
    destination: run for a destination that does not exist yet, it exits
    with the same code and leaves the same thing at the destination. *)
Definition pget_local : Prop :=
  forall x url dest (fs1 fs2 : gmap str bytes),
    fs1 !! dest = None -> fs2 !! dest = None ->
    fst (pget X x url dest fs1) = fst (pget X x url dest fs2) /\
    snd (pget X x url dest fs1) !! dest = snd (pget X x url dest fs2) !! dest.

(** A trace without the removals of a stale scratch file, which depend on
    what earlier requests left behind. *)
Definition visible tr : list (event X) :=
  List.filter (fun ev => match ev with EvRemove _ => false | _ => true end) tr.

Lemma visible_app tr1 tr2 : visible (tr1 ++ tr2) = visible tr1 ++ visible tr2.
Proof. apply List.filter_app. Qed.

Lemma saved_visible tr : saved (visible tr) = saved tr.
Proof.
  induction tr as [ | ev tr IH]; [reflexivity | ].
  destruct ev; simpl; rewrite ?IH; reflexivity.
Qed.

Lemma yielded_visible tr : yielded (visible tr) = yielded tr.
Proof.
  induction tr as [ | ev tr IH]; [reflexivity | ].
  destruct ev; simpl; rewrite ?IH; reflexivity.
Qed.

(** Two statements that, run from worlds with the same adapters attached,
    end alike: same result, same visible events, and again the same
    adapters.  The files and the random source of the two worlds are
    unrelated. *)
Definition agree {A} (m1 m2 : M X A) : Prop :=
  forall w1 w2, attached w1 = attached w2 ->
    res (m1 w1) = res (m2 w2) /\
    visible (trace (m1 w1)) = visible (trace (m2 w2)) /\
    attached (world (m1 w1)) = attached (world (m2 w2)).

Lemma agree_ret {A} (a : A) : agree (ret X a) (ret X a).
Proof. intros w1 w2 H. simpl. auto. Qed.

Lemma agree_raise {A} e : agree (@raise X A e) (raise X e).
Proof. intros w1 w2 H. simpl. auto. Qed.

Lemma agree_emit ev : agree (emit X ev) (emit X ev).
Proof. intros w1 w2 H. simpl. auto. Qed.

Lemma agree_bind {A B} (m1 m2 : M X A) (k1 k2 : A -> M X B) :
  agree m1 m2 -> (forall a, agree (k1 a) (k2 a)) ->
  agree (bind X m1 k1) (bind X m2 k2).
Proof.
  intros Hm Hk w1 w2 H. unfold bind.
  destruct (Hm w1 w2 H) as (Hr & Ht & Hw). rewrite <- Hr.
  destruct (res (m1 w1)) as [a | e]; simpl; [ | auto].
  destruct (Hk a _ _ Hw) as (Hr' & Ht' & Hw').
  rewrite !visible_app, Hr', Ht', Ht. auto.
Qed.

Lemma agree_get_world {B} (k1 k2 : World X -> M X B) :
  (forall wa wb, attached wa = attached wb -> agree (k1 wa) (k2 wb)) ->
  agree (bind X (get_world X) k1) (bind X (get_world X) k2).
Proof.
  intros Hk w1 w2 H. unfold bind, get_world. simpl.
  destruct (Hk w1 w2 H w1 w2 H) as (Hr & Ht & Hw). rewrite Hr, Ht. auto.
Qed.

Lemma agree_load_lora_weights src :
  agree (load_lora_weights X src) (load_lora_weights X src).
Proof.
  intros w1 w2 Ha. unfold load_lora_weights.
  destruct (fetch_lora X src); simpl; repeat split; auto. now rewrite Ha.
Qed.

Lemma agree_unload : agree (unload_lora_weights X) (unload_lora_weights X).
Proof. intros w1 w2 Ha. unfold unload_lora_weights. simpl. auto. Qed.

Lemma agree_image_save img path opts :
  agree (image_save X img path opts) (image_save X img path opts).
Proof. intros w1 w2 Ha. unfold image_save. simpl. auto. Qed.

(** Lines 166-179 read the downloaded file only. *)
Lemma load_downloaded_lora_agree is_tar path w1 w2 :
  attached w1 = attached w2 ->
  files w1 !! path = files w2 !! path ->
  let o1 := load_downloaded_lora X is_tar path w1 in
  let o2 := load_downloaded_lora X is_tar path w2 in
  res o1 = res o2 /\ trace o1 = trace o2 /\
  attached (world o1) = attached (world o2).
Proof.
  intros Ha Hf. cbv zeta.
  unfold load_downloaded_lora, load_lora_file, bind, get_world, emit, raise,
    load_lora_weights.
  destruct is_tar; simpl; rewrite Hf; destruct (files w2 !! path) as [content | ];
    simpl; auto.
  - destruct (tar_walk X content) as [members | ]; simpl; auto.
    destruct (List.filter _ members) as [ | [name c] ?]; simpl; auto.
    destruct (fetch_lora X _); simpl; auto. rewrite Ha. auto.
  - destruct (fetch_lora X _); simpl; auto. rewrite Ha. auto.
Qed.

(** Lines 163-179, from worlds where the scratch file is absent. *)
Lemma download_then_load_agree ref is_tar path w1 w2 :
  pget_local ->
  attached w1 = attached w2 ->
  files w1 !! path = None -> files w2 !! path = None ->
  let k := bind X (download_weights X ref path true)
             (fun _ => load_downloaded_lora X is_tar path) in
  res (k w1) = res (k w2) /\ trace (k w1) = trace (k w2) /\
  attached (world (k w1)) = attached (world (k w2)).
Proof.
  intros Hpget Ha F1 F2. cbv zeta. unfold bind, download_weights, check_call_pget. simpl.
  destruct (Hpget false ref path (files w1) (files w2) F1 F2) as [Hc Hd].
  destruct (pget X false ref path (files w1)) as [c1 fs1].
  destruct (pget X false ref path (files w2)) as [c2 fs2].
  simpl in Hc, Hd. subst c2. simpl.
  destruct (c1 =? 0); simpl; [ | auto].
  destruct (load_downloaded_lora_agree is_tar path (set_files fs1 w1) (set_files fs2 w2)
              Ha Hd) as (Hr & Ht & Hw).
  cbv zeta in Hr, Ht, Hw. rewrite Hr, Ht, Hw. auto.
Qed.

Lemma agree_load_lora_from_url ref :
  pget_local -> agree (load_lora_from_url X ref) (load_lora_from_url X ref).
Proof.
  intros Hpget w1 w2 Ha. unfold load_lora_from_url. cbv zeta.
  set (k := bind X (download_weights X ref (lora_path_of ref) true)
              (fun _ => load_downloaded_lora X (is_tar_reference ref) (lora_path_of ref))).
  destruct (clear_then X (lora_path_of ref) k w1) as (w1' & tr1 & E1 & T1 & A1 & F1).
  destruct (clear_then X (lora_path_of ref) k w2) as (w2' & tr2 & E2 & T2 & A2 & F2).
  rewrite E1, E2. simpl.
  destruct (download_then_load_agree ref (is_tar_reference ref) (lora_path_of ref)
              w1' w2') as (Hr & Ht & Hw); [assumption | congruence | assumption | assumption | ].
  cbv zeta in Hr, Ht, Hw. fold k in Hr, Ht, Hw.
  rewrite !visible_app, Hr, Ht, Hw.
  repeat split; auto.
  destruct T1 as [-> | ->], T2 as [-> | ->]; reflexivity.
Qed.

Lemma agree_resolve_adapter r :
  pget_local -> agree (resolve_adapter X r) (resolve_adapter X r).
Proof.
  intros Hpget. unfold resolve_adapter. destruct (hf_lora r) as [ref | ].
  - apply agree_bind; [ | intros; apply agree_ret].
    destruct (re_match pat_hf_path ref); [apply agree_load_lora_weights | ].
    destruct (re_match pat_hf_url ref).
    { destruct (hf_url_slug ref); [apply agree_load_lora_weights | apply agree_raise]. }
    destruct (_ || _); [now apply agree_load_lora_from_url | apply agree_raise].
  - apply agree_bind; [apply agree_unload | intros; apply agree_ret].
Qed.

Lemma agree_prepare_with r s :
  pget_local -> agree (prepare_with X r s) (prepare_with X r s).
Proof.
  intros Hpget. unfold prepare_with. apply agree_bind.
  { unfold unpack_size. destruct (aspect_ratio_to_width_height _);
      [apply agree_ret | apply agree_raise]. }
  intros wh. apply agree_bind; [now apply agree_resolve_adapter | intros; apply agree_ret].
Qed.

Lemma agree_pipe_call i args g : agree (pipe_call X i args g) (pipe_call X i args g).
Proof.
  unfold pipe_call. apply agree_get_world. intros wa wb Ha. rewrite Ha.
  apply agree_bind; [apply agree_emit | intros _].
  destruct (flux X (attached wb) args g); [apply agree_ret | apply agree_raise].
Qed.

Lemma agree_generation_loop r args n : forall i g c,
  agree (generation_loop X r args n i g c) (generation_loop X r args n i g c).
Proof.
  induction n as [ | n IH]; intros i g c; simpl; [apply agree_ret | ].
  apply agree_bind; [apply agree_pipe_call | intros [img g']].
  apply agree_bind.
  { destruct (negb (disable_safety_checker r)); [ | apply agree_ret].
    unfold run_safety_checker.
    apply agree_bind; [apply agree_emit | intros; apply agree_ret]. }
  intros flagged. destruct flagged; [apply IH | ].
  apply agree_bind; [apply agree_image_save | intros _].
  apply agree_bind; [apply agree_emit | intros _]. apply IH.
Qed.

Lemma agree_generate r p : agree (generate X r p) (generate X r p).
Proof.
  unfold generate. apply agree_bind; [apply agree_generation_loop | intros c].
  apply agree_bind.
  { destruct (bool_decide _); [apply agree_unload | apply agree_ret]. }
  intros _. destruct (c =? 0)%nat; [apply agree_raise | apply agree_ret].
Qed.

(** [predict] once the seed is known. *)
Definition predict_with (r : Request) (s : Z) : M X unit :=
  bind X (prepare_with X r s) (generate X r).

Lemma agree_predict_with r s : pget_local -> agree (predict_with r s) (predict_with r s).
Proof.
  intros Hpget. unfold predict_with.
  apply agree_bind; [now apply agree_prepare_with | ].
  intros p. apply agree_generate.
Qed.

Lemma bind_assoc {A B C} (m : M X A) (k : A -> M X B) (h : B -> M X C) w :
  bind X (bind X m k) h w = bind X m (fun a => bind X (k a) h) w.
Proof.
  unfold bind. destruct (res (m w)) as [a | e]; simpl; [ | reflexivity].
  destruct (res (k a (world (m w)))) as [b | e]; simpl;
    [rewrite app_assoc | ]; reflexivity.
Qed.

Lemma bind_ret_l {A B} (a : A) (k : A -> M X B) w : bind X (ret X a) k w = k a w.
Proof. unfold bind, ret. simpl. destruct (k a w); reflexivity. Qed.

Lemma predict_explicit_seed r s w :
  seed r = Some s -> predict X r w = predict_with r s w.
Proof.
  intros Hs. unfold predict, prepare. rewrite bind_assoc.
  unfold choose_seed. rewrite Hs. apply bind_ret_l.
Qed.

(** The seed a request without an explicit seed draws in world [w]. *)
Definition drawn_seed (w : World X) : Z :=
  int_from_bytes_big [urandom_src w (urandom_pos w); urandom_src w (S (urandom_pos w))].

Lemma predict_drawn_seed r w :
  seed r = None ->
  let w' := set_urandom_pos (urandom_pos w + 2) w in
  let o := predict_with r (drawn_seed w) w' in
  predict X r w = MkOut (res o) (world o) (EvUrandom 2 :: trace o).
Proof.
  intros Hs. cbv zeta. unfold predict, prepare. rewrite bind_assoc.
  unfold choose_seed. rewrite Hs. rewrite bind_assoc.
  unfold bind at 1. unfold os_urandom. cbn [res world trace].
  rewrite bind_ret_l. reflexivity.
Qed.

(** Past the choice of the seed, the [seed] field is not read. *)
Lemma predict_with_seed_field r s0 s w :
  predict_with (with_seed s0 r) s w = predict_with r s w.
Proof.
  unfold predict_with, bind.
  change (prepare_with X (with_seed s0 r) s w) with (prepare_with X r s w).
  destruct (res (prepare_with X r s w)) as [p | e]; [ | reflexivity].
  assert (generate X (with_seed s0 r) p (world (prepare_with X r s w))
          = generate X r p (world (prepare_with X r s w))) as ->; [ | reflexivity].
  unfold generate, bind.
  change (num_outputs (with_seed s0 r)) with (num_outputs r).
  change (hf_lora (with_seed s0 r)) with (hf_lora r).
  rewrite (generation_loop_ext X (with_seed s0 r) r) by reflexivity.
  reflexivity.
Qed.

(** The two bytes a request without an explicit seed reads in world [w]. *)
Definition drawn_bytes (w : World X) : byte * byte :=
  (urandom_src w (urandom_pos w), urandom_src w (S (urandom_pos w))).

Lemma drawn_seed_bytes w1 w2 :
  drawn_seed w1 = drawn_seed w2 <-> drawn_bytes w1 = drawn_bytes w2.
Proof.
  unfold drawn_seed, drawn_bytes. split.
  - intros H. apply int_from_two_bytes_inj in H as [-> ->]. reflexivity.
  - intros H. injection H as -> ->. reflexivity.
Qed.

(** A run without an explicit seed is, but for the draw of the two bytes,
    the run with the drawn seed made explicit, from any world with the same
    adapters attached. *)
Lemma unseeded_run r w w0 :
  pget_local -> attached w = attached w0 -> seed r = None ->
  let o := predict X r w in
  let o0 := predict X (with_seed (Some (drawn_seed w)) r) w0 in
  res o = res o0 /\
  visible (trace o) = EvUrandom 2 :: visible (trace o0) /\
  saved (trace o) = saved (trace o0) /\
  attached (world o) = attached (world o0).
Proof.
  intros Hpget Ha Hs. cbv zeta.
  rewrite (predict_drawn_seed r w Hs). cbv zeta.
  rewrite (predict_explicit_seed (with_seed (Some (drawn_seed w)) r) (drawn_seed w))
    by reflexivity.
  rewrite predict_with_seed_field.
  destruct (agree_predict_with r (drawn_seed w) Hpget
              (set_urandom_pos (urandom_pos w + 2) w) w0 Ha)
    as (Hr & Ht & Hw).
  cbn [res world trace].
  split; [exact Hr | ]. split; [simpl; now rewrite Ht | ].
  split; [ | exact Hw].
  simpl.
  rewrite <- (saved_visible (trace (predict_with r (drawn_seed w) _))), Ht.
  apply saved_visible.
Qed.


End Determinism.

Arguments pget_local X : clear implicits.
Arguments visible {X} tr.
Arguments drawn_seed {X} w.
Arguments drawn_bytes {X} w.

Lemma toy_pget_local fails nsfw : pget_local (toy fails nsfw).
Proof.
  intros x url dest fs1 fs2 _ _. simpl. split; [reflexivity | ].
  now rewrite !lookup_insert_eq.
Qed.

(** A world with no adapter attached, like [fresh_world], but with another
    random source, partly consumed, and files left by earlier requests. *)
Definition used_world (X : Externals) : World X :=
  {| files := {[ lit "/tmp/out-0.webp" := [x00]%byte; lit "/tmp/lora.safetensors" := [] ]};
     attached := [];
     urandom_src := fun _ => x07%byte;
     urandom_pos := 5 |}.

(** The toy pipeline saves different images for different seeds. *)
Lemma toy_ok_separates_seeds (s s' : Z) :
  s <> s' ->
  saved (trace (predict toy_ok (with_seed (Some s) (default_request (lit "a cat")))
                  (used_world toy_ok)))
  <> saved (trace (predict toy_ok (with_seed (Some s') (default_request (lit "a cat")))
                     (used_world toy_ok))).
Proof.
  assert (forall t,
            saved (trace (predict toy_ok (with_seed (Some t) (default_request (lit "a cat")))
                            (used_world toy_ok)))
            = [(lit "/tmp/out-0.webp", 10 * t + 0, Some (80, true))]) as Hrun
    by (intros t; reflexivity).
  intros Hne. rewrite !Hrun. intros Heq. injection Heq as Heq. lia.
Qed.



(** Without a seed the two worlds draw different seeds, and here the images
    differ. *)
Example unseeded_runs_differ :
  let r := default_request (lit "a cat") in
  drawn_seed (fresh_world toy_ok) = 10794 /\
  drawn_seed (used_world toy_ok) = 1799 /\
  saved (trace (predict toy_ok r (fresh_world toy_ok)))
  = [(lit "/tmp/out-0.webp", 107940, Some (80, true))] /\
  saved (trace (predict toy_ok r (used_world toy_ok)))
  = [(lit "/tmp/out-0.webp", 17990, Some (80, true))].
Proof. vm_compute. repeat split; reflexivity. Qed.

(** *** The slug taken out of a hub URL (line 153) *)

Section SlugExtraction.

Lemma strip_prefix_app (t s : str) : strip_prefix t (t ++ s) = Some s.
Proof.
  induction t as [ | a t IH]; simpl; [now destruct s | ].
  now rewrite N.eqb_refl.
Qed.

Lemma strip_prefix_inv (t s s' : str) : strip_prefix t s = Some s' -> s = t ++ s'.
Proof.
  revert s. induction t as [ | a t IH]; intros s H.
  - destruct s; simpl in *; congruence.
  - destruct s as [ | b s]; simpl in H; [discriminate | ].
    destruct (N.eqb_spec a b) as [-> | ]; [ | discriminate].
    simpl. f_equal. auto.
Qed.

Lemma span_inv (p : char -> bool) (s a b : str) :
  span p s = (a, b) ->
  s = a ++ b /\ Forall (fun c => p c = true) a /\
  match b with c :: _ => p c = false | [] => True end.
Proof.
  revert a b. induction s as [ | c s IH]; intros a b H; simpl in H.
  - injection H as <- <-. auto.
  - destruct (p c) eqn:Hc.
    + destruct (span p s) as [a' b'] eqn:E. injection H as <- <-.
      destruct (IH a' b' eq_refl) as (-> & Ha & Hb). auto.
    + injection H as <- <-. simpl. auto.
Qed.

Lemma span_app (p : char -> bool) (a s : str) :
  Forall (fun c => p c = true) a ->
  span p (a ++ s) = (a ++ fst (span p s), snd (span p s)).
Proof.
  induction 1 as [ | c a Hc _ IH]; simpl.
  - now destruct (span p s).
  - rewrite Hc, IH. reflexivity.
Qed.

Lemma lang_star_class (cl : charset) (s : str) :
  lang (Star (Sym cl)) s <-> Forall (fun c => in_set cl c = true) s.
Proof.
  split.
  - intros H. remember (Star (Sym cl)) as r eqn:Hr.
    induction H; try discriminate; [constructor | ].
    injection Hr as ->. inversion H; subst. simpl. constructor; auto.
  - induction 1 as [ | c s Hc _ IH]; [constructor | ].
    change (c :: s) with ([c] ++ s). constructor; [now constructor | exact IH].
Qed.

Lemma lang_plus_class (cl : charset) (s : str) :
  lang (Plus (Sym cl)) s <-> s <> [] /\ Forall (fun c => in_set cl c = true) s.
Proof.
  unfold Plus. split.
  - intros H. apply lang_seq_inv in H as (s1 & s2 & -> & H1 & H2).
    inversion H1; subst. apply lang_star_class in H2.
    split; [discriminate | now constructor].
  - intros [Hne H]. destruct H as [ | c s Hc Hs]; [congruence | ].
    change (c :: s) with ([c] ++ s).
    constructor; [now constructor | now apply lang_star_class].
Qed.

Lemma lang_re_scheme (sch : str) :
  lang re_scheme sch <-> sch = lit "http://" \/ sch = lit "https://".
Proof.
  split.
  - intros H. unfold re_scheme in H.
    apply lang_seq_inv in H as (a & b & -> & Ha & Hb).
    apply lang_chars in Ha as ->.
    apply lang_seq_inv in Hb as (c & d & -> & Hc & Hd).
    apply lang_chars in Hd as ->.
    apply lang_alt_inv in Hc as [Hc | Hc].
    + apply lang_one_inv in Hc as ->. now right.
    + apply lang_eps_inv in Hc as ->. now left.
  - intros [-> | ->]; apply fullmatch_lang; vm_compute; reflexivity.
Qed.

Lemma strip_scheme_inv (s s' : str) :
  strip_scheme s = Some s' -> exists sch, lang re_scheme sch /\ s = sch ++ s'.
Proof.
  unfold strip_scheme. intros H.
  destruct (strip_prefix (lit "http") s) as [s1 | ] eqn:E1;
    cbv [mbind option_bind] in H; [ | discriminate].
  apply strip_prefix_inv in E1 as ->.
  destruct s1 as [ | c s2]; [discriminate | ].
  destruct (N.eqb_spec c 115) as [-> | _].
  - apply strip_prefix_inv in H as ->.
    exists (lit "https://"). split; [apply lang_re_scheme; now right | reflexivity].
  - apply strip_prefix_inv in H. rewrite H.
    exists (lit "http://"). split; [apply lang_re_scheme; now left | reflexivity].
Qed.

Lemma strip_scheme_app (sch s : str) :
  lang re_scheme sch -> strip_scheme (sch ++ s) = Some s.
Proof.
  intros H. apply lang_re_scheme in H as [-> | ->]; unfold strip_scheme.
  - change (lit "http://" ++ s) with (lit "http" ++ lit "://" ++ s).
    rewrite strip_prefix_app. simpl. destruct s; reflexivity.
  - change (lit "https://" ++ s) with (lit "http" ++ 115%N :: lit "://" ++ s).
    rewrite strip_prefix_app. simpl. destruct s; reflexivity.
Qed.

(** What [hf_url_slug] returns is a slug of the pattern, found right after a
    prefix the pattern accepts, and it is the longest one ([+] is greedy). *)
Lemma hf_url_slug_sound (s g : str) :
  hf_url_slug s = Some g ->
  exists pre rest,
    s = pre ++ g ++ rest /\
    lang (Seq re_hf_host (Sym (One 47))) pre /\
    lang re_slug g /\
    match rest with c :: _ => is_slug_char c = false | [] => True end.
Proof.
  unfold hf_url_slug. intros H.
  destruct (strip_scheme s) as [s1 | ] eqn:E1;
    cbv [mbind option_bind] in H; [ | discriminate].
  destruct (strip_prefix (lit "huggingface") s1) as [s2 | ] eqn:E2; [ | discriminate].
  unfold strip_not_newline in H.
  destruct s2 as [ | dot s3]; [discriminate | ].
  destruct (in_set NotNewline dot) eqn:Hdot; [ | discriminate].
  destruct (strip_prefix (lit "co/") s3) as [s4 | ] eqn:E4; [ | discriminate].
  destruct (span is_slug_char s4) as [owner s5] eqn:E5.
  destruct owner as [ | o owner]; [discriminate | ].
  destruct (strip_prefix (lit "/") s5) as [s6 | ] eqn:E6; [ | discriminate].
  destruct (span is_slug_char s6) as [name rest] eqn:E7.
  destruct name as [ | n name]; [discriminate | ].
  injection H as <-.
  apply strip_scheme_inv in E1 as (sch & Hsch & ->).
  apply strip_prefix_inv in E2 as ->.
  apply strip_prefix_inv in E4 as ->.
  apply span_inv in E5 as (-> & Ho & _).
  apply strip_prefix_inv in E6 as ->.
  apply span_inv in E7 as (-> & Hn & Hrest).
  exists (sch ++ lit "huggingface" ++ [dot] ++ lit "co/"), rest.
  split; [ | split; [ | split; [ | exact Hrest]]].
  - simpl. rewrite <- ?app_assoc. simpl. rewrite <- ?app_assoc. reflexivity.
  - change (lit "co/") with (lit "co" ++ [47%N]).
    replace (sch ++ lit "huggingface" ++ [dot] ++ lit "co" ++ [47%N])
      with ((sch ++ lit "huggingface" ++ [dot] ++ lit "co") ++ [47%N])
      by (rewrite <- !app_assoc; reflexivity).
    apply lang_seq; [ | apply lang_sym; apply N.eqb_refl].
    unfold re_hf_host. apply lang_seq; [exact Hsch | ].
    apply lang_seq; [apply fullmatch_lang; reflexivity | ].
    apply lang_seq; [apply lang_sym; exact Hdot | apply fullmatch_lang; reflexivity].
  - unfold re_slug.
    apply (lang_seq _ _ (o :: owner) (lit "/" ++ n :: name)).
    { apply lang_plus_class. split; [discriminate | exact Ho]. }
    apply (lang_seq _ _ [47%N] (n :: name)); [apply lang_sym; apply N.eqb_refl | ].
    apply lang_plus_class. split; [discriminate | exact Hn].
Qed.

(** [hf_url_slug] finds a slug exactly when the pattern of line 153
    matches: otherwise [re.search] returns [None]. *)
Lemma hf_url_slug_complete (s : str) :
  re_match pat_hf_url_slug s = true <-> is_Some (hf_url_slug s).
Proof.
  unfold re_match. simpl dollar. cbv iota. simpl body. rewrite fullmatch_lang. split.
  - intros H.
    apply lang_seq_inv in H as (s1 & tail & -> & H & _).
    apply lang_seq_inv in H as (host & s2 & -> & Hhost & H).
    apply lang_seq_inv in H as (sl & g & -> & Hsl & Hg).
    apply lang_one_inv in Hsl as ->.
    unfold re_hf_host in Hhost.
    apply lang_seq_inv in Hhost as (sch & h1 & -> & Hsch & Hh).
    apply lang_seq_inv in Hh as (hf & h2 & -> & Hhf & Hh).
    apply lang_chars in Hhf as ->.
    apply lang_seq_inv in Hh as (dot & co & -> & Hdot & Hco).
    apply lang_chars in Hco as ->.
    inversion Hdot as [ | ? d Hd | | | | | ]; subst.
    unfold re_slug in Hg.
    apply lang_seq_inv in Hg as (owner & g2 & -> & Ho & Hg).
    apply lang_seq_inv in Hg as (sl & name & -> & Hsl & Hn).
    apply lang_one_inv in Hsl as ->.
    apply lang_plus_class in Ho as [Hone Ho].
    apply lang_plus_class in Hn as [Hnne Hn].
    unfold hf_url_slug.
    rewrite <- !app_assoc. rewrite (strip_scheme_app sch _ Hsch).
    cbv [mbind option_bind]. rewrite strip_prefix_app. cbv beta iota.
    unfold strip_not_newline.
    change ([d] ++ lit "co" ++ [47%N] ++ owner ++ [47%N] ++ name ++ tail)
      with (d :: lit "co/" ++ owner ++ [47%N] ++ name ++ tail).
    cbv beta iota. rewrite Hd, strip_prefix_app. cbv beta iota.
    rewrite (span_app is_slug_char owner _ Ho).
    change (span is_slug_char ([47%N] ++ name ++ tail))
      with (@nil char, [47%N] ++ name ++ tail).
    cbn [fst snd]. rewrite app_nil_r.
    destruct owner as [ | o owner]; [congruence | ].
    change ([47%N] ++ name ++ tail) with (lit "/" ++ name ++ tail).
    rewrite strip_prefix_app. cbv beta iota.
    rewrite (span_app is_slug_char name _ Hn).
    destruct name as [ | n name]; [congruence | ].
    simpl. eauto.
  - intros [g Hg]. apply hf_url_slug_sound in Hg as (pre & rest & -> & Hpre & Hg & _).
    apply lang_seq_inv in Hpre as (host & sl & -> & Hhost & Hsl).
    replace ((host ++ sl) ++ g ++ rest) with ((host ++ sl ++ g) ++ rest)
      by (rewrite <- !app_assoc; reflexivity).
    constructor; [constructor; [exact Hhost | constructor; assumption] | ].
    apply lang_star_class. apply Forall_forall. reflexivity.
Qed.

End SlugExtraction.

Example hf_url_slug_run :
  hf_url_slug (lit "https://huggingface.co/owner/na-me_1/resolve/main/x.safetensors")
  = Some (lit "owner/na-me_1").
Proof. reflexivity. Qed.

(** * Further properties of the code *)

(** ** Output file names (line 208) *)

(** Reading a decimal numeral back. *)
Definition nat_of_digits_from (a : nat) (s : str) : nat :=
  fold_left (fun acc c => (10 * acc + N.to_nat (c - 48))%nat) s a.

Definition nat_of_digits (s : str) : nat := nat_of_digits_from 0 s.

Section FileNames.

Lemma digit_value (d : nat) : (d < 10)%nat -> N.to_nat (digit d - 48) = d.
Proof. intros H. unfold digit. lia. Qed.

Lemma digits_fuel_value (fuel : nat) : forall n acc,
  (n < fuel)%nat ->
  nat_of_digits_from 0 (digits_fuel fuel n acc) = nat_of_digits_from n acc.
Proof.
  induction fuel as [ | fuel IH]; intros n acc Hn; [lia | ].
  change (digits_fuel (S fuel) n acc)
    with (if (n <? 10)%nat then digit (n mod 10) :: acc
          else digits_fuel fuel (n / 10) (digit (n mod 10) :: acc)).
  assert (nat_of_digits_from (n / 10) (digit (n mod 10) :: acc)
          = nat_of_digits_from n acc) as Hstep.
  { unfold nat_of_digits_from. cbn [fold_left].
    rewrite digit_value by (apply Nat.mod_upper_bound; lia).
    f_equal. pose proof (Nat.div_mod_eq n 10). lia. }
  destruct (n <? 10)%nat eqn:Hlt.
  - apply Nat.ltb_lt in Hlt. rewrite <- Hstep.
    rewrite (Nat.div_small n 10) by exact Hlt. reflexivity.
  - apply Nat.ltb_ge in Hlt.
    assert (n / 10 < fuel)%nat as Hdiv.
    { pose proof (Nat.div_lt n 10). lia. }
    rewrite (IH _ _ Hdiv). exact Hstep.
Qed.

(** [int(str(n)) == n]. *)
Lemma nat_of_digits_str_of_nat (n : nat) : nat_of_digits (str_of_nat n) = n.
Proof.
  unfold nat_of_digits, str_of_nat. rewrite digits_fuel_value by lia. reflexivity.
Qed.

Lemma str_of_nat_inj (m n : nat) : str_of_nat m = str_of_nat n -> m = n.
Proof.
  intros H. apply (f_equal nat_of_digits) in H.
  now rewrite !nat_of_digits_str_of_nat in H.
Qed.

(** Two counts never share a file name. *)
Lemma output_path_inj (fmt : str) (m n : nat) :
  output_path m fmt = output_path n fmt -> m = n.
Proof.
  unfold output_path. intros H.
  apply app_inv_head in H. rewrite !app_assoc in H.
  apply app_inv_tail in H. apply app_inv_tail in H.
  now apply str_of_nat_inj.
Qed.

Lemma output_paths_NoDup (fmt : str) (c n : nat) :
  NoDup (List.map (fun k => output_path k fmt) (seq c n)).
Proof.
  assert (Inj eq eq (fun k => output_path k fmt)) as Hinj
    by (intros a b; apply output_path_inj).
  exact (NoDup_fmap_2 (fun k => output_path k fmt) (seq c n) (NoDup_seq c n)).
Qed.

End FileNames.

(** ** What the loop writes and how it draws (lines 186-215) *)

(** The pipeline calls of a trace: generation index, arguments and the state
    of the generator handed to the call. *)
Definition calls {X : Externals} (tr : list (event X))
  : list (nat * FluxArgs * generator X) :=
  omap (fun ev => match ev with EvGenerate i a g => Some (i, a, g) | _ => None end) tr.

(** The calls one generator stream gives rise to: each call receives the
    generator as the previous call left it, and a call that raises is the
    last. *)
Fixpoint draws (X : Externals) (l : list (adapter X)) (args : FluxArgs)
    (n i : nat) (g : generator X) : list (nat * FluxArgs * generator X) :=
  match n with
  | O => []
  | S n' =>
      (i, args, g) ::
      match flux X l args g with
      | Some (_, g') => draws X l args n' (S i) g'
      | None => []
      end
  end.

Ltac loop_cases X r args n :=
  let IH := fresh "IH" in
  induction n as [ | n IH]; intros i g c w;
  [ simpl
  | destruct (generation_loop_cases X r args g w)
      as [Hnone | [(img & g' & Hflux & Hdis & Hbad) | (img & g' & Hflux & Hacc)]];
    [ rewrite (generation_loop_raise X r args n i g c w Hnone)
    | rewrite (generation_loop_flagged X r args n i g c w img g' Hflux Hdis Hbad)
    | rewrite (generation_loop_accepted X r args n i g c w img g' Hflux Hacc) ];
    cbv zeta; simpl ].

Section LoopExtras.

Context (X : Externals).

Implicit Types (r : Request) (w : World X) (tr : list (event X)).

Lemma calls_app tr1 tr2 : calls (tr1 ++ tr2) = calls tr1 ++ calls tr2.
Proof. apply omap_app. Qed.

Lemma no_loop_calls tr :
  Forall (fun ev => not_loop_event X ev = true) tr -> calls tr = [].
Proof.
  induction 1 as [ | ev tr Hev _ IH]; [reflexivity | ].
  destruct ev; try discriminate; simpl; auto.
Qed.

Lemma yielded_seq_lower fmt c n p :
  p ∈ List.map (fun k => output_path k fmt) (seq c n) ->
  exists k, (c <= k)%nat /\ p = output_path k fmt.
Proof.
  intros H. apply list_elem_of_In, in_map_iff in H as (k & <- & Hk).
  apply in_seq in Hk. exists k. split; [lia | reflexivity].
Qed.

(** The loop leaves every file alone but the ones it yields. *)
Lemma generation_loop_frame r args n : forall i g c w p,
  p ∉ yielded (trace (generation_loop X r args n i g c w)) ->
  files (world (generation_loop X r args n i g c w)) !! p = files w !! p.
Proof.
  loop_cases X r args n; intros p Hp; auto.
  rewrite yielded_app in Hp.
  replace (yielded (if disable_safety_checker r then [] else [EvSafetyCheck i false]))
    with (@nil str) in Hp by (destruct (disable_safety_checker r); reflexivity).
  simpl in Hp. apply not_elem_of_cons in Hp as [Hne Hp].
  rewrite (IH _ _ _ _ p Hp). simpl. now apply lookup_insert_ne.
Qed.

(** Every file the loop saved is there at the end, with the bytes of its
    image: no later image of the loop overwrote it. *)
Lemma generation_loop_contents r args n : forall i g c w,
  Forall (fun x => files (world (generation_loop X r args n i g c w)) !! fst (fst x)
                   = Some (encode X (snd (fst x)) (fst (fst x)) (snd x)))
         (saved (trace (generation_loop X r args n i g c w))).
Proof.
  loop_cases X r args n; auto.
  rewrite saved_app.
  replace (saved (if disable_safety_checker r then [] else [EvSafetyCheck i false]))
    with (@nil (str * image X * option (Z * bool)))
    by (destruct (disable_safety_checker r); reflexivity).
  simpl. constructor; [ | apply IH]. simpl.
  rewrite generation_loop_frame; [simpl; apply lookup_insert_eq | ].
  rewrite (generation_loop_yielded X r args n (S i) g' (S c)).
  intros Hin. apply yielded_seq_lower in Hin as (k & Hk & Heq).
  apply output_path_inj in Heq. lia.
Qed.

(** With the checker on, no flagged image is saved. *)
Lemma generation_loop_unflagged r args n : forall i g c w,
  disable_safety_checker r = false ->
  Forall (fun x => has_nsfw X (snd (fst x)) = false)
         (saved (trace (generation_loop X r args n i g c w))).
Proof.
  loop_cases X r args n; intros Hd; auto.
  rewrite Hd in *. simpl in *. apply negb_true_iff in Hacc.
  constructor; [exact Hacc | now apply IH].
Qed.

(** The calls of the loop are the draws of one stream, whatever is flagged. *)
Lemma generation_loop_calls r args n : forall i g c w,
  calls (trace (generation_loop X r args n i g c w)) = draws X (attached w) args n i g.
Proof.
  loop_cases X r args n; auto.
  - now rewrite Hnone.
  - rewrite Hflux. f_equal. apply IH.
  - rewrite Hflux, calls_app.
    replace (calls (if disable_safety_checker r then [] else [EvSafetyCheck i false]))
      with (@nil (nat * FluxArgs * generator X))
      by (destruct (disable_safety_checker r); reflexivity).
    simpl. f_equal. rewrite IH. reflexivity.
Qed.

Lemma draws_length l args n i g : (length (draws X l args n i g) <= n)%nat.
Proof.
  revert i g. induction n as [ | n IH]; intros i g; simpl; [lia | ].
  destruct (flux X l args g) as [[img g'] | ]; simpl; [ | lia].
  specialize (IH (S i) g'). lia.
Qed.

(** How the trace and the files of [predict] are made of those of its
    parts. *)
Lemma predict_parts r w :
  (exists e, res (prepare X r w) = Raise e /\
     predict X r w = MkOut (Raise e) (world (prepare X r w)) (trace (prepare X r w))) \/
  (exists p tail,
     let l := generation_loop X r (fst p) (Z.to_nat (num_outputs r)) 0 (snd p) 0
                (world (prepare X r w)) in
     res (prepare X r w) = Ok p /\
     trace (predict X r w) = trace (prepare X r w) ++ trace l ++ tail /\
     (tail = [] \/ tail = [EvUnloadLora]) /\
     files (world (predict X r w)) = files (world l) /\
     urandom_pos (world (predict X r w)) = urandom_pos (world l) /\
     urandom_src (world (predict X r w)) = urandom_src (world l)).
Proof.
  destruct (res (prepare X r w)) as [p | e] eqn:Hp.
  - right. rewrite (predict_ok X r w p Hp). cbv zeta. simpl.
    destruct (res (generation_loop X r (fst p) (Z.to_nat (num_outputs r)) 0 (snd p) 0
                     (world (prepare X r w)))) as [c | e] eqn:Hl.
    + rewrite (generate_ok X r p _ c Hl). simpl.
      exists p, (if bool_decide (is_Some (hf_lora r)) then [EvUnloadLora] else []).
      destruct (bool_decide (is_Some (hf_lora r))); simpl; repeat split; auto.
    + rewrite (generate_raise X r p _ e Hl). simpl.
      exists p, []. rewrite app_nil_r. repeat split; auto.
  - left. exists e. split; [reflexivity | now apply predict_raise].
Qed.

(** X1. The files one request yields have pairwise different names: no
    image of a request is written over another image of that request. *)
Theorem yielded_paths_distinct r w : NoDup (yielded (trace (predict X r w))).
Proof.
  destruct (predict_loop_trace X r w)
    as [(e & _ & -> & _) | (p & _ & Hy & _)]; [constructor | ].
  cbv zeta in Hy. rewrite Hy, generation_loop_yielded. apply output_paths_NoDup.
Qed.

(** X2. When a request ends, normally or not, every file it saved exists and
    holds the encoding of the image saved under that name, with the options
    it was saved with. *)
Theorem saved_files_hold_images r w :
  Forall (fun x => files (world (predict X r w)) !! fst (fst x)
                   = Some (encode X (snd (fst x)) (fst (fst x)) (snd x)))
         (saved (trace (predict X r w))).
Proof.
  destruct (predict_parts r w) as [(e & He & ->) | (p & tail & H)].
  - simpl. destruct (no_loop_events X _ (prepare_quiet X r w)) as (_ & -> & _).
    constructor.
  - cbv zeta in H. destruct H as (Hp & Ht & Htail & Hf & _).
    rewrite Ht, Hf, !saved_app.
    destruct (no_loop_events X _ (prepare_quiet X r w)) as (_ & -> & _).
    replace (saved tail) with (@nil (str * image X * option (Z * bool)))
      by (destruct Htail as [-> | ->]; reflexivity).
    rewrite app_nil_r. simpl. apply generation_loop_contents.
Qed.

(** X3. With the safety checker on, no image the checker flags is ever
    saved. *)
Theorem flagged_images_never_saved r w :
  disable_safety_checker r = false ->
  Forall (fun x => has_nsfw X (snd (fst x)) = false) (saved (trace (predict X r w))).
Proof.
  intros Hd.
  destruct (predict_loop_trace X r w)
    as [(e & _ & _ & -> & _) | (p & _ & _ & Hs & _)]; [constructor | ].
  cbv zeta in Hs. rewrite Hs. now apply generation_loop_unflagged.
Qed.

(** The seed of a request: the explicit one, or the one drawn. *)
Definition effective_seed r w : Z :=
  match seed r with
  | Some s => s
  | None => drawn_seed w
  end.

(** [joint_attention_kwargs]: the scale when there is a reference (lines
    146-147), [None] otherwise (line 183). *)
Definition adapter_scale r : option float :=
  match hf_lora r with
  | Some _ => Some (lora_scale r)
  | None => None
  end.

Lemma resolve_adapter_result r w jak :
  res (resolve_adapter X r w) = Ok jak -> jak = adapter_scale r.
Proof.
  unfold resolve_adapter, adapter_scale.
  destruct (hf_lora r) as [ref | ].
  - match goal with |- res (bind X ?m _ w) = _ -> _ =>
      unfold bind at 1; destruct (res (m w)) end; simpl; congruence.
  - simpl. congruence.
Qed.

(** What the steps before the loop hand to it. *)
Lemma prepare_result r w p :
  res (prepare X r w) = Ok p ->
  exists wh,
    aspect_ratio_to_width_height (aspect_ratio r) = Some wh /\
    p = (flux_args r wh (adapter_scale r), manual_seed X (effective_seed r w)).
Proof.
  intros Hp.
  assert (exists w', res (choose_seed X r w) = Ok (effective_seed r w) /\
                     world (choose_seed X r w) = w') as (w' & Hs & Hw).
  { unfold choose_seed, effective_seed, drawn_seed.
    destruct (seed r); simpl; eauto. }
  unfold prepare, bind in Hp. rewrite Hs, Hw in Hp.
  unfold prepare_with, bind, unpack_size in Hp.
  destruct (aspect_ratio_to_width_height (aspect_ratio r)) as [wh | ];
    [ | discriminate].
  exists wh. split; [reflexivity | ]. simpl in Hp.
  destruct (res (resolve_adapter X r w')) as [jak | e] eqn:Hr; [ | discriminate].
  apply resolve_adapter_result in Hr as ->. simpl in Hp. congruence.
Qed.

(** X4. The pipeline calls of a request are the draws of one generator
    stream: indices 0, 1, ..., the same arguments every time (the width and
    height of the table, the adapter scale when there is a reference), the
    generator seeded once with the seed of the request for the first call
    and, for each later call, as the call before left it, whether that image
    was flagged or not; after a call that raises there is no further call.
    A request that fails before the loop calls the pipeline not at all. *)
Theorem pipeline_calls_one_stream r w :
  match res (prepare X r w), aspect_ratio_to_width_height (aspect_ratio r) with
  | Ok _, Some wh =>
      calls (trace (predict X r w))
      = draws X (attached (world (prepare X r w)))
          (flux_args r wh (adapter_scale r))
          (Z.to_nat (num_outputs r)) 0
          (manual_seed X (effective_seed r w))
  | Ok _, None => False
  | Raise _, _ => calls (trace (predict X r w)) = []
  end.
Proof.
  pose proof (no_loop_calls _ (prepare_quiet X r w)) as Hprep.
  destruct (predict_parts r w) as [(e & He & Heq) | (p & tail & H)].
  - rewrite He, Heq. exact Hprep.
  - cbv zeta in H. destruct H as (Hp & Ht & Htail & _).
    destruct (prepare_result r w p Hp) as (wh & Hwh & ->).
    rewrite Hp, Hwh, Ht, !calls_app, Hprep, generation_loop_calls.
    replace (calls tail) with (@nil (nat * FluxArgs * generator X))
      by (destruct Htail as [-> | ->]; reflexivity).
    now rewrite app_nil_r.
Qed.

End LoopExtras.

Arguments effective_seed {X} r w.

Lemma flagged_images_never_saved_witness :
  let X := toy (fun _ => false) (fun img => img =? 70) in
  let r := with_seed (Some 7) (with_num_outputs 3 (default_request (lit "a cat"))) in
  let o := predict X r (fresh_world X) in
  disable_safety_checker r = false /\
  flags (trace o) = [true; false; false] /\
  Forall (fun x => has_nsfw X (snd (fst x)) = false) (saved (trace o)).
Proof.
  intros X r o. split; [reflexivity | ]. split; [vm_compute; reflexivity | ].
  apply (flagged_images_never_saved X r (fresh_world X)). reflexivity.
Defined.

(** A flagged image uses up its draw: the next call continues the stream. *)
Example flagged_image_advances_generator :
  let X := toy (fun _ => false) (fun img => img =? 70) in
  let r := with_seed (Some 7) (with_num_outputs 3 (default_request (lit "a cat"))) in
  List.map snd (calls (trace (predict X r (fresh_world X)))) = [7; 8; 9] /\
  List.map (fun x => snd (fst x)) (saved (trace (predict X r (fresh_world X)))) = [80; 90].
Proof. vm_compute. split; reflexivity. Qed.

(** ** How a request ends, what it touches *)

Section RequestExtras.

Context (X : Externals).

Implicit Types (r : Request) (w : World X) (tr : list (event X)).

Lemma generation_loop_events r args n : forall i g c w,
  Forall (fun ev => is_loop_event X ev = true)
         (trace (generation_loop X r args n i g c w)).
Proof.
  loop_cases X r args n.
  - constructor.
  - repeat constructor.
  - constructor; [reflexivity | ]. constructor; [reflexivity | apply IH].
  - constructor; [reflexivity | ]. apply Forall_app. split.
    + destruct (disable_safety_checker r); repeat constructor.
    + constructor; [reflexivity | ]. constructor; [reflexivity | apply IH].
Qed.

Lemma loop_events_quiet tr :
  Forall (fun ev => is_loop_event X ev = true) tr ->
  pget_runs tr = [] /\ Forall (fun ev => is_network ev = false) tr.
Proof.
  induction 1 as [ | ev tr Hev _ [IH1 IH2]]; [split; [reflexivity | constructor] | ].
  destruct ev; try discriminate; simpl; auto.
Qed.

Lemma generation_loop_urandom r args n : forall i g c w,
  urandom_pos (world (generation_loop X r args n i g c w)) = urandom_pos w /\
  urandom_src (world (generation_loop X r args n i g c w)) = urandom_src w.
Proof.
  loop_cases X r args n; auto.
  destruct (IH (S i) g' (S c)
              (set_files (<[output_path c (output_format r) :=
                 encode X img (output_path c (output_format r)) (save_options r)]>
                 (files w)) w)) as [-> ->].
  auto.
Qed.

Lemma predict_generated r w :
  match res (prepare X r w) with
  | Ok p =>
      generated (trace (predict X r w))
      = generated (trace (generation_loop X r (fst p) (Z.to_nat (num_outputs r)) 0
                            (snd p) 0 (world (prepare X r w))))
  | Raise _ => generated (trace (predict X r w)) = []
  end.
Proof.
  destruct (no_loop_events X _ (prepare_quiet X r w)) as (_ & _ & Hg & _).
  destruct (predict_parts X r w) as [(e & He & Heq) | (p & tail & H)].
  - rewrite He, Heq. exact Hg.
  - cbv zeta in H. destruct H as (Hp & Ht & Htail & _).
    rewrite Hp, Ht, !generated_app, Hg.
    replace (generated tail) with (@nil nat)
      by (destruct Htail as [-> | ->]; reflexivity).
    now rewrite app_nil_r.
Qed.

(** X5. A request returns normally only after it has called the pipeline N
    times and yielded at least one file.  It raises the all-images-flagged
    exception only after N calls and no file at all: never once a file has
    been yielded.  With the checker off and N at least 1 it never raises that
    exception. *)
Theorem result_and_outputs r w :
  let o := predict X r w in
  let N := Z.to_nat (num_outputs r) in
  (res o = Ok tt ->
     (1 <= length (yielded (trace o)) <= N)%nat /\ length (generated (trace o)) = N) /\
  (res o = Raise (PyException all_nsfw_msg) ->
     yielded (trace o) = [] /\ length (generated (trace o)) = N) /\
  (disable_safety_checker r = true -> 1 <= num_outputs r ->
     res o <> Raise (PyException all_nsfw_msg)).
Proof.
  cbv zeta. pose proof (predict_generated r w) as Hgen.
  destruct (predict_loop_trace X r w)
    as [(e & He & Hy & _) | (p & Hp & Hy & _ & _ & Hok & Herr)].
  - pose proof (raises_prepare X r w e He) as Hpe.
    rewrite (predict_raise X r w e He). simpl.
    split; [discriminate | ]. split.
    + intros [= ->]. destruct (all_nsfw_msg_fresh _ Hpe eq_refl).
    + intros _ _ [= ->]. destruct (all_nsfw_msg_fresh _ Hpe eq_refl).
  - cbv zeta in *. rewrite Hp in Hgen. rewrite Hy, Hgen.
    set (l := generation_loop X r (fst p) (Z.to_nat (num_outputs r)) 0 (snd p) 0
                (world (prepare X r w))) in *.
    pose proof (generation_loop_bounds X r (fst p) (Z.to_nat (num_outputs r))
                  0%nat (snd p) 0%nat (world (prepare X r w))) as [Hb _].
    fold l in Hb. simpl in Hb.
    destruct (res l) as [c | e] eqn:Hl.
    + pose proof (generation_loop_count X r (fst p) _ 0%nat (snd p) 0%nat
                    (world (prepare X r w)) c Hl) as [Hc Hn].
      fold l in Hc, Hn. simpl in Hc. rewrite (Hok c eq_refl).
      destruct (c =? 0)%nat eqn:E.
      * apply Nat.eqb_eq in E. split; [discriminate | ]. split.
        { intros _. split; [ | exact Hn].
          destruct (yielded (trace l)); [reflexivity | simpl in Hc; lia]. }
        intros Hd HN _.
        pose proof (proj2 (generation_loop_unchecked X r (fst p) _ 0%nat (snd p) 0%nat
                             (world (prepare X r w)) Hd) c Hl) as Hlen.
        fold l in Hlen. lia.
      * apply Nat.eqb_neq in E. split; [ | split; discriminate].
        intros _. split; [lia | exact Hn].
    + rewrite (Herr e eq_refl).
      rewrite (generation_loop_res X r _ _ _ _ _ _ e Hl).
      split; [discriminate | split; discriminate].
Qed.

(** X6. A request without an adapter reference never reaches the network.
    A request with a reference runs the download tool at most once, and then
    for that reference, without extraction, to the scratch path of its
    kind. *)
Theorem network_use r w :
  match hf_lora r with
  | None => Forall (fun ev => is_network ev = false) (trace (predict X r w))
  | Some ref =>
      pget_runs (trace (predict X r w)) = [] \/
      exists code,
        pget_runs (trace (predict X r w)) = [(false, ref, lora_path_of ref, code)]
  end.
Proof.
  assert (forall p, pget_runs (trace (generation_loop X r (fst p)
            (Z.to_nat (num_outputs r)) 0 (snd p) 0 (world (prepare X r w)))) = [] /\
          Forall (fun ev => is_network ev = false)
            (trace (generation_loop X r (fst p) (Z.to_nat (num_outputs r)) 0 (snd p) 0
                      (world (prepare X r w))))) as Hloop.
  { intros p. apply loop_events_quiet, generation_loop_events. }
  destruct (hf_lora r) as [ref | ] eqn:Href.
  - assert (pget_runs (trace (prepare X r w)) = [] \/
            exists code,
              pget_runs (trace (prepare X r w)) = [(false, ref, lora_path_of ref, code)])
      as Hprep.
    { destruct (choose_seed_spec X r w) as (s & w' & tr & Hs & _ & _ & Htr).
      unfold prepare, bind. rewrite Hs. cbn [res world trace].
      rewrite pget_runs_app.
      replace (pget_runs tr) with (@nil (bool * str * str * Z))
        by (destruct Htr as [-> | ->]; reflexivity).
      simpl. unfold prepare_with, bind, unpack_size.
      destruct (aspect_ratio_to_width_height (aspect_ratio r)); simpl; [ | now left].
      match goal with |- context [res ?m] =>
        assert (pget_runs (trace m) = [] \/
                exists code, pget_runs (trace m) = [(false, ref, lora_path_of ref, code)])
          as Hm; [ | destruct (res m); simpl; rewrite ?app_nil_r; exact Hm] end.
      unfold resolve_adapter. rewrite Href. rewrite trace_then_ret.
      destruct (re_match pat_hf_path ref);
        [rewrite load_lora_weights_trace; now left | ].
      destruct (re_match pat_hf_url ref).
      { destruct (hf_url_slug ref);
          [rewrite load_lora_weights_trace; now left | now left]. }
      destruct (_ || _); [ | now left].
      right. apply load_lora_from_url_trace. }
    destruct (predict_parts X r w) as [(e & He & Heq) | (p & tail & H)].
    + rewrite Heq. exact Hprep.
    + cbv zeta in H. destruct H as (_ & Ht & Htail & _).
      rewrite Ht, !pget_runs_app, (proj1 (Hloop p)).
      replace (pget_runs tail) with (@nil (bool * str * str * Z))
        by (destruct Htail as [-> | ->]; reflexivity).
      rewrite !app_nil_r. exact Hprep.
  - assert (Forall (fun ev => is_network ev = false) (trace (prepare X r w))) as Hprep.
    { destruct (choose_seed_spec X r w) as (s & w' & tr & Hs & _ & _ & Htr).
      unfold prepare, bind. rewrite Hs. cbn [res world trace].
      unfold prepare_with, bind, unpack_size, resolve_adapter. rewrite Href.
      destruct (aspect_ratio_to_width_height (aspect_ratio r)); simpl;
        destruct Htr as [-> | ->]; repeat constructor. }
    destruct (predict_parts X r w) as [(e & He & Heq) | (p & tail & H)].
    + rewrite Heq. exact Hprep.
    + cbv zeta in H. destruct H as (_ & Ht & Htail & _).
      rewrite Ht. apply Forall_app. split; [exact Hprep | ].
      apply Forall_app. split; [apply Hloop | ].
      destruct Htail as [-> | ->]; repeat constructor.
Qed.

End RequestExtras.

Lemma result_and_outputs_witness :
  let X := toy (fun _ => false) (fun img => img =? 70) in
  let r := with_seed (Some 7) (with_num_outputs 2 (default_request (lit "a cat"))) in
  let o := predict X r (fresh_world X) in
  res o = Ok tt /\
  flags (trace o) = [true; false] /\
  (1 <= length (yielded (trace o)) <= 2)%nat /\
  length (generated (trace o)) = 2%nat.
Proof.
  intros X r o.
  assert (res o = Ok tt) as Hres by (vm_compute; reflexivity).
  destruct (result_and_outputs X r (fresh_world X)) as (H & _).
  split; [exact Hres | ]. split; [vm_compute; reflexivity | ].
  exact (H Hres).
Defined.

(** ** The random source, the files and the adapters around the loop *)

(** The calls that change the adapters of the pipeline, in order: a load
    with its source, or an unload. *)
Definition adapter_calls {X : Externals} (tr : list (event X))
  : list (option LoraSource) :=
  omap (fun ev => match ev with
                  | EvLoadLora src => Some (Some src)
                  | EvUnloadLora => Some None
                  | _ => None
                  end) tr.

Section StateExtras.

Context (X : Externals).

Implicit Types (r : Request) (w : World X).

(** The statement leaves the random source as it found it. *)
Definition keeps_urandom {A} (m : M X A) : Prop :=
  forall w, urandom_pos (world (m w)) = urandom_pos w /\
            urandom_src (world (m w)) = urandom_src w.

Lemma keeps_urandom_bind {A B} (m : M X A) (k : A -> M X B) :
  keeps_urandom m -> (forall a, keeps_urandom (k a)) -> keeps_urandom (bind X m k).
Proof.
  intros Hm Hk w. unfold bind. destruct (Hm w) as [Hp Hs].
  destruct (res (m w)) as [a | e]; simpl; [ | auto].
  destruct (Hk a (world (m w))) as [-> ->]. auto.
Qed.

Lemma keeps_urandom_same {A} (m : M X A) :
  (forall w, world (m w) = w) -> keeps_urandom m.
Proof. intros H w. rewrite H. auto. Qed.

Lemma keeps_urandom_load src : keeps_urandom (load_lora_weights X src).
Proof. intros w. unfold load_lora_weights. destruct (fetch_lora X src); auto. Qed.

Lemma keeps_urandom_download url dest file : keeps_urandom (download_weights X url dest file).
Proof.
  intros w. unfold download_weights, check_call_pget.
  destruct file; simpl; destruct (pget X _ url dest (files w)); auto.
Qed.

Lemma keeps_urandom_load_downloaded is_tar path :
  keeps_urandom (load_downloaded_lora X is_tar path).
Proof.
  unfold load_downloaded_lora, load_lora_file. destruct is_tar.
  - apply keeps_urandom_bind; [now apply keeps_urandom_same | intros w0].
    destruct (files w0 !! path); [ | now apply keeps_urandom_same].
    apply keeps_urandom_bind; [now apply keeps_urandom_same | intros _].
    destruct (tar_walk X b); [ | now apply keeps_urandom_same].
    destruct (List.filter _ l) as [ | [name content] ?];
      [now apply keeps_urandom_same | apply keeps_urandom_load].
  - apply keeps_urandom_bind; [now apply keeps_urandom_same | intros w0].
    destruct (files w0 !! path); [apply keeps_urandom_load | now apply keeps_urandom_same].
Qed.

Lemma keeps_urandom_resolve r : keeps_urandom (resolve_adapter X r).
Proof.
  unfold resolve_adapter. destruct (hf_lora r) as [ref | ].
  - apply keeps_urandom_bind; [ | intros; now apply keeps_urandom_same].
    destruct (re_match pat_hf_path ref); [apply keeps_urandom_load | ].
    destruct (re_match pat_hf_url ref).
    { destruct (hf_url_slug ref); [apply keeps_urandom_load | now apply keeps_urandom_same]. }
    destruct (_ || _); [ | now apply keeps_urandom_same].
    unfold load_lora_from_url.
    apply keeps_urandom_bind; [now apply keeps_urandom_same | intros present].
    apply keeps_urandom_bind.
    { destruct present; [ | now apply keeps_urandom_same].
      intros w. unfold os_remove. destruct (files w !! _); auto. }
    intros _. apply keeps_urandom_bind; [apply keeps_urandom_download | intros _].
    apply keeps_urandom_load_downloaded.
  - apply keeps_urandom_bind; [ | intros; now apply keeps_urandom_same].
    intros w. simpl. auto.
Qed.

Lemma keeps_urandom_prepare_with r s : keeps_urandom (prepare_with X r s).
Proof.
  unfold prepare_with. apply keeps_urandom_bind.
  { unfold unpack_size. destruct (aspect_ratio_to_width_height _);
      now apply keeps_urandom_same. }
  intros wh. apply keeps_urandom_bind; [apply keeps_urandom_resolve | ].
  intros jak. now apply keeps_urandom_same.
Qed.

Lemma choose_seed_urandom r w :
  exists s w' tr,
    choose_seed X r w = MkOut (Ok s) w' tr /\
    urandom_src w' = urandom_src w /\
    urandom_pos w'
    = (urandom_pos w + match seed r with None => 2 | Some _ => 0 end)%nat.
Proof.
  unfold choose_seed. destruct (seed r); simpl.
  - eexists _, _, _. split; [reflexivity | ]. split; [reflexivity | lia].
  - eexists _, _, _. unfold bind. simpl. split; [reflexivity | ].
    split; reflexivity.
Qed.

Lemma prepare_urandom r w :
  urandom_src (world (prepare X r w)) = urandom_src w /\
  urandom_pos (world (prepare X r w))
  = (urandom_pos w + match seed r with None => 2 | Some _ => 0 end)%nat.
Proof.
  destruct (choose_seed_urandom r w) as (s & w' & tr & Heq & Hsrc & Hpos).
  unfold prepare, bind. rewrite Heq. cbn [res world trace].
  destruct (keeps_urandom_prepare_with r s w') as [Hp Hs].
  rewrite Hs, Hp. split; assumption.
Qed.

(** X7. A request reads the random source only to choose its seed: it
    consumes two bytes when no seed is given and none otherwise, whether it
    then succeeds or fails, and nothing else moves the source. *)
Theorem random_source_use r w :
  urandom_src (world (predict X r w)) = urandom_src w /\
  urandom_pos (world (predict X r w))
  = (urandom_pos w + match seed r with None => 2 | Some _ => 0 end)%nat.
Proof.
  destruct (prepare_urandom r w) as [Hsrc Hpos].
  destruct (predict_parts X r w) as [(e & He & ->) | (p & tail & H)]; [now split | ].
  cbv zeta in H. destruct H as (_ & _ & _ & _ & Hp & Hs).
  destruct (generation_loop_urandom X r (fst p) (Z.to_nat (num_outputs r)) 0%nat (snd p)
              0%nat (world (prepare X r w))) as [Hlp Hls].
  rewrite Hp, Hs, Hlp, Hls. now split.
Qed.

(** The statement leaves the files as it found them. *)
Definition keeps_files {A} (m : M X A) : Prop :=
  forall w, files (world (m w)) = files w.

Lemma keeps_files_bind {A B} (m : M X A) (k : A -> M X B) :
  keeps_files m -> (forall a, keeps_files (k a)) -> keeps_files (bind X m k).
Proof.
  intros Hm Hk w. unfold bind. specialize (Hm w).
  destruct (res (m w)) as [a | e]; simpl; [ | auto].
  now rewrite (Hk a (world (m w))).
Qed.

Lemma prepare_files r w :
  hf_lora r = None -> files (world (prepare X r w)) = files w.
Proof.
  intros Hn. revert w.
  change (keeps_files (prepare X r)). unfold prepare.
  apply keeps_files_bind.
  { intros w. destruct (choose_seed_spec X r w) as (s & w' & tr & -> & _ & Hf & _).
    exact Hf. }
  intros s. unfold prepare_with. apply keeps_files_bind.
  { intros w. unfold unpack_size. destruct (aspect_ratio_to_width_height _); reflexivity. }
  intros wh. apply keeps_files_bind; [ | intros jak w; reflexivity].
  unfold resolve_adapter. rewrite Hn.
  apply keeps_files_bind; [intros w; reflexivity | intros ? w; reflexivity].
Qed.

(** X8. After the steps before the loop, a request changes no file but the
    ones it yields; and for a request without an adapter reference, which
    loads nothing, those steps change no file either: such a request leaves
    every file that is not one of its outputs exactly as it was. *)
Theorem files_touched r w :
  (forall p, p ∉ yielded (trace (predict X r w)) ->
     files (world (predict X r w)) !! p = files (world (prepare X r w)) !! p) /\
  (hf_lora r = None ->
     forall p, p ∉ yielded (trace (predict X r w)) ->
       files (world (predict X r w)) !! p = files w !! p).
Proof.
  assert (forall p, p ∉ yielded (trace (predict X r w)) ->
            files (world (predict X r w)) !! p = files (world (prepare X r w)) !! p) as H1.
  { intros p Hp.
    destruct (predict_parts X r w) as [(e & He & Heq) | (p0 & tail & H)].
    - now rewrite Heq.
    - cbv zeta in H. destruct H as (_ & Ht & Htail & Hf & _).
      rewrite Hf. apply generation_loop_frame.
      intros Hin. apply Hp. rewrite Ht, !yielded_app.
      apply elem_of_app. right. apply elem_of_app. now left. }
  split; [exact H1 | ].
  intros Hd p Hp. rewrite (H1 p Hp). now rewrite prepare_files.
Qed.

Lemma adapter_calls_app (tr1 tr2 : list (event X)) :
  adapter_calls (tr1 ++ tr2) = adapter_calls tr1 ++ adapter_calls tr2.
Proof. apply omap_app. Qed.

Lemma loop_events_no_adapter_call (tr : list (event X)) :
  Forall (fun ev => is_loop_event X ev = true) tr -> adapter_calls tr = [].
Proof.
  induction 1 as [ | ev tr Hev _ IH]; [reflexivity | ].
  destruct ev; try discriminate; exact IH.
Qed.

(** The statement calls neither load nor unload. *)
Definition no_adapter_call {A} (m : M X A) : Prop :=
  forall w, adapter_calls (trace (m w)) = [].

(** The statement never unloads and loads at most once: exactly once when it
    returns. *)
Definition loads_once {A} (m : M X A) : Prop :=
  forall w,
    match res (m w) with
    | Ok _ => exists src, adapter_calls (trace (m w)) = [Some src]
    | Raise _ =>
        adapter_calls (trace (m w)) = [] \/
        exists src, adapter_calls (trace (m w)) = [Some src]
    end.

Lemma loads_once_load src : loads_once (load_lora_weights X src).
Proof.
  intros w. unfold load_lora_weights. destruct (fetch_lora X src); simpl; eauto.
Qed.

Lemma loads_once_raise {A} e : loads_once (@raise X A e).
Proof. intros w. simpl. now left. Qed.

Lemma loads_once_after {A B} (m : M X A) (k : A -> M X B) :
  no_adapter_call m -> (forall a, loads_once (k a)) -> loads_once (bind X m k).
Proof.
  intros Hm Hk w. unfold bind. specialize (Hm w).
  destruct (res (m w)) as [a | e]; simpl; [ | now left].
  specialize (Hk a (world (m w))). rewrite adapter_calls_app, Hm. simpl.
  destruct (res (k a (world (m w)))); exact Hk.
Qed.

Lemma loads_once_then {A B} (m : M X A) (f : A -> B) :
  loads_once m -> loads_once (bind X m (fun a => ret X (f a))).
Proof.
  intros Hm w. unfold bind. specialize (Hm w).
  destruct (res (m w)); simpl; rewrite ?app_nil_r; exact Hm.
Qed.

Lemma no_adapter_call_os_remove path : no_adapter_call (os_remove X path).
Proof. intros w. unfold os_remove. destruct (files w !! path); reflexivity. Qed.

Lemma no_adapter_call_download url dest file :
  no_adapter_call (download_weights X url dest file).
Proof.
  intros w. unfold download_weights, check_call_pget.
  destruct file; simpl; destruct (pget X _ url dest (files w)); reflexivity.
Qed.

Lemma loads_once_load_downloaded is_tar path :
  loads_once (load_downloaded_lora X is_tar path).
Proof.
  unfold load_downloaded_lora, load_lora_file. destruct is_tar.
  - apply loads_once_after; [intros w; reflexivity | intros w0].
    destruct (files w0 !! path); [ | apply loads_once_raise].
    apply loads_once_after; [intros w; reflexivity | intros _].
    destruct (tar_walk X b); [ | apply loads_once_raise].
    destruct (List.filter _ l) as [ | [name content] ?];
      [apply loads_once_raise | apply loads_once_load].
  - apply loads_once_after; [intros w; reflexivity | intros w0].
    destruct (files w0 !! path); [apply loads_once_load | apply loads_once_raise].
Qed.

Lemma loads_once_from_url ref : loads_once (load_lora_from_url X ref).
Proof.
  unfold load_lora_from_url.
  apply loads_once_after; [intros w; reflexivity | intros present].
  apply loads_once_after.
  { destruct present; [apply no_adapter_call_os_remove | intros w; reflexivity]. }
  intros _. apply loads_once_after; [apply no_adapter_call_download | intros _].
  apply loads_once_load_downloaded.
Qed.

Lemma loads_once_resolve r ref :
  hf_lora r = Some ref -> loads_once (resolve_adapter X r).
Proof.
  intros Href. unfold resolve_adapter. rewrite Href.
  apply (loads_once_then _ (fun _ => Some (lora_scale r))).
  destruct (re_match pat_hf_path ref); [apply loads_once_load | ].
  destruct (re_match pat_hf_url ref).
  { destruct (hf_url_slug ref); [apply loads_once_load | apply loads_once_raise]. }
  destruct (_ || _); [apply loads_once_from_url | apply loads_once_raise].
Qed.

Lemma no_adapter_call_choose_seed r : no_adapter_call (choose_seed X r).
Proof.
  intros w. destruct (choose_seed_spec X r w) as (s & w' & tr & -> & _ & _ & Htr).
  destruct Htr as [-> | ->]; reflexivity.
Qed.

Lemma loads_once_prepare r ref :
  hf_lora r = Some ref -> loads_once (prepare X r).
Proof.
  intros Href. unfold prepare.
  apply loads_once_after; [apply no_adapter_call_choose_seed | intros s].
  unfold prepare_with. apply loads_once_after.
  { intros w. unfold unpack_size. destruct (aspect_ratio_to_width_height _); reflexivity. }
  intros wh.
  apply (loads_once_then _ (fun jak => (flux_args r wh jak, manual_seed X s))).
  now apply (loads_once_resolve r ref).
Qed.

(** Without a reference the steps before the loop unload once, unless the
    aspect ratio is rejected first. *)
Lemma prepare_unloads r w :
  hf_lora r = None ->
  match aspect_ratio_to_width_height (aspect_ratio r) with
  | Some _ =>
      adapter_calls (trace (prepare X r w)) = [None] /\
      exists p, res (prepare X r w) = Ok p
  | None =>
      adapter_calls (trace (prepare X r w)) = [] /\
      res (prepare X r w) = Raise TypeError
  end.
Proof.
  intros Hn.
  destruct (choose_seed_spec X r w) as (s & w' & tr & Hs & _ & _ & Htr).
  unfold prepare, prepare_with, bind, unpack_size, resolve_adapter, bind.
  rewrite Hs, Hn.
  destruct (aspect_ratio_to_width_height (aspect_ratio r)) as [wh | ]; simpl.
  - split; [ | eauto].
    rewrite !adapter_calls_app. destruct Htr as [-> | ->]; reflexivity.
  - split; [ | reflexivity].
    destruct Htr as [-> | ->]; reflexivity.
Qed.

(** X9. The calls a request makes on the adapters of the pipeline, in
    order.  With a reference it never unloads before it loads, it loads at
    most once, and it unloads, once and last, only when the loop has run to
    its end: a request that returns has made one load followed by one
    unload.  Without a reference it unloads once, before generating, and
    never loads. *)
Theorem adapter_calls_of_request r w :
  let o := predict X r w in
  match hf_lora r with
  | Some ref =>
      (adapter_calls (trace o) = [] /\ exists e, res o = Raise e) \/
      exists src,
        (adapter_calls (trace o) = [Some src] /\ exists e, res o = Raise e) \/
        (adapter_calls (trace o) = [Some src; None] /\
         (res o = Ok tt \/ res o = Raise (PyException all_nsfw_msg)))
  | None =>
      match aspect_ratio_to_width_height (aspect_ratio r) with
      | Some _ => adapter_calls (trace o) = [None]
      | None => adapter_calls (trace o) = [] /\ res o = Raise TypeError
      end
  end.
Proof.
  cbv zeta.
  assert (forall p, adapter_calls
            (trace (generation_loop X r (fst p) (Z.to_nat (num_outputs r)) 0 (snd p) 0
                      (world (prepare X r w)))) = []) as Hloop
    by (intros p; apply loop_events_no_adapter_call, generation_loop_events).
  destruct (hf_lora r) as [ref | ] eqn:Href.
  - pose proof (loads_once_prepare r ref Href w) as Hprep.
    destruct (res (prepare X r w)) as [p | e] eqn:Hp.
    + destruct Hprep as [src Hsrc]. right. exists src.
      rewrite (predict_ok X r w p Hp). cbv zeta. cbn [res trace].
      destruct (res (generation_loop X r (fst p) (Z.to_nat (num_outputs r)) 0 (snd p) 0
                       (world (prepare X r w)))) as [c | e] eqn:Hl.
      * right. rewrite (generate_ok X r p _ c Hl). cbv zeta. cbn [res trace].
        rewrite Href, bool_decide_eq_true_2 by eauto.
        rewrite !adapter_calls_app, Hsrc, Hloop. simpl.
        split; [reflexivity | destruct (c =? 0)%nat; auto].
      * left. rewrite (generate_raise X r p _ e Hl). cbv zeta. cbn [res trace].
        rewrite adapter_calls_app, Hsrc, Hloop. simpl. eauto.
    + rewrite (predict_raise X r w e Hp). cbn [res trace].
      destruct Hprep as [Hnone | [src Hsrc]]; [left; eauto | ].
      right. exists src. left. eauto.
  - pose proof (prepare_unloads r w Href) as Hprep.
    destruct (aspect_ratio_to_width_height (aspect_ratio r)) as [wh | ].
    + destruct Hprep as (Hcalls & p & Hp).
      rewrite (predict_ok X r w p Hp). cbv zeta. cbn [res trace].
      destruct (res (generation_loop X r (fst p) (Z.to_nat (num_outputs r)) 0 (snd p) 0
                       (world (prepare X r w)))) as [c | e] eqn:Hl.
      * rewrite (generate_ok X r p _ c Hl). cbv zeta. cbn [res trace].
        rewrite Href, bool_decide_eq_false_2 by (intros [? ?]; discriminate).
        rewrite !adapter_calls_app, Hcalls, Hloop. reflexivity.
      * rewrite (generate_raise X r p _ e Hl). cbv zeta. cbn [res trace].
        rewrite adapter_calls_app, Hcalls, Hloop. reflexivity.
    + destruct Hprep as (Hcalls & Hp).
      rewrite (predict_raise X r w _ Hp). cbn [res trace]. auto.
Qed.

End StateExtras.

Lemma files_touched_witness :
  let r := with_num_outputs 2 (default_request (lit "a cat")) in
  let o := predict toy_ok r (used_world toy_ok) in
  hf_lora r = None /\
  yielded (trace o) = [lit "/tmp/out-0.webp"; lit "/tmp/out-1.webp"] /\
  files (world o) !! lit "/tmp/lora.safetensors"
  = files (used_world toy_ok) !! lit "/tmp/lora.safetensors".
Proof.
  intros r o.
  destruct (files_touched toy_ok r (used_world toy_ok)) as [_ H].
  split; [reflexivity | ]. split; [vm_compute; reflexivity | ].
  apply (H eq_refl).
  apply (bool_decide_eq_false_1 (lit "/tmp/lora.safetensors" ∈ yielded (trace o))).
  vm_compute. reflexivity.
Defined.

(** The three outcomes of a request with a reference: a reference that is
    rejected, a pipeline that raises at its second call, and a request that
    returns. *)
Example adapter_calls_run :
  let X := toy_second_call_fails in
  let r := with_hf_lora (Some (lit "owner/name"))
             (with_seed (Some 0) (default_request (lit "a cat"))) in
  adapter_calls (trace (predict X (with_hf_lora (Some (lit "my lora?")) r) (fresh_world X)))
  = [] /\
  adapter_calls (trace (predict X (with_num_outputs 2 r) (fresh_world X)))
  = [Some (HubRepo (lit "owner/name") None)] /\
  adapter_calls (trace (predict X r (fresh_world X)))
  = [Some (HubRepo (lit "owner/name") None); None].
Proof. vm_compute. repeat split; reflexivity. Qed.

(** ** The references the resolver accepts (lines 148-177) *)

Section ReferenceExtras.

Context (X : Externals).

Implicit Types (r : Request) (w : World X) (ref : str).

Lemma split_last_from_spec (sep : char) (s : str) : forall cur,
  ((sep ∉ s) /\ split_last_from sep cur s = rev cur ++ s) \/
  (exists a, s = a ++ [sep] ++ split_last_from sep cur s /\
             sep ∉ split_last_from sep cur s).
Proof.
  induction s as [ | c s IH]; intros cur; simpl.
  - left. split; [apply not_elem_of_nil | now rewrite app_nil_r].
  - destruct (N.eqb_spec c sep) as [-> | Hne].
    + right. destruct (IH []) as [[Hno Heq] | (a & Heq & Hno)].
      * exists []. simpl in Heq. rewrite Heq. split; [reflexivity | exact Hno].
      * exists (sep :: a). split; [simpl; f_equal; exact Heq | exact Hno].
    + destruct (IH (c :: cur)) as [[Hno Heq] | (a & Heq & Hno)].
      * left. split.
        { apply not_elem_of_cons. split; [congruence | exact Hno]. }
        rewrite Heq. simpl. now rewrite <- app_assoc.
      * right. exists (c :: a). split; [simpl; f_equal; exact Heq | exact Hno].
Qed.

(** [s.split(sep)[-1]] holds no separator, and when [s] has one, [s] ends
    with the separator followed by it. *)
Lemma split_last_spec (sep : char) (s : str) :
  (sep ∉ split_last sep s) /\
  (sep ∈ s -> exists a, s = a ++ [sep] ++ split_last sep s).
Proof.
  unfold split_last. destruct (split_last_from_spec sep s []) as [[Hno Heq] | (a & Heq & Hno)].
  - simpl in Heq. rewrite Heq. split; [exact Hno | intros Hin; contradiction].
  - split; [exact Hno | intros _; eauto].
Qed.

Lemma hf_url_has_slash ref : re_match pat_hf_url ref = true -> 47%N ∈ ref.
Proof.
  intros H. unfold re_match in H. simpl dollar in H. cbv iota in H. simpl body in H.
  apply fullmatch_lang in H.
  apply lang_seq_inv in H as (host & tail & -> & Hhost & _).
  unfold re_hf_host in Hhost.
  apply lang_seq_inv in Hhost as (sch & rest & -> & Hsch & _).
  apply lang_re_scheme in Hsch as [-> | ->];
    apply elem_of_app; left; apply elem_of_app; left;
    apply (bool_decide_eq_true_1 _); vm_compute; reflexivity.
Qed.

Lemma span_stop (p : char -> bool) (s : str) :
  match s with c :: _ => p c = false | [] => True end -> span p s = ([], s).
Proof. destruct s as [ | c s]; simpl; [reflexivity | intros ->; reflexivity]. Qed.

(** The slug [hf_url_slug] returns is the one every greedy reading of the
    pattern gives: the text right after the host that is a slug and is not
    followed by a further slug character. *)
Lemma hf_url_slug_greedy (pre g rest : str) :
  lang (Seq re_hf_host (Sym (One 47))) pre ->
  lang re_slug g ->
  match rest with c :: _ => is_slug_char c = false | [] => True end ->
  hf_url_slug (pre ++ g ++ rest) = Some g.
Proof.
  intros Hpre Hg Hrest.
  apply lang_seq_inv in Hpre as (host & sl & -> & Hhost & Hsl).
  apply lang_one_inv in Hsl as ->.
  unfold re_hf_host in Hhost.
  apply lang_seq_inv in Hhost as (sch & h1 & -> & Hsch & Hh).
  apply lang_seq_inv in Hh as (hf & h2 & -> & Hhf & Hh).
  apply lang_chars in Hhf as ->.
  apply lang_seq_inv in Hh as (dot & co & -> & Hdot & Hco).
  apply lang_chars in Hco as ->.
  inversion Hdot as [ | ? d Hd | | | | | ]; subst.
  unfold re_slug in Hg.
  apply lang_seq_inv in Hg as (owner & g2 & -> & Ho & Hg).
  apply lang_seq_inv in Hg as (sl & name & -> & Hsl & Hn).
  apply lang_one_inv in Hsl as ->.
  apply lang_plus_class in Ho as [Hone Ho].
  apply lang_plus_class in Hn as [Hnne Hn].
  unfold hf_url_slug.
  rewrite <- !app_assoc. rewrite (strip_scheme_app sch _ Hsch).
  cbv [mbind option_bind]. rewrite strip_prefix_app. cbv beta iota.
  unfold strip_not_newline.
  change ([d] ++ lit "co" ++ [47%N] ++ owner ++ [47%N] ++ name ++ rest)
    with (d :: lit "co/" ++ owner ++ [47%N] ++ name ++ rest).
  cbv beta iota. rewrite Hd, strip_prefix_app. cbv beta iota.
  rewrite (span_app is_slug_char owner _ Ho).
  change (span is_slug_char ([47%N] ++ name ++ rest))
    with (@nil char, [47%N] ++ name ++ rest).
  cbn [fst snd]. rewrite app_nil_r.
  destruct owner as [ | o owner]; [congruence | ].
  change ([47%N] ++ name ++ rest) with (lit "/" ++ name ++ rest).
  rewrite strip_prefix_app. cbv beta iota.
  rewrite (span_app is_slug_char name _ Hn), (span_stop _ rest Hrest).
  cbn [fst snd]. rewrite app_nil_r.
  destruct name as [ | n name]; [congruence | ].
  reflexivity.
Qed.

(** X10. A hub URL reference is resolved by the pattern of line 153.  When
    that pattern matches, the hub is asked for the slug it finds and for the
    weight file named by the text after the last slash of the reference.
    The slug is the [owner/name] text right after the host, taken as far as
    it goes (the next character, if any, is not a slug character), and it is
    the only such text.  When the pattern finds none, as for a URL that
    stops at the host, the request ends with [AttributeError] and nothing
    has been loaded or changed. *)
Theorem hub_url_reference r w ref :
  hf_lora r = Some ref ->
  re_match pat_hf_path ref = false ->
  re_match pat_hf_url ref = true ->
  let o := resolve_adapter X r w in
  let weight_name := split_last 47 ref in
  ((47%N ∉ weight_name) /\ exists before, ref = before ++ [47%N] ++ weight_name) /\
  if re_match pat_hf_url_slug ref
  then exists pre slug rest,
         ref = pre ++ slug ++ rest /\
         lang (Seq re_hf_host (Sym (One 47))) pre /\
         lang re_slug slug /\
         match rest with c :: _ => is_slug_char c = false | [] => True end /\
         (forall pre' slug' rest',
            ref = pre' ++ slug' ++ rest' ->
            lang (Seq re_hf_host (Sym (One 47))) pre' ->
            lang re_slug slug' ->
            match rest' with c :: _ => is_slug_char c = false | [] => True end ->
            slug' = slug) /\
         trace o = [EvLoadLora (HubRepo slug (Some weight_name))]
  else o = MkOut (Raise AttributeError) w [].
Proof.
  intros Href H1 H2. cbv zeta.
  split.
  { destruct (split_last_spec 47 ref) as [Hno Hex].
    split; [exact Hno | apply Hex; now apply hf_url_has_slash]. }
  unfold resolve_adapter. rewrite Href, H1, H2.
  destruct (re_match pat_hf_url_slug ref) eqn:H3.
  - apply hf_url_slug_complete in H3 as [slug Hslug].
    destruct (hf_url_slug_sound ref slug Hslug) as (pre & rest & Heq & Hpre & Hlang & Hmax).
    exists pre, slug, rest. rewrite Hslug.
    split; [exact Heq | ]. split; [exact Hpre | ]. split; [exact Hlang | ].
    split; [exact Hmax | ]. split.
    + intros pre' slug' rest' Heq' Hpre' Hlang' Hmax'.
      pose proof (hf_url_slug_greedy pre' slug' rest' Hpre' Hlang' Hmax') as Hg.
      rewrite <- Heq', Hslug in Hg. congruence.
    + rewrite trace_then_ret. apply load_lora_weights_trace.
  - destruct (hf_url_slug ref) as [slug | ] eqn:Hslug; [ | reflexivity].
    assert (re_match pat_hf_url_slug ref = true) as H4
      by (apply hf_url_slug_complete; eauto).
    congruence.
Qed.


(** X12. The references taken for hub slugs (line 148) are exactly the
    strings [owner/name] with two non-empty segments of letters, digits,
    [_] and [-], optionally followed by one final newline, which [$] lets
    through. *)
Theorem hf_path_shape (s : str) :
  re_match pat_hf_path s = true <->
  exists owner name nl,
    s = owner ++ [47%N] ++ name ++ nl /\
    owner <> [] /\ Forall (fun c => is_slug_char c = true) owner /\
    name <> [] /\ Forall (fun c => is_slug_char c = true) name /\
    (nl = [] \/ nl = [10%N]).
Proof.
  unfold re_match. simpl dollar. cbv iota. simpl body. rewrite fullmatch_lang.
  split.
  - intros H. apply lang_seq_inv in H as (g & nl & -> & Hg & Hnl).
    unfold re_slug in Hg.
    apply lang_seq_inv in Hg as (owner & g2 & -> & Ho & Hg).
    apply lang_seq_inv in Hg as (sl & name & -> & Hsl & Hn).
    apply lang_one_inv in Hsl as ->.
    apply lang_plus_class in Ho as [Hone Ho].
    apply lang_plus_class in Hn as [Hnne Hn].
    exists owner, name, nl. rewrite <- !app_assoc.
    repeat split; auto.
    apply lang_alt_inv in Hnl as [Hnl | Hnl].
    + right. now apply lang_one_inv in Hnl.
    + left. now apply lang_eps_inv in Hnl.
  - intros (owner & name & nl & -> & Hone & Ho & Hnne & Hn & Hnl).
    replace (owner ++ [47%N] ++ name ++ nl) with ((owner ++ [47%N] ++ name) ++ nl)
      by (rewrite <- !app_assoc; reflexivity).
    apply lang_seq.
    + unfold re_slug. apply lang_seq; [now apply lang_plus_class | ].
      apply lang_seq; [apply lang_sym; apply N.eqb_refl | now apply lang_plus_class].
    + destruct Hnl as [-> | ->].
      * apply lang_alt_r. constructor.
      * apply lang_alt_l. apply lang_sym. apply N.eqb_refl.
Qed.

End ReferenceExtras.

Lemma hub_url_reference_witness :
  let ref := lit "https://huggingface.co" in
  let r := with_hf_lora (Some ref) (default_request (lit "a cat")) in
  let ref2 := lit "https://huggingface.co/owner/name-2/blob/main/lora.safetensors" in
  let r2 := with_hf_lora (Some ref2) (default_request (lit "a cat")) in
  let w := fresh_world toy_ok in
  hf_lora r = Some ref /\
  re_match pat_hf_path ref = false /\
  re_match pat_hf_url ref = true /\
  re_match pat_hf_url_slug ref = false /\
  resolve_adapter toy_ok r w = MkOut (Raise AttributeError) w [] /\
  re_match pat_hf_url_slug ref2 = true /\
  exists pre rest,
    ref2 = pre ++ lit "owner/name-2" ++ rest /\
    lang (Seq re_hf_host (Sym (One 47))) pre /\
    trace (resolve_adapter toy_ok r2 w)
    = [EvLoadLora (HubRepo (lit "owner/name-2") (Some (lit "lora.safetensors")))].
Proof.
  intros ref r ref2 r2 w.
  assert (re_match pat_hf_path ref = false) as H1 by (vm_compute; reflexivity).
  assert (re_match pat_hf_url ref = true) as H2 by (vm_compute; reflexivity).
  assert (re_match pat_hf_url_slug ref = false) as H3 by (vm_compute; reflexivity).
  pose proof (hub_url_reference toy_ok r w ref eq_refl H1 H2) as [_ H].
  rewrite H3 in H.
  assert (re_match pat_hf_path ref2 = false) as K1 by (vm_compute; reflexivity).
  assert (re_match pat_hf_url ref2 = true) as K2 by (vm_compute; reflexivity).
  assert (re_match pat_hf_url_slug ref2 = true) as K3 by (vm_compute; reflexivity).
  pose proof (hub_url_reference toy_ok r2 w ref2 eq_refl K1 K2) as [_ K].
  rewrite K3 in K. destruct K as (pre & slug & rest & Heq & Hpre & _ & _ & _ & Htr).
  assert (trace (resolve_adapter toy_ok r2 w)
          = [EvLoadLora (HubRepo (lit "owner/name-2") (Some (lit "lora.safetensors")))])
    as Hrun by (vm_compute; reflexivity).
  assert (slug = lit "owner/name-2") as Hslug by congruence.
  rewrite Hslug in Heq.
  repeat split; try assumption.
  exists pre, rest. repeat split; assumption.
Defined.


(** ** [setup], the seed bytes and the bounds of a served request *)

(** A download tool that, when it exits with 0, has put something at its
    destination and has deleted nothing. *)
Definition pget_keeps (X : Externals) : Prop :=
  forall x url dest (fs : gmap str bytes),
    fst (pget X x url dest fs) = 0 ->
    is_Some (snd (pget X x url dest fs) !! dest) /\
    forall p, is_Some (fs !! p) -> is_Some (snd (pget X x url dest fs) !! p).

(** Black boxes like [toy_ok], with a download tool that always fails. *)
Definition toy_offline : Externals :=
  {| image := Z;
     generator := Z;
     adapter := LoraSource;
     manual_seed := fun s => s;
     flux := fun l _ g => Some (10 * g + Z.of_nat (length l), g + 1);
     has_nsfw := fun _ => false;
     fetch_lora := fun src => Some src;
     pget := fun _ _ _ fs => (7, fs);
     tar_walk := fun _ => None;
     encode := fun _ _ _ => [] |}.

(** Black boxes like [toy_offline], with a download tool that delivers the
    safety bundle and fails on everything else. *)
Definition toy_model_offline : Externals :=
  {| image := Z;
     generator := Z;
     adapter := LoraSource;
     manual_seed := fun s => s;
     flux := fun l _ g => Some (10 * g + Z.of_nat (length l), g + 1);
     has_nsfw := fun _ => false;
     fetch_lora := fun src => Some src;
     pget := fun _ url dest fs =>
       if endswith url (lit "/safety-1.0.tar") then (0, <[dest := []]> fs) else (7, fs);
     tar_walk := fun _ => None;
     encode := fun _ _ _ => [] |}.

Section SetupExtras.

Context (X : Externals).

Implicit Types (r : Request) (w : World X).

Lemma ensure_weights_ok url dest w :
  pget_keeps X ->
  res (ensure_weights X url dest w) = Ok tt ->
  is_Some (files (world (ensure_weights X url dest w)) !! dest) /\
  forall p, is_Some (files w !! p) ->
            is_Some (files (world (ensure_weights X url dest w)) !! p).
Proof.
  intros Hk Hres. destruct (files w !! dest) as [old | ] eqn:E.
  - rewrite ensure_weights_present by (rewrite E; eauto). simpl.
    split; [rewrite E; eauto | auto].
  - destruct (ensure_weights_absent X url dest w E) as (_ & Hr & Hw).
    cbv zeta in Hr, Hw. rewrite Hr in Hres. rewrite Hw. simpl.
    destruct (fst (pget X true url dest (files w)) =? 0) eqn:Hc; [ | discriminate].
    apply Z.eqb_eq in Hc. exact (Hk true url dest (files w) Hc).
Qed.

Lemma setup_ok_parts w :
  res (setup X w) = Ok tt ->
  let wa := world (ensure_weights X SAFETY_URL SAFETY_CACHE w) in
  res (ensure_weights X SAFETY_URL SAFETY_CACHE w) = Ok tt /\
  res (ensure_weights X MODEL_URL MODEL_CACHE wa) = Ok tt /\
  world (setup X w) = world (ensure_weights X MODEL_URL MODEL_CACHE wa).
Proof.
  unfold setup, bind. cbv zeta.
  destruct (res (ensure_weights X SAFETY_URL SAFETY_CACHE w)) as [[] | e];
    cbn [res world trace emit]; [ | discriminate].
  destruct (res (ensure_weights X MODEL_URL MODEL_CACHE _)) as [[] | e];
    cbn [res world trace emit]; [auto | discriminate].
Qed.

(** X13. The weights are downloaded on the first start only: after a [setup]
    that succeeded, with a download tool that leaves its destination in
    place and deletes nothing, a second [setup] runs no download and changes
    nothing. *)
Theorem setup_downloads_once w :
  pget_keeps X ->
  res (setup X w) = Ok tt ->
  let w1 := world (setup X w) in
  res (setup X w1) = Ok tt /\
  pget_runs (trace (setup X w1)) = [] /\
  world (setup X w1) = w1.
Proof.
  intros Hk Hres. cbv zeta.
  destruct (setup_ok_parts w Hres) as (Ha & Hb & Hw). cbv zeta in Ha, Hb, Hw.
  destruct (ensure_weights_ok SAFETY_URL SAFETY_CACHE w Hk Ha) as [Hs _].
  destruct (ensure_weights_ok MODEL_URL MODEL_CACHE _ Hk Hb) as [Hm Hkeep].
  apply setup_cached; rewrite Hw; [apply Hkeep; exact Hs | exact Hm].
Qed.

(** How [setup] is made of its two guarded downloads. *)
Lemma setup_steps w :
  let a := ensure_weights X SAFETY_URL SAFETY_CACHE w in
  let b := ensure_weights X MODEL_URL MODEL_CACHE (world a) in
  match res a with
  | Raise e => res (setup X w) = Raise e /\ trace (setup X w) = trace a
  | Ok _ =>
      match res b with
      | Raise e =>
          res (setup X w) = Raise e /\
          trace (setup X w)
          = trace a ++ [EvFromPretrained SAFETY_CACHE; EvFromPretrained FEATURE_EXTRACTOR]
              ++ trace b
      | Ok _ => res (setup X w) = Ok tt
      end
  end.
Proof.
  cbv zeta. unfold setup, bind.
  destruct (res (ensure_weights X SAFETY_URL SAFETY_CACHE w)) as [[] | e];
    cbn [res world trace emit]; [ | auto].
  destruct (res (ensure_weights X MODEL_URL MODEL_CACHE _)) as [[] | e];
    cbn [res world trace emit]; auto.
Qed.

(** The safety bundle is in place after lines 48-49: it was there and
    nothing ran, or it was not and its download has just succeeded.  [fs]
    is the files at that point and [pre] the events so far. *)
Definition safety_in_place w (fs : gmap str bytes) (pre : list (event X)) : Prop :=
  (is_Some (files w !! SAFETY_CACHE) /\ fs = files w /\ pre = []) \/
  (files w !! SAFETY_CACHE = None /\
   fst (pget X true SAFETY_URL SAFETY_CACHE (files w)) = 0 /\
   fs = snd (pget X true SAFETY_URL SAFETY_CACHE (files w)) /\
   pre = [EvPget true SAFETY_URL SAFETY_CACHE 0]).

Lemma safety_in_place_run w fs pre :
  safety_in_place w fs pre ->
  let a := ensure_weights X SAFETY_URL SAFETY_CACHE w in
  res a = Ok tt /\ trace a = pre /\ files (world a) = fs.
Proof.
  intros [(Hs & -> & ->) | (Hnone & Hcode & -> & ->)]; cbv zeta.
  - rewrite (ensure_weights_present X SAFETY_URL SAFETY_CACHE w Hs). auto.
  - destruct (ensure_weights_absent X SAFETY_URL SAFETY_CACHE w Hnone) as (Htr & Hres & Hw).
    cbv zeta in Htr, Hres, Hw. rewrite Hcode in Htr, Hres. rewrite Htr, Hres, Hw. auto.
Qed.


(** X15. The two bytes and the seed determine each other: every number from
    0 to 65535 is the seed of exactly one pair of bytes. *)
Theorem two_byte_seeds :
  (forall a0 a1 b0 b1 : byte,
     int_from_bytes_big [a0; a1] = int_from_bytes_big [b0; b1] -> a0 = b0 /\ a1 = b1) /\
  (forall s, 0 <= s <= 65535 -> exists b0 b1, int_from_bytes_big [b0; b1] = s).
Proof.
  split; [apply int_from_two_bytes_inj | ].
  intros s Hs.
  assert (forall n : N, (n <= 255)%N -> exists b, Byte.to_N b = n) as Hbyte.
  { intros n Hn. destruct (Byte.of_N n) as [b | ] eqn:E.
    - exists b. now apply Byte.to_of_N.
    - apply Byte.of_N_None_iff in E. lia. }
  destruct (Hbyte (Z.to_N (s / 256))) as [b0 H0].
  { assert (s / 256 < 256) by (apply Z.div_lt_upper_bound; lia).
    assert (0 <= s / 256) by (apply Z.div_pos; lia). lia. }
  destruct (Hbyte (Z.to_N (s mod 256))) as [b1 H1].
  { pose proof (Z.mod_pos_bound s 256). lia. }
  exists b0, b1.
  destruct (int_from_two_bytes b0 b1) as [-> _]. rewrite H0, H1.
  assert (0 <= s / 256) by (apply Z.div_pos; lia).
  pose proof (Z.mod_pos_bound s 256).
  rewrite !Z2N.id by lia. pose proof (Z.div_mod s 256). lia.
Qed.

Lemma check_inputs_num_outputs r : check_inputs r = true -> 1 <= num_outputs r <= 4.
Proof.
  unfold check_inputs, in_range. intros H.
  do 5 (apply andb_true_iff in H as [H _]).
  apply andb_true_iff in H as [_ H].
  apply andb_true_iff in H as [H1 H2]. lia.
Qed.

Lemma generation_loop_first_call r args n : forall i g c w,
  (1 <= n)%nat ->
  (1 <= length (generated (trace (generation_loop X r args n i g c w))))%nat.
Proof.
  destruct n as [ | n]; intros i g c w Hn; [lia | ].
  destruct (generation_loop_cases X r args g w)
    as [Hnone | [(img & g' & Hflux & Hdis & Hbad) | (img & g' & Hflux & Hacc)]].
  - rewrite (generation_loop_raise X r args n i g c w Hnone). simpl. lia.
  - rewrite (generation_loop_flagged X r args n i g c w img g' Hflux Hdis Hbad).
    simpl. lia.
  - rewrite (generation_loop_accepted X r args n i g c w img g' Hflux Hacc).
    simpl. lia.
Qed.

(** X16. A request let in by the input checks calls the pipeline at most
    four times and yields at most four files; and once the steps before the
    loop have succeeded, it calls the pipeline at least once. *)
Theorem served_request_bounds r w :
  check_inputs r = true ->
  let o := serve X r w in
  (length (generated (trace o)) <= 4)%nat /\
  (length (yielded (trace o)) <= 4)%nat /\
  (forall p, res (prepare X r w) = Ok p -> (1 <= length (generated (trace o)))%nat).
Proof.
  intros Hchk. cbv zeta. unfold serve. rewrite Hchk.
  pose proof (check_inputs_num_outputs r Hchk) as HN.
  pose proof (predict_generated X r w) as Hgen.
  destruct (predict_loop_trace X r w)
    as [(e & He & Hy & _) | (p & Hp & Hy & _)].
  - rewrite He in Hgen. rewrite Hy, Hgen. simpl.
    split; [lia | split; [lia | intros p Hp; congruence]].
  - cbv zeta in Hy. rewrite Hp in Hgen. rewrite Hy, Hgen.
    pose proof (generation_loop_bounds X r (fst p) (Z.to_nat (num_outputs r))
                  0%nat (snd p) 0%nat (world (prepare X r w))) as [Hb _].
    simpl in Hb.
    split; [lia | split; [lia | ]].
    intros p' _. apply generation_loop_first_call. lia.
Qed.

End SetupExtras.

Lemma toy_ok_pget_keeps : pget_keeps toy_ok.
Proof.
  intros x url dest fs _. simpl. split.
  - rewrite lookup_insert_eq. eauto.
  - intros p Hp. destruct (decide (dest = p)) as [-> | Hne].
    + rewrite lookup_insert_eq. eauto.
    + now rewrite lookup_insert_ne.
Qed.

Lemma setup_downloads_once_witness :
  let w := fresh_world toy_ok in
  let w1 := world (setup toy_ok w) in
  pget_keeps toy_ok /\
  res (setup toy_ok w) = Ok tt /\
  length (pget_runs (trace (setup toy_ok w))) = 2%nat /\
  pget_runs (trace (setup toy_ok w1)) = [] /\
  world (setup toy_ok w1) = w1.
Proof.
  intros w w1.
  assert (res (setup toy_ok w) = Ok tt) as Hres by (vm_compute; reflexivity).
  destruct (setup_downloads_once toy_ok w toy_ok_pget_keeps Hres) as (_ & H2 & H3).
  split; [exact toy_ok_pget_keeps | ]. split; [exact Hres | ].
  split; [vm_compute; reflexivity | ]. split; [exact H2 | exact H3].
Defined.


Lemma two_byte_seeds_witness :
  exists b0 b1, int_from_bytes_big [b0; b1] = 10794.
Proof.
  destruct two_byte_seeds as [_ H]. apply H. lia.
Defined.

Lemma served_request_bounds_witness :
  let r := with_num_outputs 4 (default_request (lit "a cat")) in
  let o := serve toy_ok r (fresh_world toy_ok) in
  check_inputs r = true /\
  (length (generated (trace o)) <= 4)%nat /\
  (length (yielded (trace o)) <= 4)%nat /\
  length (yielded (trace o)) = 4%nat.
Proof.
  intros r o.
  assert (check_inputs r = true) as Hchk by (vm_compute; reflexivity).
  destruct (served_request_bounds toy_ok r (fresh_world toy_ok) Hchk) as (H1 & H2 & _).
  split; [exact Hchk | ]. split; [exact H1 | ]. split; [exact H2 | ].
  vm_compute. reflexivity.
Defined.

Lemma hf_path_shape_witness :
  re_match pat_hf_path (lit "alvdansen/frosting_lane_flux" ++ [10%N]) = true.
Proof.
  apply hf_path_shape.
  exists (lit "alvdansen"), (lit "frosting_lane_flux"), [10%N].
  split; [reflexivity | ].
  split; [discriminate | ]. split; [repeat constructor | ].
  split; [discriminate | ]. split; [repeat constructor | ].
  right. reflexivity.
Defined.
